(** * The combination worker of [src/app/game/[id]/lobby.tsx]

    A shallow embedding of the route handler [POST] of
    /api/generate-combinations and of its helpers [submitJob], [pollResult]
    and [canonicalName], followed by the properties of the worker.

    Conventions of the embedding.
    - A JavaScript string is a [string] (its UTF-8 bytes); a template literal
      is a concatenation with [+:+].
    - A JavaScript number that the code uses as an integer (HTTP status,
      response code, attempt budget, counts) is a [Z].
    - [undefined] and [null] are [None].
    - An [async] function is a computation in the monad [M]: it threads the
      [World] (environment variables, the two tables, the behaviour of the
      services outside the process and the trace of effects performed so
      far) and either returns a value or throws.
    - [Promise.all] and [Promise.allSettled] over an array of [async]
      callbacks run the callbacks one after the other, in array order: one
      of the interleavings the event loop allows.  The answers of the
      services may depend on all that happened before, so every sequence of
      answers is covered.  The callbacks of step 4 push to the shared array
      [submitted] when their answers arrive, which may be in any order: the
      order of [submitted] is decided by the services ([on_arrival]).
    - The rows of a [select] without [order] come in the order the store
      chooses.  [people] of a [World] is the table in the order in which
      the store returns it to the invocation that runs in that world;
      another invocation may read the same rows in another order, and runs
      in a world whose [people] are a permutation.
    - [String.prototype.localeCompare] belongs to the JavaScript engine, not
      to the repository, and its result is implementation-defined; it is a
      parameter [localeCompare] of everything that uses it.
    - [createClient] only builds the store client; it is taken to succeed
      and is not modelled. *)

From stdpp Require Import gmap strings list sorting pretty.
From Stdlib Require Import ZArith OrderedTypeEx.

Local Open Scope Z_scope.

(** ** Data model *)

(** [interface Person { id; name; image }] *)
Module Person.
Record t : Type := mk { id : string; name : string; image : string }.
End Person.

(** A row of the [generated] table: [{ name, image }]. *)
Module Generated.
Record t : Type := mk { name : string; image : string }.
End Generated.

(** The error object of the store client: [{ message, code }]. *)
Record PostgrestError : Type := mkPostgrestError {
  pg_message : string;
  pg_code : string
}.

(** [status: 'queued' | 'processing' | 'completed' | 'failed'] *)
Inductive JobStatus : Type := queued | processing | completed | failed.

(** [interface WaveSpeedSubmitResponse]; [data.id] is read with [?.] and
    tested for truthiness, so it may be absent. *)
Record SubmitData : Type := mkSubmitData {
  sd_id : option string;
  sd_status : string
}.

Record WaveSpeedSubmitResponse : Type := mkSubmitResponse {
  sr_code : Z;
  sr_message : option string;
  sr_data : option SubmitData
}.

(** [interface WaveSpeedResultResponse] *)
Record ResultData : Type := mkResultData {
  rd_id : string;
  rd_status : JobStatus;
  rd_outputs : option (list string);
  rd_error : option string
}.

Record WaveSpeedResultResponse : Type := mkResultResponse {
  rr_code : Z;
  rr_data : option ResultData
}.

(** What [fetch] resolves to: [res.ok], [res.status], [res.text()] and
    [res.json()]; [res_json = None] is a body that [res.json()] rejects. *)
Record FetchResponse (B : Type) : Type := mkFetchResponse {
  res_ok : bool;
  res_status : Z;
  res_text : string;
  res_json : option B
}.
Arguments mkFetchResponse {B} _ _ _ _.
Arguments res_ok {B} _.
Arguments res_status {B} _.
Arguments res_text {B} _.
Arguments res_json {B} _.

(** [fetch] either rejects (the request itself failed) or resolves. *)
Inductive FetchOutcome (B : Type) : Type :=
| Rejects (err : string)
| Resolves (res : FetchResponse B).
Arguments Rejects {B} _.
Arguments Resolves {B} _.

(** [{ data, error }] as returned by [db.from(t).select(cols)]. *)
Record SelectResult (A : Type) : Type := mkSelectResult {
  sel_data : option (list A);
  sel_error : option PostgrestError
}.
Arguments mkSelectResult {A} _ _.
Arguments sel_data {A} _.
Arguments sel_error {A} _.

(** How a bulk read ends: with the rows, with neither rows nor error (the
    case the handler guards with [!people] and [?? []]), or with an error. *)
Inductive ReadOutcome : Type :=
| ReadRows
| ReadNothing
| ReadFails (e : PostgrestError).

(** The row shape of [select('name')]. *)
Record NameRow : Type := mkNameRow { row_name : string }.

(** [console.error] / [console.log] calls, by call site. *)
Inductive LogEntry : Type :=
| LogSubmitError (status : Z) (text : string)
| LogSubmitUnexpected (json : WaveSpeedSubmitResponse)
| LogSubmitException (err : string)
| LogPredictionFailed (predictionId : string) (err : option string)
| LogPollException (attempt : Z) (err : string)
| LogPollTimeout (predictionId : string) (maxAttempts : Z)
| LogGenerating (n : Z)
| LogSaved (canonName : string).

(** The effects of an invocation, each with the answer it got. *)
Inductive Event : Type :=
| EvSelectPeople (r : SelectResult Person.t)
| EvSelectGenerated (r : SelectResult NameRow)
| EvInsert (row : Generated.t) (err : option PostgrestError)
| EvSubmit (imageUrl1 imageUrl2 apiKey : string)
           (out : FetchOutcome WaveSpeedSubmitResponse)
| EvSleep (ms : Z)
| EvPoll (predictionId apiKey : string)
         (out : FetchOutcome WaveSpeedResultResponse)
| EvLog (entry : LogEntry).

(** [process.env]: the three variables the handler reads. *)
Record Env : Type := mkEnv {
  WAVESPEED_API_KEY : option string;
  NEXT_PUBLIC_SUPABASE_URL : option string;
  SUPABASE_SERVICE_ROLE_KEY : option string
}.

(** The services outside the process.  Each answer may depend on everything
    that happened before (the trace, newest event first) and on the request.
    [on_arrival] tells in which order the answers to requests made together
    arrive (see [arrival_order]). *)
Record Oracle : Type := mkOracle {
  on_select_people : list Event -> ReadOutcome;
  on_select_generated : list Event -> ReadOutcome;
  on_insert : list Event -> Generated.t -> option PostgrestError;
  on_submit : list Event -> string -> string -> string ->
              FetchOutcome WaveSpeedSubmitResponse;
  on_poll : list Event -> string -> string ->
            FetchOutcome WaveSpeedResultResponse;
  on_arrival : list Event -> list nat
}.

Record World : Type := mkWorld {
  env : Env;
  people : list Person.t;
  generated : list Generated.t;
  oracle : Oracle;
  trace : list Event
}.

(** JSON bodies of the handler's responses: an object is the list of its
    fields in the order written. *)
Inductive JsonValue : Type :=
| JString (s : string)
| JNumber (n : Z).

(** [NextResponse.json(body, { status })] *)
Record NextResponse : Type := mkNextResponse {
  body : list (string * JsonValue);
  status : Z
}.

(** The elements of the array [Promise.allSettled] resolves to. *)
Inductive Settled (A : Type) : Type :=
| fulfilled (value : A)
| rejected (reason : string).
Arguments fulfilled {A} _.
Arguments rejected {A} _.

(** An entry of the [submitted] array. *)
Record Job : Type := mkJob {
  pair : Person.t * Person.t;
  predictionId : string;
  canonName : string
}.

(** ** The monad of asynchronous computations *)

Inductive Completion (A : Type) : Type :=
| Returned (a : A)
| Thrown (err : string).
Arguments Returned {A} _.
Arguments Thrown {A} _.

Definition M (A : Type) : Type := World -> Completion A * World.

Definition ret {A : Type} (a : A) : M A := fun w => (Returned a, w).

Definition throw {A : Type} (err : string) : M A := fun w => (Thrown err, w).

Definition bind {A B : Type} (m : M A) (k : A -> M B) : M B :=
  fun w =>
    match m w with
    | (Returned a, w') => k a w'
    | (Thrown err, w') => (Thrown err, w')
    end.

Notation "'let*' x ':=' m 'in' k" := (bind m (fun x => k))
  (at level 10, x name, m at level 100, k at level 200).
Notation "m ';;' k" := (bind m (fun _ => k))
  (at level 100, k at level 200, right associativity).

(** [try { body } catch (err) { handler }] *)
Definition try_catch {A : Type} (body : M A) (handler : string -> M A) : M A :=
  fun w =>
    match body w with
    | (Returned a, w') => (Returned a, w')
    | (Thrown err, w') => handler err w'
    end.

(** The promise of one [async] callback, as [Promise.allSettled] sees it. *)
Definition settle {A : Type} (m : M A) : M (Settled A) :=
  fun w =>
    match m w with
    | (Returned a, w') => (Returned (fulfilled a), w')
    | (Thrown err, w') => (Returned (rejected err), w')
    end.

(** [await Promise.all(l.map(f))], the callbacks in array order. *)
Fixpoint mapM {A B : Type} (f : A -> M B) (l : list A) : M (list B) :=
  match l with
  | [] => ret []
  | x :: l' =>
      let* y := f x in
      let* ys := mapM f l' in
      ret (y :: ys)
  end.

(** The same for callbacks that push to a shared array [acc]. *)
Fixpoint foldM {A B : Type} (f : B -> A -> M B) (l : list A) (acc : B) : M B :=
  match l with
  | [] => ret acc
  | x :: l' => let* acc' := f acc x in foldM f l' acc'
  end.

(** The order in which callbacks that wait for their answers resume:
    [ks] names, one after the other, the position among the callbacks still
    waiting of the one that resumes next; a position that does not exist is
    passed over, and the callbacks [ks] does not name resume in array order
    at the end.  Every order of resumption is some [ks]. *)
Fixpoint arrival_order {A : Type} (ks : list nat) (l : list A) : list A :=
  match ks with
  | [] => l
  | k :: ks' =>
      match l !! k with
      | Some x => x :: arrival_order ks' (delete k l)
      | None => arrival_order ks' l
      end
  end.

(** ** Primitive effects *)

Definition record (ev : Event) (w : World) : World :=
  {| env := env w; people := people w; generated := generated w;
     oracle := oracle w; trace := ev :: trace w |}.

Definition store (row : Generated.t) (w : World) : World :=
  {| env := env w; people := people w; generated := generated w ++ [row];
     oracle := oracle w; trace := trace w |}.

Definition getenv (var : Env -> option string) : M (option string) :=
  fun w => (Returned (var (env w)), w).

Definition console (entry : LogEntry) : M unit :=
  fun w => (Returned tt, record (EvLog entry) w).

(** The callbacks of a [Promise.all] whose pushes are [l] in array order
    have pushed: the array holds [l] in the order of arrival. *)
Definition arrive {A : Type} (l : list A) : M (list A) :=
  fun w => (Returned (arrival_order (on_arrival (oracle w) (trace w)) l), w).

(** [await new Promise((r) => setTimeout(r, ms))] *)
Definition sleep (ms : Z) : M unit :=
  fun w => (Returned tt, record (EvSleep ms) w).

Definition read {A : Type} (rows : list A) (o : ReadOutcome) : SelectResult A :=
  match o with
  | ReadRows => mkSelectResult (Some rows) None
  | ReadNothing => mkSelectResult None None
  | ReadFails e => mkSelectResult None (Some e)
  end.

(** [db.from('people').select('id, name, image')]: the rows, in the order
    in which the store returns them to this invocation, which is the order
    of [people]. *)
Definition db_select_people : M (SelectResult Person.t) :=
  fun w =>
    let r := read (people w) (on_select_people (oracle w) (trace w)) in
    (Returned r, record (EvSelectPeople r) w).

(** [db.from('generated').select('name')] *)
Definition db_select_generated : M (SelectResult NameRow) :=
  fun w =>
    let r := read (map (fun g => mkNameRow (Generated.name g)) (generated w))
                  (on_select_generated (oracle w) (trace w)) in
    (Returned r, record (EvSelectGenerated r) w).

(** Postgres' [unique_violation]. *)
Definition unique_violation : PostgrestError :=
  mkPostgrestError "duplicate key value violates unique constraint" "23505".

Definition has_name (n : string) (tbl : list Generated.t) : bool :=
  existsb (fun g => String.eqb (Generated.name g) n) tbl.

(** [db.from('generated').insert(row).select().single()]: the table is keyed
    by [name].  An error reported from outside (transport, a concurrent
    writer) leaves the table as it is; otherwise the row is appended unless
    its name is taken, which is a [unique_violation]. *)
Definition db_insert_generated (row : Generated.t) : M (option PostgrestError) :=
  fun w =>
    match on_insert (oracle w) (trace w) row with
    | Some e => (Returned (Some e), record (EvInsert row (Some e)) w)
    | None =>
        if has_name (Generated.name row) (generated w)
        then (Returned (Some unique_violation),
              record (EvInsert row (Some unique_violation)) w)
        else (Returned None, record (EvInsert row None) (store row w))
    end.

(** [fetch(`${WAVESPEED_API}/${MODEL}`, { method: 'POST', ... })] *)
Definition fetch_submit (imageUrl1 imageUrl2 apiKey : string)
  : M (FetchResponse WaveSpeedSubmitResponse) :=
  fun w =>
    let out := on_submit (oracle w) (trace w) imageUrl1 imageUrl2 apiKey in
    let w' := record (EvSubmit imageUrl1 imageUrl2 apiKey out) w in
    match out with
    | Rejects err => (Thrown err, w')
    | Resolves res => (Returned res, w')
    end.

(** [fetch(`${WAVESPEED_API}/predictions/${predictionId}/result`, ...)] *)
Definition fetch_result (predictionId apiKey : string)
  : M (FetchResponse WaveSpeedResultResponse) :=
  fun w =>
    let out := on_poll (oracle w) (trace w) predictionId apiKey in
    let w' := record (EvPoll predictionId apiKey out) w in
    match out with
    | Rejects err => (Thrown err, w')
    | Resolves res => (Returned res, w')
    end.

(** [await res.json()] *)
Definition json_of {B : Type} (res : FetchResponse B) : M B :=
  match res_json res with
  | Some b => ret b
  | None => throw "SyntaxError: Unexpected token in JSON"
  end.

(** Truthiness of a [string | undefined | null]. *)
Definition truthy (v : option string) : bool :=
  match v with
  | Some s => negb (String.eqb s "")
  | None => false
  end.

(** ** Helpers *)

(** Default parameters of [pollResult]. *)
Definition DEFAULT_MAX_ATTEMPTS : Z := 30.
Definition DEFAULT_INTERVAL_MS : Z := 3000.

(** [json.data?.id] *)
Definition data_id (json : WaveSpeedSubmitResponse) : option string :=
  match sr_data json with
  | Some d => sd_id d
  | None => None
  end.

(** [json.data?.status] *)
Definition data_status (json : WaveSpeedResultResponse) : option JobStatus :=
  match rr_data json with
  | Some d => Some (rd_status d)
  | None => None
  end.

(** [json.data?.outputs?.[0] ?? null] *)
Definition first_output (json : WaveSpeedResultResponse) : option string :=
  match rr_data json with
  | Some d =>
      match rd_outputs d with
      | Some (url :: _) => Some url
      | Some [] => None
      | None => None
      end
  | None => None
  end.

(** [json.data?.error] *)
Definition data_error (json : WaveSpeedResultResponse) : option string :=
  match rr_data json with
  | Some d => rd_error d
  | None => None
  end.

(** [submitJob(imageUrl1, imageUrl2, apiKey)]: the prediction id, or [null]. *)
Definition submitJob (imageUrl1 imageUrl2 apiKey : string) : M (option string) :=
  try_catch
    (let* res := fetch_submit imageUrl1 imageUrl2 apiKey in
     if negb (res_ok res) then
       console (LogSubmitError (res_status res) (res_text res));;
       ret None
     else
       let* json := json_of res in
       if negb (sr_code json =? 200)
          || negb (truthy (data_id json)) then
         console (LogSubmitUnexpected json);;
         ret None
       else
         ret (data_id json))
    (fun err =>
       console (LogSubmitException err);;
       ret None).

(** What one turn of the [for] loop of [pollResult] ends with. *)
Inductive LoopStep (A : Type) : Type :=
| Continue
| Return (a : A).
Arguments Continue {A}.
Arguments Return {A} _.

(** The body of the loop of [pollResult], for one value of [attempt]. *)
Definition pollAttempt (predictionId apiKey : string) (intervalMs attempt : Z)
  : M (LoopStep (option string)) :=
  sleep intervalMs;;
  try_catch
    (let* res := fetch_result predictionId apiKey in
     if negb (res_ok res) then ret Continue
     else
       let* json := json_of res in
       match data_status json with
       | Some completed =>
           ret (Return (first_output json))
       | Some failed =>
           console (LogPredictionFailed predictionId (data_error json));;
           ret (Return None)
       | _ => ret Continue
       end)
    (fun err =>
       console (LogPollException attempt err);;
       ret Continue).

(** [for (let attempt = 0; attempt < maxAttempts; attempt++)], entered with
    [remaining] turns left, then the time-out after the loop. *)
Fixpoint pollLoop (predictionId apiKey : string) (maxAttempts intervalMs : Z)
    (remaining : nat) (attempt : Z) : M (option string) :=
  match remaining with
  | O =>
      console (LogPollTimeout predictionId maxAttempts);;
      ret None
  | S remaining' =>
      let* step := pollAttempt predictionId apiKey intervalMs attempt in
      match step with
      | Return r => ret r
      | Continue =>
          pollLoop predictionId apiKey maxAttempts intervalMs
                   remaining' (attempt + 1)
      end
  end.

(** [pollResult(predictionId, apiKey, maxAttempts, intervalMs)]: the output
    URL, or [null].  Counting from 0, [attempt < maxAttempts] holds for
    [Z.to_nat maxAttempts] values of [attempt]. *)
Definition pollResult (predictionId apiKey : string) (maxAttempts intervalMs : Z)
  : M (option string) :=
  pollLoop predictionId apiKey maxAttempts intervalMs (Z.to_nat maxAttempts) 0.

(** The index pairs the two nested loops of the handler visit, in the order
    they visit them: [i] from 0, and for each [i], [j] from [i + 1]. *)
Definition indexPairs (n : nat) : list (nat * nat) :=
  i ← seq 0 n; j ← seq (S i) (n - S i); [(i, j)].

(** [nameA.localeCompare(nameB)], as the engine that runs the worker
    computes it. *)
Class Collation : Type := localeCompare : string -> string -> Z.

Section Worker.

Context {collation : Collation}.

Definition canonicalName (nameA nameB : string) : string :=
  if localeCompare nameA nameB <=? 0
  then nameA +:+ " x " +:+ nameB
  else nameB +:+ " x " +:+ nameA.

(** Step 3 of the handler: the array [missingPairs] after the loops. *)
Definition missingPairs (people : list Person.t) (existingNames : gset string)
  : list (Person.t * Person.t) :=
  '(i, j) ← indexPairs (length people);
  match people !! i, people !! j with
  | Some pi, Some pj =>
      let name := canonicalName (Person.name pi) (Person.name pj) in
      if bool_decide (name ∈ existingNames) then [] else [(pi, pj)]
  | _, _ => []
  end.

(** The callback of step 4. *)
Definition submitPair (apiKey : string) (submitted : list Job)
    (pair : Person.t * Person.t) : M (list Job) :=
  let* predictionId :=
    submitJob (Person.image pair.1) (Person.image pair.2) apiKey in
  if truthy predictionId then
    ret (submitted ++
         [mkJob pair (default "" predictionId)
                (canonicalName (Person.name pair.1) (Person.name pair.2))])
  else ret submitted.

(** Step 4, [await Promise.all(missingPairs.map(async (pair) => ...))]: the
    requests are made in array order, and [submitted] holds the jobs in the
    order in which their answers arrived. *)
Definition submitAll (apiKey : string) (missing : list (Person.t * Person.t))
  : M (list Job) :=
  let* pushed := foldM (submitPair apiKey) missing [] in
  arrive pushed.

(** The callback of step 5. *)
Definition pollAndSave (apiKey : string) (job : Job) : M string :=
  let* outputUrl :=
    pollResult (predictionId job) apiKey
               DEFAULT_MAX_ATTEMPTS DEFAULT_INTERVAL_MS in
  if negb (truthy outputUrl) then
    throw ("No output for " +:+ canonName job)
  else
    let* insertErr :=
      db_insert_generated
        (Generated.mk (canonName job) (default "" outputUrl)) in
    match insertErr with
    | Some e =>
        if negb (String.eqb (pg_code e) "23505") then throw (pg_message e)
        else console (LogSaved (canonName job));; ret (canonName job)
    | None => console (LogSaved (canonName job));; ret (canonName job)
    end.

Definition is_fulfilled {A : Type} (r : Settled A) : bool :=
  match r with fulfilled _ => true | rejected _ => false end.

Definition is_rejected {A : Type} (r : Settled A) : bool :=
  match r with fulfilled _ => false | rejected _ => true end.

Definition error_response (msg : string) : NextResponse :=
  mkNextResponse [("error", JString msg)] 500.

Definition message_response (msg : string) : NextResponse :=
  mkNextResponse [("message", JString msg)] 200.

Definition summary_response (total submitted succeeded failed : nat)
  : NextResponse :=
  mkNextResponse
    [("message", JString ("Done. Succeeded: " +:+ pretty succeeded +:+
                          ", failed: " +:+ pretty failed));
     ("total", JNumber (Z.of_nat total));
     ("submitted", JNumber (Z.of_nat submitted));
     ("succeeded", JNumber (Z.of_nat succeeded));
     ("failed", JNumber (Z.of_nat failed))]
    200.

(** ** Route handler *)

Definition POST : M NextResponse :=
  let* apiKey := getenv WAVESPEED_API_KEY in
  let* supabaseUrl := getenv NEXT_PUBLIC_SUPABASE_URL in
  let* serviceRoleKey := getenv SUPABASE_SERVICE_ROLE_KEY in
  if negb (truthy apiKey) then
    ret (error_response "WAVESPEED_API_KEY not set")
  else if negb (truthy supabaseUrl) || negb (truthy serviceRoleKey) then
    ret (error_response "Supabase env vars not set")
  else
    let apiKey := default "" apiKey in
    (* 1. Fetch all people *)
    let* peopleRes := db_select_people in
    match sel_error peopleRes, sel_data peopleRes with
    | Some peopleErr, _ => ret (error_response (pg_message peopleErr))
    | None, None => ret (message_response "Not enough people yet")
    | None, Some people =>
        if (length people <? 2)%nat then
          ret (message_response "Not enough people yet")
        else
          (* 2. Fetch existing generated combinations *)
          let* genRes := db_select_generated in
          match sel_error genRes with
          | Some genErr => ret (error_response (pg_message genErr))
          | None =>
              let existingNames : gset string :=
                list_to_set (map row_name (default [] (sel_data genRes))) in
              (* 3. Determine which pairs are missing *)
              let missing := missingPairs people existingNames in
              if (length missing =? 0)%nat then
                ret (message_response "All combinations already generated")
              else
                console (LogGenerating (Z.of_nat (length missing)));;
                (* 4. Submit all jobs *)
                let* submitted := submitAll apiKey missing in
                (* 5. Poll all jobs and save results *)
                let* results :=
                  mapM (fun job => settle (pollAndSave apiKey job))
                       submitted in
                let succeeded := length (filter is_fulfilled results) in
                let failed := length (filter is_rejected results) in
                ret (summary_response (length missing) (length submitted)
                                      succeeded failed)
          end
    end.

(** [export async function GET() { return POST() }] *)
Definition GET : M NextResponse := POST.

End Worker.

(** ** A concrete collation, to run the worker on examples

    ECMA-262 asks of [localeCompare] that it be a consistent comparator on
    all strings and that it return 0 on canonically equivalent strings, also
    when they are distinguishable.  [canonicalCompare] is such a comparator
    for the fragment of Unicode the examples use: it compares code points
    after canonical decomposition, and knows one precomposed letter,
    U+00E9 (bytes C3 A9), which decomposes to U+0065 U+0301 (65 CC 81). *)

Definition byte (n : nat) : Ascii.ascii := Ascii.ascii_of_nat n.

Fixpoint decompose (s : string) : string :=
  match s with
  | EmptyString => EmptyString
  | String a s' =>
      match s' with
      | String b rest =>
          if Ascii.eqb a (byte 195) && Ascii.eqb b (byte 169)
          then String (byte 101) (String (byte 204) (String (byte 129)
                 (decompose rest)))
          else String a (decompose s')
      | EmptyString => String a EmptyString
      end
  end.

Definition canonicalCompare (a b : string) : Z :=
  match String.compare (decompose a) (decompose b) with
  | Lt => -1
  | Eq => 0
  | Gt => 1
  end.

(** "é" precomposed (NFC) and decomposed (NFD). *)
Definition e_acute_nfc : string := String (byte 195) (String (byte 169) "").
Definition e_acute_nfd : string :=
  String (byte 101) (String (byte 204) (String (byte 129) "")).


(** * The lobby: [Lobby] and [Register]

    The first half of the file: the component a player sees, its check for
    an existing registration ([fetchParticipant]) and the submit handler of
    the registration form ([onFormSubmit]), which uploads the photo, saves
    the person, registers the participant and triggers the worker above.

    A component's state and the services it talks to are a [Page]; an
    event handler is a computation in the state monad [UI].  No call in
    these handlers is guarded by [try], and the clients of the store and of
    the storage report failures in their result, so [UI] has no
    exceptions. *)

(** [Participant], declared in '@/types/types': the columns this file
    reads or filters on. *)
Module Participant.
Record t : Type := mk { nickname : string; game_id : string; user_id : string }.
End Participant.

(** The [File] chosen in the form: [name] and [type]. *)
Record File : Type := mkFile { file_name : string; file_type : string }.

(** [{ data: { path }, error }] of [storage.upload]. *)
Inductive UploadOutcome : Type :=
| Uploaded (path : string)
| UploadFails (message : string).

(** [{ data: { user }, error }] of [auth.signInAnonymously]. *)
Record SignInResult : Type := mkSignInResult {
  signin_user_id : option string;
  signin_error : option string
}.

(** What the page does that can be seen from outside, with the answer it
    got. *)
Inductive UiEvent : Type :=
| UiPreventDefault
| UiAlert (msg : string)
| UiConsoleError (err : string)
| UiGetSession (session_user_id : option string)
| UiSignIn (res : SignInResult)
| UiQueryParticipant (gameId userId : string)
                     (res : PostgrestError + option Participant.t)
| UiUpload (fileName : string) (file : File) (out : UploadOutcome)
| UiInsertPerson (name image : string) (err : option PostgrestError)
| UiInsertParticipant (nickname gameId : string)
                      (res : PostgrestError + Participant.t)
| UiTrigger (resolved : bool)
| UiRegistered (p : Participant.t).

(** The services behind the page; as for the worker, an answer may depend
    on the history (newest event first) and on the request.
    [random_token] is [Math.random().toString(36).slice(2)] and
    [public_url] is [getPublicUrl(path).data.publicUrl], which the client
    computes from the path alone. *)
Record Backend : Type := mkBackend {
  date_now : list UiEvent -> Z;
  random_token : list UiEvent -> string;
  public_url : string -> string;
  on_get_session : list UiEvent -> option string;
  on_sign_in : list UiEvent -> SignInResult;
  on_query_participant : list UiEvent -> string -> string ->
                         PostgrestError + option Participant.t;
  on_upload : list UiEvent -> string -> File -> UploadOutcome;
  on_insert_person : list UiEvent -> string -> string -> option PostgrestError;
  on_insert_participant : list UiEvent -> string -> string ->
                          PostgrestError + Participant.t;
  on_trigger : list UiEvent -> bool
}.

(** The state of [Lobby] ([participant]) and of [Register] ([sending]),
    the services and the history. *)
Record Page : Type := mkPage {
  participant : option Participant.t;
  sending : bool;
  backend : Backend;
  history : list UiEvent
}.

Definition UI (A : Type) : Type := Page -> A * Page.

Definition ui_ret {A : Type} (a : A) : UI A := fun pg => (a, pg).

Definition ui_bind {A B : Type} (m : UI A) (k : A -> UI B) : UI B :=
  fun pg => let (a, pg') := m pg in k a pg'.

Notation "'let+' x ':=' m 'in' k" := (ui_bind m (fun x => k))
  (at level 10, x name, m at level 100, k at level 200).
Notation "m ';+' k" := (ui_bind m (fun _ => k))
  (at level 100, k at level 200, right associativity).

Definition ui_record (ev : UiEvent) (pg : Page) : Page :=
  {| participant := participant pg; sending := sending pg;
     backend := backend pg; history := ev :: history pg |}.

Definition emit (ev : UiEvent) : UI unit := fun pg => (tt, ui_record ev pg).

(** Ask the services, with the history so far, and note the answer. *)
Definition ask {A : Type} (answer : Backend -> list UiEvent -> A)
    (ev : A -> UiEvent) : UI A :=
  fun pg =>
    let a := answer (backend pg) (history pg) in (a, ui_record (ev a) pg).

(** Read a value of the environment without leaving a mark. *)
Definition peek {A : Type} (answer : Backend -> list UiEvent -> A) : UI A :=
  fun pg => (answer (backend pg) (history pg), pg).

Definition setSending (b : bool) : UI unit :=
  fun pg => (tt, {| participant := participant pg; sending := b;
                    backend := backend pg; history := history pg |}).

Definition setParticipant (p : Participant.t) : UI unit :=
  fun pg => (tt, {| participant := Some p; sending := sending pg;
                    backend := backend pg; history := history pg |}).

Definition alert (msg : string) : UI unit := emit (UiAlert msg).

(** [s.split(sep)] for a separator of one character. *)
Fixpoint split_on (sep : Ascii.ascii) (s : string) : list string :=
  match s with
  | EmptyString => [EmptyString]
  | String c s' =>
      if Ascii.eqb c sep then EmptyString :: split_on sep s'
      else match split_on sep s' with
           | seg :: segs => String c seg :: segs
           | [] => [String c EmptyString]
           end
  end.

(** The character ['.'] (U+002E). *)
Definition dot : Ascii.ascii := Ascii.ascii_of_nat 46.

(** [imageFile.name.split('.').pop() ?? 'jpg'] *)
Definition extension (name : string) : string :=
  default "jpg" (last (split_on dot name)).

(** [`${Date.now()}-${Math.random().toString(36).slice(2)}.${ext}`] *)
Definition upload_name (now : Z) (token ext : string) : string :=
  pretty now +:+ "-" +:+ token +:+ "." +:+ ext.

(** [String.prototype.trim], as the engine computes it. *)
Class Trim : Type := trim : string -> string.

Section Lobby.

Context {trimmer : Trim}.

(** [fetchParticipant], the effect [Lobby] runs when it mounts;
    [onRegisterCompleted] is the prop of [Lobby]. *)
Definition fetchParticipant (gameId : string)
    (onRegisterCompleted : Participant.t -> UI unit) : UI unit :=
  let+ session := ask on_get_session UiGetSession in
  let+ userId :=
    match session with
    | Some id => ui_ret (Some id)
    | None =>
        let+ res := ask on_sign_in UiSignIn in
        match signin_error res with
        | Some err => emit (UiConsoleError err)
        | None => ui_ret tt
        end;+
        ui_ret (signin_user_id res)
    end in
  if negb (truthy userId) then ui_ret tt
  else
    let+ res := ask (fun b h => on_query_participant b h gameId
                                  (default "" userId))
                    (UiQueryParticipant gameId (default "" userId)) in
    match res with
    | inl error => alert (pg_message error)
    | inr None => ui_ret tt
    | inr (Some participantData) =>
        setParticipant participantData;+
        onRegisterCompleted participantData
    end.

(** [onFormSubmit] of [Register], at the values [nickname] and [imageFile]
    of the form; [onRegisterCompleted] is the prop of [Register]. *)
Definition onFormSubmit (nickname : string) (imageFile : option File)
    (gameId : string) (onRegisterCompleted : Participant.t -> UI unit)
  : UI unit :=
  emit UiPreventDefault;+
  setSending true;+
  if String.eqb (trim nickname) "" then
    setSending false;+
    alert "Please enter a nickname"
  else
    match imageFile with
    | None =>
        setSending false;+
        alert "Please upload a photo of yourself"
    | Some imageFile =>
        (* Upload image to Supabase Storage *)
        let ext := extension (file_name imageFile) in
        let+ now := peek date_now in
        let+ token := peek random_token in
        let fileName := upload_name now token ext in
        let+ upload := ask (fun b h => on_upload b h fileName imageFile)
                           (UiUpload fileName imageFile) in
        match upload with
        | UploadFails message =>
            setSending false;+
            alert ("Image upload failed: " +:+ message)
        | Uploaded path =>
            let+ publicUrl := peek (fun b _ => public_url b path) in
            (* Save to people table *)
            let+ peopleError :=
              ask (fun b h => on_insert_person b h (trim nickname) publicUrl)
                  (UiInsertPerson (trim nickname) publicUrl) in
            (* Register as a game participant, trigger the worker *)
            let proceed : UI unit :=
              let+ res :=
                ask (fun b h => on_insert_participant b h (trim nickname)
                                  gameId)
                    (UiInsertParticipant (trim nickname) gameId) in
              match res with
              | inl error =>
                  setSending false;+
                  alert (pg_message error)
              | inr participant =>
                  ask on_trigger UiTrigger;+
                  onRegisterCompleted participant
              end in
            match peopleError with
            | Some e =>
                (* Ignore unique-constraint violations *)
                if negb (String.eqb (pg_code e) "23505") then
                  setSending false;+
                  alert ("Failed to save profile: " +:+ pg_message e)
                else proceed
            | None => proceed
            end
        end
    end.

(** The prop [Lobby] hands to [Register]:
    [(participant) => { onRegisterCompleted(participant);
                        setParticipant(participant) }]. *)
Definition registerCompleted (onRegisterCompleted : Participant.t -> UI unit)
    (p : Participant.t) : UI unit :=
  onRegisterCompleted p;+
  setParticipant p.

(** What [Lobby] renders: the form while there is no participant, the
    welcome with the nickname afterwards. *)
Inductive View : Type :=
| RegisterForm
| Welcome (nickname : string).

Definition render (pg : Page) : View :=
  match participant pg with
  | None => RegisterForm
  | Some p => Welcome (Participant.nickname p)
  end.

End Lobby.

(** A trimming for the examples: the ASCII white space (TAB, LF, VT, FF,
    CR, SP) is removed at both ends. *)
Definition is_space (c : Ascii.ascii) : bool :=
  let n := Ascii.nat_of_ascii c in
  ((9 <=? n)%nat && (n <=? 13)%nat) || (n =? 32)%nat.

Fixpoint trim_start (s : string) : string :=
  match s with
  | String c s' => if is_space c then trim_start s' else s
  | EmptyString => EmptyString
  end.

Fixpoint trim_end (s : string) : string :=
  match s with
  | String c s' =>
      match trim_end s' with
      | EmptyString => if is_space c then EmptyString else String c EmptyString
      | rest => String c rest
      end
  | EmptyString => EmptyString
  end.

Definition ascii_trim (s : string) : string := trim_end (trim_start s).
(** * Vocabulary of the properties *)

#[global] Instance Person_inhabited : Inhabited Person.t :=
  populate (Person.mk "" "" "").

(** ** Pair enumeration *)

(** Lexicographic order on index pairs. *)
Definition index_lt (p q : nat * nat) : Prop :=
  (p.1 < q.1 ∨ (p.1 = q.1 ∧ p.2 < q.2))%nat.

(** The loops started at [i = a] with [n] values of [i] left. *)
Definition pairsFrom (a n : nat) : list (nat * nat) :=
  i ← seq a n; j ← seq (S i) (a + n - S i); [(i, j)].

Section PairVocabulary.

Context {collation : Collation}.

(** The two people at an index pair, and the label of that pair. *)
Definition personPair (people : list Person.t) (ij : nat * nat)
  : Person.t * Person.t :=
  (people !!! ij.1, people !!! ij.2).

Definition pairLabel (people : list Person.t) (ij : nat * nat) : string :=
  canonicalName (Person.name (people !!! ij.1))
                (Person.name (people !!! ij.2)).

End PairVocabulary.

(** What ECMA-262 calls a consistent comparator, on the sign of the result:
    a total preorder. *)
Definition consistent_comparator (cmp : string → string → Z) : Prop :=
  (∀ a, cmp a a = 0) ∧
  (∀ a b, cmp a b < 0 ↔ 0 < cmp b a) ∧
  (∀ a b c, cmp a b <= 0 → cmp b c <= 0 → cmp a c <= 0).

(** ** Traces

    A trace is newest event first; so is every list extracted from one. *)

(** The rows written by the inserts that succeeded, oldest first: what a
    stretch of trace adds to the [generated] table. *)
Fixpoint stored (evs : list Event) : list Generated.t :=
  match evs with
  | [] => []
  | EvInsert row None :: evs' => stored evs' ++ [row]
  | _ :: evs' => stored evs'
  end.

(** The submission requests, each with the images sent and its outcome. *)
Definition submits (evs : list Event)
  : list (string * string * FetchOutcome WaveSpeedSubmitResponse) :=
  omap (λ ev, match ev with
              | EvSubmit image1 image2 _ out => Some (image1, image2, out)
              | _ => None
              end) evs.

(** The status checks, each with its outcome. *)
Definition polls (evs : list Event)
  : list (FetchOutcome WaveSpeedResultResponse) :=
  omap (λ ev, match ev with
              | EvPoll _ _ out => Some out
              | _ => None
              end) evs.

(** The insert attempts, each with the row and the error it got. *)
Definition inserts (evs : list Event)
  : list (Generated.t * option PostgrestError) :=
  omap (λ ev, match ev with
              | EvInsert row err => Some (row, err)
              | _ => None
              end) evs.

(** The errors of the bulk reads. *)
Definition read_errors (evs : list Event) : list PostgrestError :=
  omap (λ ev, match ev with
              | EvSelectPeople r => sel_error r
              | EvSelectGenerated r => sel_error r
              | _ => None
              end) evs.

(** [run w w' evs]: a computation started in [w] ended in [w'] after the
    effects [evs]; it touched neither the environment, nor the [people]
    table, nor the outside services, and the [generated] table grew by the
    rows its successful inserts wrote. *)
Record run (w w' : World) (evs : list Event) : Prop := mkRun {
  run_env : env w' = env w;
  run_people : people w' = people w;
  run_oracle : oracle w' = oracle w;
  run_trace : trace w' = evs ++ trace w;
  run_generated : generated w' = generated w ++ stored evs
}.

(** ** What a request observes *)

(** The [data] a status check got to see: the request resolved with an ok
    status and a body that parses and carries [data]. *)
Definition observed (out : FetchOutcome WaveSpeedResultResponse)
  : option ResultData :=
  match out with
  | Rejects _ => None
  | Resolves res =>
      if res_ok res then
        match res_json res with
        | Some json => rr_data json
        | None => None
        end
      else None
  end.

(** A status check that does not end the polling: a transient error, or a
    status that is neither [completed] nor [failed]. *)
Definition nonterminal (out : FetchOutcome WaveSpeedResultResponse) : Prop :=
  match observed out with
  | Some d => rd_status d = queued ∨ rd_status d = processing
  | None => True
  end.

(** A submission that was acknowledged with the job identifier [id]. *)
Definition acknowledged (out : FetchOutcome WaveSpeedSubmitResponse)
    (id : string) : Prop :=
  ∃ res json d,
    out = Resolves res ∧ res_ok res = true ∧ res_json res = Some json ∧
    sr_code json = 200 ∧ sr_data json = Some d ∧ sd_id d = Some id ∧ id ≠ "".

(** Present configuration: the three variables are set and not empty. *)
Definition configured (e : Env) : Prop :=
  truthy (WAVESPEED_API_KEY e) = true ∧
  truthy (NEXT_PUBLIC_SUPABASE_URL e) = true ∧
  truthy (SUPABASE_SERVICE_ROLE_KEY e) = true.

(** A field of a JSON body. *)
Fixpoint assoc (key : string) (fields : list (string * JsonValue))
  : option JsonValue :=
  match fields with
  | [] => None
  | (k, v) :: fields' => if String.eqb k key then Some v else assoc key fields'
  end.

Definition field (key : string) (r : NextResponse) : option JsonValue :=
  assoc key (body r).

(** The pauses between status checks. *)
Definition sleeps (evs : list Event) : list Z :=
  omap (λ ev, match ev with
              | EvSleep ms => Some ms
              | _ => None
              end) evs.

(** [json.data?.outputs?.[0] ?? null] on the observed [data]. *)
Definition output_of (d : ResultData) : option string :=
  match rd_outputs d with
  | Some (url :: _) => Some url
  | _ => None
  end.

(** How the status checks [ps] of one job (the last one first), made with a
    budget of [budget] checks, decide the result [r] of the polling:
    - every check before the last one was not terminal;
    - a last check that saw [completed] gives the first output, and no
      result if there is none;
    - a last check that saw [failed] gives no result;
    - otherwise the budget is used up and there is no result. *)
Definition polling_outcome (budget : nat)
    (ps : list (FetchOutcome WaveSpeedResultResponse))
    (r : option string) : Prop :=
  match ps with
  | [] => budget = 0%nat ∧ r = None
  | last :: earlier =>
      Forall nonterminal earlier ∧
      match observed last with
      | Some d =>
          match rd_status d with
          | completed => r = output_of d
          | failed => r = None
          | _ => length ps = budget ∧ r = None
          end
      | None => length ps = budget ∧ r = None
      end
  end.

(** The images a submission request carries. *)
Definition request_images
    (s : string * string * FetchOutcome WaveSpeedSubmitResponse)
  : string * string :=
  (s.1.1, s.1.2).

Definition pair_images (p : Person.t * Person.t) : string * string :=
  (Person.image p.1, Person.image p.2).

(** A submission that cannot be acknowledged: the request threw, the HTTP
    status was not a success, the body did not parse, its [code] was not
    200, or it carried no job identifier. *)
Definition refused (out : FetchOutcome WaveSpeedSubmitResponse) : Prop :=
  (∃ err, out = Rejects err) ∨
  (∃ res, out = Resolves res ∧
     (res_ok res = false ∨ res_json res = None ∨
      ∃ json, res_json res = Some json ∧
        (sr_code json ≠ 200 ∨ data_id json = None ∨ data_id json = Some ""))).

(** The names a read of [generated] hands to the handler:
    [new Set((existingGenerated ?? []).map((g) => g.name))]. *)
Definition names_read (g : SelectResult NameRow) : gset string :=
  list_to_set (map row_name (default [] (sel_data g))).

(** The names in the [generated] table. *)
Definition names_of (tbl : list Generated.t) : list string :=
  Generated.name <$> tbl.

(** The result of reading a table with rows [rows]: the rows, or nothing. *)
Definition read_of {A : Type} (rows : list A) (r : SelectResult A) : Prop :=
  sel_error r = None ∧ (sel_data r = Some rows ∨ sel_data r = None).

(** Every bulk read returned rows. *)
Definition reads_succeeded (evs : list Event) : Prop :=
  ∀ ev, ev ∈ evs →
    match ev with
    | EvSelectPeople r => sel_data r ≠ None
    | EvSelectGenerated r => sel_data r ≠ None
    | _ => True
    end.

(** No error comes from outside the table with the code of a unique
    violation: the table of the world is the whole table, there is no
    concurrent writer. *)
Definition sole_writer (o : Oracle) : Prop :=
  ∀ history row e, on_insert o history row = Some e → pg_code e ≠ "23505".

Section HandlerVocabulary.

Context {collation : Collation}.

(** The ways an invocation of [POST] in the world [w] can end: the
    response, and the effects performed (newest first). *)
Inductive POST_outcome (w : World) : NextResponse → list Event → Prop :=
| post_no_api_key :
    truthy (WAVESPEED_API_KEY (env w)) = false →
    POST_outcome w (error_response "WAVESPEED_API_KEY not set") []
| post_no_store_credentials :
    truthy (WAVESPEED_API_KEY (env w)) = true →
    truthy (NEXT_PUBLIC_SUPABASE_URL (env w)) = false ∨
    truthy (SUPABASE_SERVICE_ROLE_KEY (env w)) = false →
    POST_outcome w (error_response "Supabase env vars not set") []
| post_people_read_failed (e : PostgrestError) :
    configured (env w) →
    POST_outcome w (error_response (pg_message e))
      [EvSelectPeople (mkSelectResult None (Some e))]
| post_not_enough_people (p : SelectResult Person.t) :
    configured (env w) →
    read_of (people w) p →
    (sel_data p = None ∨ length (people w) < 2)%nat →
    POST_outcome w (message_response "Not enough people yet")
      [EvSelectPeople p]
| post_generated_read_failed (e : PostgrestError) :
    configured (env w) →
    (2 ≤ length (people w))%nat →
    POST_outcome w (error_response (pg_message e))
      [EvSelectGenerated (mkSelectResult None (Some e));
       EvSelectPeople (mkSelectResult (Some (people w)) None)]
| post_all_generated (g : SelectResult NameRow) :
    configured (env w) →
    (2 ≤ length (people w))%nat →
    read_of (mkNameRow <$> names_of (generated w)) g →
    missingPairs (people w) (names_read g) = [] →
    POST_outcome w (message_response "All combinations already generated")
      [EvSelectGenerated g;
       EvSelectPeople (mkSelectResult (Some (people w)) None)]
| post_summary (g : SelectResult NameRow) (submitted : list Job)
      (results : list (Settled string)) (evs_submit evs_poll : list Event) :
    configured (env w) →
    (2 ≤ length (people w))%nat →
    read_of (mkNameRow <$> names_of (generated w)) g →
    missingPairs (people w) (names_read g) ≠ [] →
    request_images <$> submits evs_submit =
      rev (pair_images <$> missingPairs (people w) (names_read g)) →
    inserts evs_submit = [] →
    read_errors evs_submit = [] →
    pair <$> submitted ⊆+ missingPairs (people w) (names_read g) →
    Forall (λ job, canonName job =
                     canonicalName (Person.name (pair job).1)
                                   (Person.name (pair job).2)) submitted →
    length results = length submitted →
    submits evs_poll = [] →
    read_errors evs_poll = [] →
    Forall (λ i, Generated.name i.1 ∈ canonName <$> submitted)
           (inserts evs_poll) →
    (sole_writer (oracle w) →
     Forall2 (λ job r, is_fulfilled r →
                canonName job ∈ names_of (generated w ++ stored evs_poll))
             submitted results) →
    POST_outcome w
      (summary_response
         (length (missingPairs (people w) (names_read g)))
         (length submitted)
         (length (filter is_fulfilled results))
         (length (filter is_rejected results)))
      (evs_poll ++ evs_submit ++
       [EvLog (LogGenerating
                 (Z.of_nat (length (missingPairs (people w) (names_read g)))));
        EvSelectGenerated g;
        EvSelectPeople (mkSelectResult (Some (people w)) None)]).

End HandlerVocabulary.

Section ClaimVocabulary.

Context {collation : Collation}.

(** Every pair of people the loops of step 3 visit has its label in the
    [generated] table. *)
Definition all_generated (w : World) : Prop :=
  ∀ ij, ij ∈ indexPairs (length (people w)) →
        pairLabel (people w) ij ∈ names_of (generated w).

(** A response that reports no pair left behind: an early exit with status
    200, or a summary with [failed = 0] and [submitted = total]. *)
Definition nothing_failed (r : NextResponse) : Prop :=
  status r = 200 ∧
  (field "failed" r = None ∨
   (field "failed" r = Some (JNumber 0) ∧
    field "submitted" r = field "total" r)).

(** [w] is the world a run of the worker left, every read of which returned
    rows, in which nothing failed and nobody else wrote to the table. *)
Definition after_complete_run (w : World) : Prop :=
  ∃ w0 r0 evs0,
    POST w0 = (Returned r0, w) ∧ trace w = evs0 ++ trace w0 ∧
    reads_succeeded evs0 ∧ sole_writer (oracle w0) ∧ nothing_failed r0.

(** The label of two people of [l] is the same whichever of them is named
    first. *)
Definition order_free_labels (l : list Person.t) : Prop :=
  ∀ p q, p ∈ l → q ∈ l →
    canonicalName (Person.name p) (Person.name q)
    = canonicalName (Person.name q) (Person.name p).

(** An invocation in [w] comes after a run in which nothing failed: the
    table has the names that run left, and the store returns the people of
    that run, either in the order in which that run read them or, when
    their labels are order-free, in any order. *)
Definition later_than_complete_run (w : World) : Prop :=
  ∃ w1,
    after_complete_run w1 ∧
    names_of (generated w1) ⊆ names_of (generated w) ∧
    (people w = people w1 ∨
     (people w ≡ₚ people w1 ∧ order_free_labels (people w1))).

End ClaimVocabulary.

(** * Example worlds *)

Definition alice : Person.t := Person.mk "p1" "Alice" "https://img/alice.png".
Definition bob : Person.t := Person.mk "p2" "Bob" "https://img/bob.png".
Definition carol : Person.t := Person.mk "p3" "Carol" "https://img/carol.png".

(** Two people registered under the same name, and a third one. *)
Definition sam1 : Person.t := Person.mk "p4" "Sam" "https://img/sam-1.png".
Definition sam2 : Person.t := Person.mk "p5" "Sam" "https://img/sam-2.png".
Definition alex : Person.t := Person.mk "p6" "Alex" "https://img/alex.png".

Definition env_ok : Env := mkEnv (Some "ws-key") (Some "https://db") (Some "role").
Definition env_no_key : Env := mkEnv None (Some "https://db") (Some "role").

(** A submission acknowledged with the job identifier [id]. *)
Definition submit_ack (id : string) : FetchOutcome WaveSpeedSubmitResponse :=
  Resolves (mkFetchResponse true 200 ""
    (Some (mkSubmitResponse 200 None (Some (mkSubmitData (Some id) "created"))))).

(** A status check that sees the job [id] in the state [st]. *)
Definition poll_sees (id : string) (st : JobStatus)
    (outputs : option (list string)) : FetchOutcome WaveSpeedResultResponse :=
  Resolves (mkFetchResponse true 200 ""
    (Some (mkResultResponse 200 (Some (mkResultData id st outputs None))))).

(** Services that always work: a job is named after its two images and is
    completed at the first status check; the answers arrive in the order of
    the requests. *)
Definition services_ok : Oracle :=
  mkOracle (λ _, ReadRows) (λ _, ReadRows) (λ _ _, None)
    (λ _ image1 image2 _, submit_ack (image1 +:+ "+" +:+ image2))
    (λ _ id _, poll_sees id completed (Some ["https://out/" +:+ id]))
    (λ _, []).

(** Did an earlier status check in this history see a failed job? *)
Definition failed_before (history : list Event) : bool :=
  existsb (λ ev, match ev with
                 | EvLog (LogPredictionFailed _ _) => true
                 | _ => false
                 end) history.

(** Services whose first job fails and whose later jobs complete. *)
Definition services_flaky : Oracle :=
  mkOracle (λ _, ReadRows) (λ _, ReadRows) (λ _ _, None)
    (λ _ image1 image2 _, submit_ack (image1 +:+ "+" +:+ image2))
    (λ history id _,
       if failed_before history
       then poll_sees id completed (Some ["https://out/" +:+ id])
       else poll_sees id failed None)
    (λ _, []).

(** A store that answers every insert with the given error. *)
Definition services_insert_error (e : PostgrestError) : Oracle :=
  mkOracle (λ _, ReadRows) (λ _, ReadRows) (λ _ _, Some e)
    (λ _ image1 image2 _, submit_ack (image1 +:+ "+" +:+ image2))
    (λ _ id _, poll_sees id completed (Some ["https://out/" +:+ id]))
    (λ _, []).

Definition world_three : World :=
  mkWorld env_ok [alice; bob; carol]
          [Generated.mk "Alice x Carol" "https://out/old"] services_ok [].

Definition world_one : World :=
  mkWorld env_ok [alice] [] services_ok [].

Definition world_one_no_key : World :=
  mkWorld env_no_key [alice] [] services_ok [].

Definition world_done : World :=
  mkWorld env_ok [alice; bob]
          [Generated.mk "Alice x Bob" "https://out/old"] services_ok [].

Definition world_done_no_key : World :=
  mkWorld env_no_key [alice; bob]
          [Generated.mk "Alice x Bob" "https://out/old"] services_ok [].

Definition world_flaky : World :=
  mkWorld env_ok [alice; bob] [] services_flaky [].

Definition world_twins : World :=
  mkWorld env_ok [sam1; sam2; alex] [] services_ok [].

Definition world_conflict : World :=
  mkWorld env_ok [alice; bob] []
          (services_insert_error (mkPostgrestError "duplicate key" "23505")) [].

Definition world_store_down : World :=
  mkWorld env_ok [alice; bob] []
          (services_insert_error (mkPostgrestError "statement timeout" "57014"))
          [].

(** Services whose jobs never leave the state [processing]. *)
Definition services_stuck : Oracle :=
  mkOracle (λ _, ReadRows) (λ _, ReadRows) (λ _ _, None)
    (λ _ image1 image2 _, submit_ack (image1 +:+ "+" +:+ image2))
    (λ _ id _, poll_sees id processing None)
    (λ _, []).

Definition world_stuck : World :=
  mkWorld env_ok [alice; bob] [] services_stuck [].

(** Two people whose names are the two spellings of one letter. *)
Definition zoe_nfc : Person.t := Person.mk "p7" e_acute_nfc "https://img/7.png".
Definition zoe_nfd : Person.t := Person.mk "p8" e_acute_nfd "https://img/8.png".

Definition world_spellings : World :=
  mkWorld env_ok [zoe_nfc; zoe_nfd] [] services_ok [].

(** The same store after a run, read with the two rows in the other order. *)
Definition world_spellings_swapped (tbl : list Generated.t) : World :=
  mkWorld env_ok [zoe_nfd; zoe_nfc] tbl services_ok [].

(** The people of [world_three], returned by the store in another order,
    with the table [tbl]. *)
Definition world_three_reread (tbl : list Generated.t) : World :=
  mkWorld env_ok [carol; alice; bob] tbl services_ok [].

(** Services that always work, and answer the second of three requests made
    together last. *)
Definition services_late : Oracle :=
  mkOracle (λ _, ReadRows) (λ _, ReadRows) (λ _ _, None)
    (λ _ image1 image2 _, submit_ack (image1 +:+ "+" +:+ image2))
    (λ _ id _, poll_sees id completed (Some ["https://out/" +:+ id]))
    (λ _, [0; 1]%nat).

Definition world_twins_late : World :=
  mkWorld env_ok [sam1; sam2; alex] [] services_late [].

(** * Vocabulary of the further properties *)

(** ** Worker *)

(** The log entries, newest first. *)
Definition logs (evs : list Event) : list LogEntry :=
  omap (λ ev, match ev with
              | EvLog entry => Some entry
              | _ => None
              end) evs.

(** An insert attempt that makes its job succeed: the row was written, or
    the store answered with the code of a unique violation. *)
Definition accepted (i : Generated.t * option PostgrestError) : bool :=
  match i.2 with
  | None => true
  | Some e => String.eqb (pg_code e) "23505"
  end.

(** What a log entry of [submitJob] says about the outcome of the request. *)
Definition describes (entry : LogEntry)
    (out : FetchOutcome WaveSpeedSubmitResponse) : Prop :=
  match entry with
  | LogSubmitError st text =>
      ∃ res, out = Resolves res ∧ res_ok res = false ∧
             st = res_status res ∧ text = res_text res
  | LogSubmitUnexpected json =>
      ∃ res, out = Resolves res ∧ res_ok res = true ∧
             res_json res = Some json ∧
             (sr_code json ≠ 200 ∨ truthy (data_id json) = false)
  | LogSubmitException err =>
      out = Rejects err ∨
      ∃ res, out = Resolves res ∧ res_ok res = true ∧ res_json res = None
  | _ => False
  end.

(** The last event of a polling, read off its status checks [ps] (the last
    one first): nothing after a check that saw [completed], the remote
    error after one that saw [failed], the time-out otherwise. *)
Definition polling_epilogue (predictionId apiKey : string) (maxAttempts : Z)
    (ps : list (FetchOutcome WaveSpeedResultResponse)) : Event :=
  match ps with
  | [] => EvLog (LogPollTimeout predictionId maxAttempts)
  | last :: _ =>
      match observed last with
      | Some d =>
          match rd_status d with
          | completed => EvPoll predictionId apiKey last
          | failed => EvLog (LogPredictionFailed predictionId (rd_error d))
          | _ => EvLog (LogPollTimeout predictionId maxAttempts)
          end
      | None => EvLog (LogPollTimeout predictionId maxAttempts)
      end
  end.

(** A status check that ends the polling: it saw [completed] or [failed]. *)
Definition terminal (out : FetchOutcome WaveSpeedResultResponse) : bool :=
  match observed out with
  | Some d =>
      match rd_status d with
      | completed | failed => true
      | _ => false
      end
  | None => false
  end.

(** What the status check number [attempt] of the job [predictionId] logs,
    by the answer it got: the exception of a request that threw or of a
    body that did not parse, the remote error of a job seen [failed],
    nothing otherwise. *)
Definition check_log (predictionId : string) (attempt : Z)
    (out : FetchOutcome WaveSpeedResultResponse) : list LogEntry :=
  match out with
  | Rejects err => [LogPollException attempt err]
  | Resolves res =>
      if res_ok res then
        match res_json res with
        | None =>
            [LogPollException attempt "SyntaxError: Unexpected token in JSON"]
        | Some json =>
            match rr_data json with
            | Some d =>
                match rd_status d with
                | failed => [LogPredictionFailed predictionId (rd_error d)]
                | _ => []
                end
            | None => []
            end
        end
      else []
  end.

(** The entries of the status checks [ps] (the last one first), the oldest
    of which has the number [first]. *)
Fixpoint check_logs (predictionId : string) (first : Z)
    (ps : list (FetchOutcome WaveSpeedResultResponse)) : list LogEntry :=
  match ps with
  | [] => []
  | out :: earlier =>
      check_log predictionId (first + Z.of_nat (length earlier)) out
      ++ check_logs predictionId first earlier
  end.

(** The entry of the time-out: there is one when no status check ended the
    polling. *)
Definition timeout_log (predictionId : string) (maxAttempts : Z)
    (ps : list (FetchOutcome WaveSpeedResultResponse)) : list LogEntry :=
  match ps with
  | last :: _ =>
      if terminal last then [] else [LogPollTimeout predictionId maxAttempts]
  | [] => [LogPollTimeout predictionId maxAttempts]
  end.

(** In [evs] (newest first) every status check comes right after a pause
    of [ms], and every pause is one of [ms] right before a status check. *)
Definition paced (ms : Z) (evs : list Event) : Prop :=
  (∀ later predictionId apiKey out earlier,
     evs = later ++ EvPoll predictionId apiKey out :: earlier →
     ∃ earlier', earlier = EvSleep ms :: earlier') ∧
  (∀ later ms' earlier,
     evs = later ++ EvSleep ms' :: earlier →
     ms' = ms ∧
     ∃ predictionId apiKey out later',
       later = later' ++ [EvPoll predictionId apiKey out]).

(** ** Lobby *)

(** The prop [onRegisterCompleted] of [Lobby] belongs to the page that
    mounts it; a call of it is noted in the history. *)
Definition notifyParent (p : Participant.t) : UI unit := emit (UiRegistered p).

Section LobbyVocabulary.

Context {trimmer : Trim}.

(** [Lobby] mounts: the effect runs [fetchParticipant]. *)
Definition mountLobby (gameId : string) : UI unit :=
  fetchParticipant gameId notifyParent.

(** The form of the [Register] that [Lobby] renders is submitted. *)
Definition submitForm (nickname : string) (imageFile : option File)
    (gameId : string) : UI unit :=
  onFormSubmit nickname imageFile gameId (registerCompleted notifyParent).

End LobbyVocabulary.

Definition alerts (evs : list UiEvent) : list string :=
  omap (λ ev, match ev with UiAlert msg => Some msg | _ => None end) evs.

Definition registrations (evs : list UiEvent) : list Participant.t :=
  omap (λ ev, match ev with UiRegistered p => Some p | _ => None end) evs.

Definition triggers (evs : list UiEvent) : list bool :=
  omap (λ ev, match ev with UiTrigger ok => Some ok | _ => None end) evs.

Definition uploads (evs : list UiEvent)
  : list (string * File * UploadOutcome) :=
  omap (λ ev, match ev with
              | UiUpload fileName file out => Some (fileName, file, out)
              | _ => None
              end) evs.

Definition person_inserts (evs : list UiEvent)
  : list (string * string * option PostgrestError) :=
  omap (λ ev, match ev with
              | UiInsertPerson name image err => Some (name, image, err)
              | _ => None
              end) evs.

Definition participant_inserts (evs : list UiEvent)
  : list (string * string * (PostgrestError + Participant.t)) :=
  omap (λ ev, match ev with
              | UiInsertParticipant nick game res => Some (nick, game, res)
              | _ => None
              end) evs.

Definition session_checks (evs : list UiEvent) : list (option string) :=
  omap (λ ev, match ev with UiGetSession s => Some s | _ => None end) evs.

(** The user id the services give to a page with the history [h]: that of
    the session, and without a session that of the anonymous sign-in that
    follows the check of the session. *)
Definition user_obtained (b : Backend) (h : list UiEvent) : option string :=
  match on_get_session b h with
  | Some id => Some id
  | None => signin_user_id (on_sign_in b (UiGetSession None :: h))
  end.

Definition sign_ins (evs : list UiEvent) : list SignInResult :=
  omap (λ ev, match ev with UiSignIn res => Some res | _ => None end) evs.

Definition participant_queries (evs : list UiEvent)
  : list (string * string * (PostgrestError + option Participant.t)) :=
  omap (λ ev, match ev with
              | UiQueryParticipant game user res => Some (game, user, res)
              | _ => None
              end) evs.

(** A string without the character ['.']. *)
Fixpoint no_dot (s : string) : Prop :=
  match s with
  | EmptyString => True
  | String c s' => c ≠ dot ∧ no_dot s'
  end.

(** An error the form ignores when it saves the person: none, or the code
    of a unique violation. *)
Definition tolerated (err : option PostgrestError) : Prop :=
  match err with
  | None => True
  | Some e => pg_code e = "23505"
  end.

Section SubmitVocabulary.

Context {trimmer : Trim}.

(** The name under which the form uploads [file] from the page [pg]. *)
Definition upload_name_of (pg : Page) (file : File) : string :=
  upload_name (date_now (backend pg) (UiPreventDefault :: history pg))
              (random_token (backend pg) (UiPreventDefault :: history pg))
              (extension (file_name file)).

(** The six ways a submission of the form on the page [pg] can go: the
    events (newest first), the flag [sending] afterwards and the
    participant registered, if any. *)
Inductive submit_outcome (nickname : string) (imageFile : option File)
    (gameId : string) (pg : Page)
  : list UiEvent → bool → option Participant.t → Prop :=
| submit_blank_nickname :
    trim nickname = "" →
    submit_outcome nickname imageFile gameId pg
      [UiAlert "Please enter a nickname"; UiPreventDefault] false None
| submit_no_photo :
    trim nickname ≠ "" → imageFile = None →
    submit_outcome nickname imageFile gameId pg
      [UiAlert "Please upload a photo of yourself"; UiPreventDefault]
      false None
| submit_upload_failed (file : File) (message : string) :
    trim nickname ≠ "" → imageFile = Some file →
    submit_outcome nickname imageFile gameId pg
      [UiAlert ("Image upload failed: " +:+ message);
       UiUpload (upload_name_of pg file) file (UploadFails message);
       UiPreventDefault]
      false None
| submit_person_failed (file : File) (path : string) (e : PostgrestError) :
    trim nickname ≠ "" → imageFile = Some file → pg_code e ≠ "23505" →
    submit_outcome nickname imageFile gameId pg
      [UiAlert ("Failed to save profile: " +:+ pg_message e);
       UiInsertPerson (trim nickname) (public_url (backend pg) path) (Some e);
       UiUpload (upload_name_of pg file) file (Uploaded path);
       UiPreventDefault]
      false None
| submit_participant_failed (file : File) (path : string)
      (err : option PostgrestError) (e : PostgrestError) :
    trim nickname ≠ "" → imageFile = Some file → tolerated err →
    submit_outcome nickname imageFile gameId pg
      [UiAlert (pg_message e);
       UiInsertParticipant (trim nickname) gameId (inl e);
       UiInsertPerson (trim nickname) (public_url (backend pg) path) err;
       UiUpload (upload_name_of pg file) file (Uploaded path);
       UiPreventDefault]
      false None
| submit_registered (file : File) (path : string)
      (err : option PostgrestError) (p : Participant.t) (resolved : bool) :
    trim nickname ≠ "" → imageFile = Some file → tolerated err →
    submit_outcome nickname imageFile gameId pg
      [UiRegistered p;
       UiTrigger resolved;
       UiInsertParticipant (trim nickname) gameId (inr p);
       UiInsertPerson (trim nickname) (public_url (backend pg) path) err;
       UiUpload (upload_name_of pg file) file (Uploaded path);
       UiPreventDefault]
      true (Some p).

End SubmitVocabulary.

(** ** Example pages *)

Definition dana : Participant.t := Participant.mk "Dana" "game-1" "user-1".

Definition photo : File := mkFile "me.at.home.png" "image/png".

(** Services that always work: the upload keeps the name it is given, the
    participant row carries what was sent. *)
Definition backend_ok : Backend :=
  mkBackend (λ _, 1700000000000) (λ _, "k3x9q")
    (λ path, "https://storage/people-photos/" +:+ path)
    (λ _, Some "user-1") (λ _, mkSignInResult (Some "user-2") None)
    (λ _ _ _, inr None)
    (λ _ fileName _, Uploaded fileName)
    (λ _ _ _, None)
    (λ _ nick game, inr (Participant.mk nick game "user-1"))
    (λ _, true).

(** The same, for somebody whose name is already in [people] and whose
    trigger request fails. *)
Definition backend_known_person : Backend :=
  mkBackend (λ _, 1700000000000) (λ _, "k3x9q")
    (λ path, "https://storage/people-photos/" +:+ path)
    (λ _, Some "user-1") (λ _, mkSignInResult (Some "user-2") None)
    (λ _ _ _, inr None)
    (λ _ fileName _, Uploaded fileName)
    (λ _ _ _, Some (mkPostgrestError "duplicate key" "23505"))
    (λ _ nick game, inr (Participant.mk nick game "user-1"))
    (λ _, false).

(** No session, anonymous sign-in works, the participant exists. *)
Definition backend_returning : Backend :=
  mkBackend (λ _, 1700000000000) (λ _, "k3x9q")
    (λ path, "https://storage/people-photos/" +:+ path)
    (λ _, None) (λ _, mkSignInResult (Some "user-1") None)
    (λ _ _ _, inr (Some dana))
    (λ _ fileName _, Uploaded fileName)
    (λ _ _ _, None)
    (λ _ nick game, inr (Participant.mk nick game "user-1"))
    (λ _, true).

Definition page_new (b : Backend) : Page := mkPage None false b [].

(** What happens when Dana, who typed her name with blanks around it,
    submits the form on a new page, newest event first. *)
Definition dana_registers : list UiEvent :=
  [UiRegistered dana;
   UiTrigger true;
   UiInsertParticipant "Dana" "game-1" (inr dana);
   UiInsertPerson "Dana"
     "https://storage/people-photos/1700000000000-k3x9q.png" None;
   UiUpload "1700000000000-k3x9q.png" photo
     (Uploaded "1700000000000-k3x9q.png");
   UiPreventDefault].

(** The same when her name is in [people] already and the trigger fails. *)
Definition dana_registers_again : list UiEvent :=
  [UiRegistered dana;
   UiTrigger false;
   UiInsertParticipant "Dana" "game-1" (inr dana);
   UiInsertPerson "Dana"
     "https://storage/people-photos/1700000000000-k3x9q.png"
     (Some (mkPostgrestError "duplicate key" "23505"));
   UiUpload "1700000000000-k3x9q.png" photo
     (Uploaded "1700000000000-k3x9q.png");
   UiPreventDefault].

(** Services whose jobs complete without any output. *)
Definition services_hollow : Oracle :=
  mkOracle (λ _, ReadRows) (λ _, ReadRows) (λ _ _, None)
    (λ _ image1 image2 _, submit_ack (image1 +:+ "+" +:+ image2))
    (λ _ id _, poll_sees id completed (Some []))
    (λ _, []).

Definition world_hollow : World :=
  mkWorld env_ok [alice; bob] [] services_hollow [].
(** * Properties *)

(** ** Pair enumeration *)

Lemma bind_singleton {A B : Type} (f : A → B) (l : list A) :
  (x ← l; [f x]) = f <$> l.
Proof. induction l as [|x l IH]; [done|]. cbn. by rewrite IH. Qed.

Lemma indexPairs_pairsFrom (n : nat) : indexPairs n = pairsFrom 0 n.
Proof. reflexivity. Qed.

Lemma pairsFrom_S (a n : nat) :
  pairsFrom a (S n) = ((a,.) <$> seq (S a) n) ++ pairsFrom (S a) n.
Proof.
  unfold pairsFrom. rewrite <- cons_seq. cbn [mbind list_bind].
  rewrite bind_singleton.
  replace (a + S n - S a)%nat with n by lia.
  f_equal. apply list_bind_ext; [|done].
  intros i. by replace (S a + n - S i)%nat with (a + S n - S i)%nat by lia.
Qed.

Lemma pairsFrom_length (a n : nat) :
  (2 * length (pairsFrom a n) = n * (n - 1))%nat.
Proof.
  revert a. induction n as [|n IH]; intros a; [done|].
  rewrite pairsFrom_S, length_app, length_fmap, length_seq.
  specialize (IH (S a)). nia.
Qed.

Lemma elem_of_pairsFrom (a n i j : nat) :
  (i, j) ∈ pairsFrom a n ↔ (a ≤ i ∧ i < j ∧ j < a + n)%nat.
Proof.
  unfold pairsFrom. rewrite list_elem_of_bind. split.
  - intros (i' & Hj & Hi). apply list_elem_of_bind in Hj as (j' & Heq & Hj).
    apply list_elem_of_singleton in Heq. injection Heq as -> ->.
    apply elem_of_seq in Hi, Hj. lia.
  - intros (Ha & Hij & Hj). exists i. split; [|apply elem_of_seq; lia].
    apply list_elem_of_bind. exists j. split; [by apply list_elem_of_singleton|].
    apply elem_of_seq. lia.
Qed.

Lemma seq_sorted (a n : nat) : StronglySorted lt (seq a n).
Proof.
  revert a. induction n as [|n IH]; intros a; [constructor|].
  cbn [seq]. constructor; [apply IH|].
  apply Forall_forall. intros y Hy. apply elem_of_seq in Hy. lia.
Qed.

Lemma pairsFrom_sorted (a n : nat) : StronglySorted index_lt (pairsFrom a n).
Proof.
  revert a. induction n as [|n IH]; intros a; [constructor|].
  rewrite pairsFrom_S. apply StronglySorted_app_2.
  - intros p [i j] Hp Hq. apply list_elem_of_fmap in Hp as (j' & -> & _).
    apply elem_of_pairsFrom in Hq. left. cbn. lia.
  - apply StronglySorted_fmap with (R1 := lt).
    + intros x y Hxy. right. cbn. lia.
    + apply seq_sorted.
  - apply IH.
Qed.

Lemma pairsFrom_NoDup (a n : nat) : NoDup (pairsFrom a n).
Proof.
  unfold pairsFrom. apply NoDup_bind.
  - intros i1 i2 [i j] _ _ H1 H2.
    apply list_elem_of_bind in H1 as (? & H1 & _).
    apply list_elem_of_bind in H2 as (? & H2 & _).
    apply list_elem_of_singleton in H1, H2. congruence.
  - intros i _. rewrite bind_singleton. apply NoDup_fmap_2; [|apply NoDup_seq].
    intros x y; congruence.
  - apply NoDup_seq.
Qed.

Section PairResolver.

Context {collation : Collation}.

Lemma canonicalName_cases (a b : string) :
  (localeCompare a b <= 0 ∧ canonicalName a b = a +:+ " x " +:+ b) ∨
  (0 < localeCompare a b ∧ canonicalName a b = b +:+ " x " +:+ a).
Proof.
  unfold canonicalName.
  destruct (Z.leb_spec (localeCompare a b) 0); [left|right]; done.
Qed.

Lemma canonicalName_self (n : string) : canonicalName n n = n +:+ " x " +:+ n.
Proof. unfold canonicalName. by destruct (_ <=? _). Qed.

(** Where the comparison tells the two names apart, or they are the same
    string, the label does not depend on the order of the arguments. *)
Lemma canonicalName_comm (a b : string) :
  (localeCompare a b < 0 ↔ 0 < localeCompare b a) →
  (localeCompare b a < 0 ↔ 0 < localeCompare a b) →
  (localeCompare a b = 0 → a = b) →
  canonicalName a b = canonicalName b a.
Proof.
  intros Hab Hba Heq.
  destruct (canonicalName_cases a b) as [[H1 ->]|[H1 ->]],
           (canonicalName_cases b a) as [[H2 ->]|[H2 ->]]; try done.
  - assert (localeCompare a b = 0) as H0 by lia. by rewrite (Heq H0).
  - lia.
Qed.

Lemma missingPairs_filter (people : list Person.t)
    (existingNames : gset string) (l : list (nat * nat)) :
  (∀ i j, (i, j) ∈ l → (i < length people ∧ j < length people)%nat) →
  ('(i, j) ← l;
   match people !! i, people !! j with
   | Some pi, Some pj =>
       if bool_decide
            (canonicalName (Person.name pi) (Person.name pj) ∈ existingNames)
       then [] else [(pi, pj)]
   | _, _ => []
   end) =
  personPair people <$>
    filter (λ ij, pairLabel people ij ∉ existingNames) l.
Proof.
  induction l as [|[i j] l IH]; intros Hl; [done|].
  cbn [mbind list_bind]. rewrite IH.
  2:{ intros i' j' H. apply Hl. by right. }
  destruct (Hl i j) as [Hi Hj]; [by left|].
  rewrite (list_lookup_lookup_total_lt people i Hi).
  rewrite (list_lookup_lookup_total_lt people j Hj).
  rewrite filter_cons. unfold pairLabel at 1. cbn [fst snd].
  case_bool_decide; case_decide; done.
Qed.

Lemma filter_complement_length {A : Type} (P : A → Prop)
    `{!∀ x, Decision (P x)} (l : list A) :
  length (filter (λ x, ¬ P x) l) = (length l - length (filter P l))%nat.
Proof.
  pose proof (filter_app_complement P l) as Hp.
  apply Permutation_length in Hp. rewrite length_app in Hp. lia.
Qed.

Lemma elem_of_indexPairs (n i j : nat) :
  (i, j) ∈ indexPairs n ↔ (i < j ∧ j < n)%nat.
Proof. rewrite indexPairs_pairsFrom, elem_of_pairsFrom. lia. Qed.

Lemma missingPairs_indexPairs (people : list Person.t)
    (existingNames : gset string) :
  missingPairs people existingNames =
    personPair people <$>
      filter (λ ij, pairLabel people ij ∉ existingNames)
             (indexPairs (length people)).
Proof.
  unfold missingPairs. apply missingPairs_filter.
  intros i j Hij. apply elem_of_indexPairs in Hij. lia.
Qed.

Lemma missingPairs_nil (people : list Person.t) (existingNames : gset string) :
  missingPairs people existingNames = [] ↔
  ∀ ij, ij ∈ indexPairs (length people) → pairLabel people ij ∈ existingNames.
Proof.
  rewrite missingPairs_indexPairs. split.
  - intros Hnil ij Hij. apply fmap_nil_inv in Hnil.
    destruct (decide (pairLabel people ij ∈ existingNames)) as [|Hn]; [done|].
    assert (ij ∈ filter (λ ij, pairLabel people ij ∉ existingNames)
                        (indexPairs (length people))) as Hin
      by by apply list_elem_of_filter.
    rewrite Hnil in Hin. by apply not_elem_of_nil in Hin.
  - intros Hall.
    destruct (filter _ _) as [|ij l] eqn:Hf; [done|].
    assert (ij ∈ filter (λ ij, pairLabel people ij ∉ existingNames)
                        (indexPairs (length people))) as Hin
      by (rewrite Hf; by left).
    apply list_elem_of_filter in Hin as [Hn Hin]. by destruct Hn; apply Hall.
Qed.

Lemma elem_of_missingPairs (people : list Person.t)
    (existingNames : gset string) (ij : nat * nat) :
  ij ∈ indexPairs (length people) → pairLabel people ij ∉ existingNames →
  personPair people ij ∈ missingPairs people existingNames.
Proof.
  intros Hij Hn. rewrite missingPairs_indexPairs.
  apply list_elem_of_fmap. exists ij. split; [done|].
  by apply list_elem_of_filter.
Qed.

(** C2.  For a list of [n] people and any set of done names, the loops of
    step 3 visit exactly the index pairs [(i, j)] with [i < j < n], each
    once, in ascending order, [n * (n - 1) / 2] of them; [missingPairs] is
    the people at the visited pairs whose label is not a done name, in
    that order, so it has [n * (n - 1) / 2] entries less the number of
    visited pairs whose label is done. *)
Theorem missingPairs_enumeration (people : list Person.t)
    (existingNames : gset string) :
  let n := length people in
  (∀ i j, (i, j) ∈ indexPairs n ↔ (i < j ∧ j < n)%nat) ∧
  NoDup (indexPairs n) ∧
  StronglySorted index_lt (indexPairs n) ∧
  length (indexPairs n) = (n * (n - 1) / 2)%nat ∧
  missingPairs people existingNames =
    personPair people <$>
      filter (λ ij, pairLabel people ij ∉ existingNames) (indexPairs n) ∧
  length (missingPairs people existingNames) =
    (n * (n - 1) / 2 -
     length (filter (λ ij, pairLabel people ij ∈ existingNames)
                    (indexPairs n)))%nat.
Proof.
intros n.
assert (length (indexPairs n) = (n * (n - 1) / 2)%nat) as Hlen.
{ pose proof (pairsFrom_length 0 n) as Hn. rewrite indexPairs_pairsFrom.
  apply Nat.div_unique_exact; lia. }
split; [apply elem_of_indexPairs|].
split; [rewrite indexPairs_pairsFrom; apply pairsFrom_NoDup|].
split; [rewrite indexPairs_pairsFrom; apply pairsFrom_sorted|].
split; [exact Hlen|].
split; [apply missingPairs_indexPairs|].
rewrite missingPairs_indexPairs, length_fmap, <- Hlen.
apply (filter_complement_length (λ ij, pairLabel people ij ∈ existingNames)).
Qed.

End PairResolver.

(** ** Effects and traces *)

Lemma stored_app (e2 e1 : list Event) :
  stored (e2 ++ e1) = stored e1 ++ stored e2.
Proof.
  induction e2 as [|ev e2 IH]; cbn; [by rewrite app_nil_r|].
  destruct ev as [| |row err| | | |]; try done.
  destruct err as [e|]; [done|]. by rewrite IH, app_assoc.
Qed.

Lemma run_refl (w : World) : run w w [].
Proof. split; cbn; by rewrite ?app_nil_r. Qed.

Lemma run_trans (w w1 w2 : World) (e1 e2 : list Event) :
  run w w1 e1 → run w1 w2 e2 → run w w2 (e2 ++ e1).
Proof.
  intros [? ? ? Ht1 Hg1] [? ? ? Ht2 Hg2]. split; try congruence.
  - by rewrite Ht2, Ht1, app_assoc.
  - by rewrite Hg2, Hg1, stored_app, app_assoc.
Qed.

Lemma run_record (ev : Event) (w : World) :
  stored [ev] = [] → run w (record ev w) [ev].
Proof. intros Hs. split; try done. rewrite Hs. cbn. by rewrite app_nil_r. Qed.

Lemma run_step (ev : Event) (w w' : World) (evs : list Event) :
  run w w' evs → stored [ev] = [] → run w (record ev w') (ev :: evs).
Proof. intros Hr Hs. apply (run_trans _ _ _ _ [ev] Hr). by apply run_record. Qed.

(** Solves [run w (record e_n (... (record e_1 w))) ?evs]. *)
Ltac solve_run :=
  repeat (eapply run_step; [|reflexivity]); apply run_refl.

Lemma run_insert (row : Generated.t) (w : World) :
  run w (record (EvInsert row None) (store row w)) [EvInsert row None].
Proof. by split. Qed.

(** ** Generation client *)

Lemma truthy_Some (v : option string) :
  truthy v = true ↔ ∃ s, v = Some s ∧ s ≠ "".
Proof.
  destruct v as [s|]; cbn.
  - rewrite negb_true_iff, String.eqb_neq. split; [eauto|].
    by intros (s' & [= ->] & ?).
  - split; [done|]. by intros (? & ? & ?).
Qed.

Lemma submitJob_run (imageUrl1 imageUrl2 apiKey : string) (w : World) :
  ∃ r w' evs,
    submitJob imageUrl1 imageUrl2 apiKey w = (Returned r, w') ∧
    run w w' evs ∧
    submits evs =
      [(imageUrl1, imageUrl2,
        on_submit (oracle w) (trace w) imageUrl1 imageUrl2 apiKey)] ∧
    stored evs = [] ∧ inserts evs = [] ∧ polls evs = [] ∧
    read_errors evs = [] ∧
    (∀ id, r = Some id ↔
           acknowledged
             (on_submit (oracle w) (trace w) imageUrl1 imageUrl2 apiKey) id).
Proof.
  unfold submitJob, try_catch, bind, fetch_submit, acknowledged.
  destruct (on_submit _ _ _ _ _) as [err|[ok st tx js]] eqn:Hout; cbn.
  { do 3 eexists. split; [reflexivity|].
    split; [solve_run|].
    do 5 (split; [done|]). intros id. split; [done|].
    by intros (? & ? & ? & ? & _). }
  destruct ok; cbn.
  2:{ do 3 eexists. split; [reflexivity|].
      split; [solve_run|].
      do 5 (split; [done|]). intros id. split; [done|].
      intros (? & ? & ? & [= <-] & ? & _). done. }
  unfold json_of. destruct js as [json|]; cbn.
  2:{ do 3 eexists. split; [reflexivity|].
      split; [solve_run|].
      do 5 (split; [done|]). intros id. split; [done|].
      intros (? & ? & ? & [= <-] & ? & ? & _). done. }
  destruct (negb (sr_code json =? 200) || negb (truthy (data_id json)))
    eqn:Hbad; cbn.
  - do 3 eexists. split; [reflexivity|].
    split; [solve_run|].
    do 5 (split; [done|]). intros id. split; [done|].
    intros (? & ? & d & [= <-] & _ & [= <-] & Hc & Hd & Hid & Hne).
    apply orb_true_iff in Hbad as [Hbad|Hbad]; apply negb_true_iff in Hbad.
    + apply Z.eqb_neq in Hbad. done.
    + unfold data_id in Hbad. rewrite Hd, Hid in Hbad. cbn in Hbad.
      apply negb_false_iff, String.eqb_eq in Hbad. done.
  - apply orb_false_iff in Hbad as [Hc Hid].
    apply negb_false_iff, Z.eqb_eq in Hc. apply negb_false_iff in Hid.
    do 3 eexists. split; [reflexivity|].
    split; [solve_run|].
    do 5 (split; [done|]). intros id.
    apply truthy_Some in Hid as (s & Hs & Hne). rewrite Hs. split.
    + intros [= <-]. unfold data_id in Hs.
      destruct (sr_data json) as [d|] eqn:Hd; [|done]. by eexists _, _, _.
    + intros (? & ? & d & [= <-] & _ & [= <-] & _ & Hd & Hid & _).
      unfold data_id in Hs. rewrite Hd, Hid in Hs. done.
Qed.

Lemma pollAttempt_run (predictionId apiKey : string) (intervalMs attempt : Z)
    (w : World) :
  ∃ step w' evs out,
    pollAttempt predictionId apiKey intervalMs attempt w = (Returned step, w') ∧
    run w w' evs ∧
    polls evs = [out] ∧ sleeps evs = [intervalMs] ∧
    stored evs = [] ∧ inserts evs = [] ∧ submits evs = [] ∧
    read_errors evs = [] ∧
    match observed out with
    | Some d =>
        match rd_status d with
        | completed => step = Return (output_of d)
        | failed => step = Return None
        | _ => step = Continue
        end
    | None => step = Continue
    end.
Proof.
  unfold pollAttempt, try_catch, bind, fetch_result, sleep. cbn.
  destruct (on_poll _ _ _ _) as [err|[ok st tx js]] eqn:Hout; cbn.
  { do 4 eexists. split; [reflexivity|].
    split; [solve_run|].
    cbn. by repeat (split; [done|]). }
  destruct ok; cbn.
  2:{ do 4 eexists. split; [reflexivity|].
      split; [solve_run|].
      cbn. by repeat (split; [done|]). }
  unfold json_of. destruct js as [json|]; cbn.
  2:{ do 4 eexists. split; [reflexivity|].
      split; [solve_run|].
      cbn. by repeat (split; [done|]). }
  unfold data_status, first_output, data_error.
  destruct json as [code [[id st' outs e]|]]; cbn.
  2:{ do 4 eexists. split; [reflexivity|].
      split; [solve_run|].
      cbn. by repeat (split; [done|]). }
  destruct st'; cbn.
  - do 4 eexists. split; [reflexivity|].
    split; [solve_run|].
    cbn. by repeat (split; [done|]).
  - do 4 eexists. split; [reflexivity|].
    split; [solve_run|].
    cbn. by repeat (split; [done|]).
  - do 4 eexists. split; [reflexivity|].
    split; [solve_run|].
    cbn. repeat (split; [done|]).
    unfold output_of. cbn. by destruct outs as [[|? ?]|].
  - do 4 eexists. split; [reflexivity|].
    split; [solve_run|].
    cbn. by repeat (split; [done|]).
Qed.

Lemma polls_app (e2 e1 : list Event) : polls (e2 ++ e1) = polls e2 ++ polls e1.
Proof. apply omap_app. Qed.

Lemma sleeps_app (e2 e1 : list Event) :
  sleeps (e2 ++ e1) = sleeps e2 ++ sleeps e1.
Proof. apply omap_app. Qed.

Lemma inserts_app (e2 e1 : list Event) :
  inserts (e2 ++ e1) = inserts e2 ++ inserts e1.
Proof. apply omap_app. Qed.

Lemma submits_app (e2 e1 : list Event) :
  submits (e2 ++ e1) = submits e2 ++ submits e1.
Proof. apply omap_app. Qed.

Lemma read_errors_app (e2 e1 : list Event) :
  read_errors (e2 ++ e1) = read_errors e2 ++ read_errors e1.
Proof. apply omap_app. Qed.

Lemma polling_outcome_snoc (n : nat)
    (ps : list (FetchOutcome WaveSpeedResultResponse))
    (out : FetchOutcome WaveSpeedResultResponse) (r : option string) :
  nonterminal out → polling_outcome n ps r →
  polling_outcome (S n) (ps ++ [out]) r.
Proof.
  intros Hout. destruct ps as [|last earlier]; cbn.
  - intros [-> ->]. split; [constructor|]. unfold nonterminal in Hout.
    destruct (observed out) as [d|]; [|done].
    destruct (rd_status d), Hout; done.
  - intros [Hearlier Hlast]. split.
    + apply Forall_app. split; [done|]. by constructor.
    + rewrite length_app. cbn. rewrite Nat.add_1_r.
      destruct (observed last) as [d|]; [destruct (rd_status d)|];
        try done; destruct Hlast as [<- ->]; done.
Qed.

Lemma pollLoop_run (predictionId apiKey : string) (maxAttempts intervalMs : Z)
    (remaining : nat) (attempt : Z) (w : World) :
  ∃ r w' evs,
    pollLoop predictionId apiKey maxAttempts intervalMs remaining attempt w
      = (Returned r, w') ∧
    run w w' evs ∧
    (length (polls evs) ≤ remaining)%nat ∧
    sleeps evs = replicate (length (polls evs)) intervalMs ∧
    stored evs = [] ∧ inserts evs = [] ∧ submits evs = [] ∧
    read_errors evs = [] ∧
    polling_outcome remaining (polls evs) r ∧
    (Forall nonterminal (polls evs) →
     head evs = Some (EvLog (LogPollTimeout predictionId maxAttempts))).
Proof.
  revert attempt w. induction remaining as [|n IH]; intros attempt w.
  { cbn. unfold bind, console, ret. do 3 eexists. split; [reflexivity|].
    split; [solve_run|]. by repeat (split; [done|]). }
  destruct (pollAttempt_run predictionId apiKey intervalMs attempt w)
    as (step & w1 & evs1 & out & Hrun & Hw1 & Hp & Hsl & Hst & Hi & Hsu & Hre
        & Hstep).
  cbn [pollLoop]. unfold bind at 1. rewrite Hrun.
  destruct step as [|r].
  - destruct (IH (attempt + 1) w1)
      as (r & w2 & evs2 & Hrun2 & Hw2 & Hlen & Hsl2 & Hst2 & Hi2 & Hsu2
          & Hre2 & Hout2 & Hto).
    exists r, w2, (evs2 ++ evs1). split; [done|].
    split; [by eapply run_trans|].
    rewrite polls_app, sleeps_app, stored_app, inserts_app, submits_app,
      read_errors_app, Hp, Hsl, Hst, Hi, Hsu, Hre, Hst2, Hi2, Hsu2, Hre2,
      Hsl2, length_app.
    cbn [length]. rewrite Nat.add_1_r.
    assert (nonterminal out) as Hnt.
    { unfold nonterminal. destruct (observed out) as [d|]; [|done].
      destruct (rd_status d); try done; auto. }
    split; [lia|]. split; [by rewrite replicate_S_end|].
    do 4 (split; [done|]). split; [by apply polling_outcome_snoc|].
    intros Hall. apply Forall_app in Hall as [Hall _].
    specialize (Hto Hall). destruct evs2; [done|]. exact Hto.
  - exists r, w1, evs1. split; [done|]. split; [done|].
    rewrite Hp, Hsl. cbn [length].
    split; [lia|]. do 5 (split; [done|]).
    assert (¬ nonterminal out ∧ polling_outcome (S n) [out] r) as [Hnt Hout].
    { unfold nonterminal. cbn. destruct (observed out) as [d|]; [|done].
      destruct (rd_status d); try done.
      - injection Hstep as ->. split; [by intros [?|?]|]. by split.
      - injection Hstep as ->. split; [by intros [?|?]|]. by split. }
    split; [done|]. intros Hall. by apply Forall_cons in Hall as [? _].
Qed.

Lemma pollResult_bounded_polling_aux (predictionId apiKey : string)
    (maxAttempts intervalMs : Z) (w : World) :
  ∃ r w' evs,
    pollResult predictionId apiKey maxAttempts intervalMs w = (Returned r, w') ∧
    run w w' evs ∧
    (length (polls evs) ≤ Z.to_nat maxAttempts)%nat ∧
    stored evs = [] ∧ inserts evs = [] ∧ submits evs = [] ∧
    read_errors evs = [].
Proof.
  unfold pollResult.
  destruct (pollLoop_run predictionId apiKey maxAttempts intervalMs
              (Z.to_nat maxAttempts) 0 w)
    as (r & w' & evs & Hrun & Hw & Hlen & _ & Hst & Hi & Hsu & Hre & _).
  by exists r, w', evs.
Qed.

(** C4.  Whatever the prediction, the budget and the interval, [pollResult]
    returns, after at most [maxAttempts] status checks (none for a budget
    below 1), each after a pause of [intervalMs], and without submitting or
    inserting anything.  Its result is decided as [polling_outcome] says:
    an output URL comes only from a last check that saw [completed] with a
    list of outputs that is not empty; checks that are not terminal are
    followed by the next check until the budget is used up, which gives no
    result and logs the time-out. *)
Theorem pollResult_bounded_polling (predictionId apiKey : string)
    (maxAttempts intervalMs : Z) (w : World) :
  ∃ r w' evs,
    pollResult predictionId apiKey maxAttempts intervalMs w = (Returned r, w') ∧
    run w w' evs ∧
    Z.of_nat (length (polls evs)) <= Z.max 0 maxAttempts ∧
    sleeps evs = replicate (length (polls evs)) intervalMs ∧
    inserts evs = [] ∧ submits evs = [] ∧
    polling_outcome (Z.to_nat maxAttempts) (polls evs) r ∧
    (∀ url, r = Some url →
       ∃ last earlier d outs,
         polls evs = last :: earlier ∧ observed last = Some d ∧
         rd_status d = completed ∧ rd_outputs d = Some (url :: outs)) ∧
    (Forall nonterminal (polls evs) →
       r = None ∧ length (polls evs) = Z.to_nat maxAttempts ∧
       head evs = Some (EvLog (LogPollTimeout predictionId maxAttempts))).
Proof.
  unfold pollResult.
  destruct (pollLoop_run predictionId apiKey maxAttempts intervalMs
              (Z.to_nat maxAttempts) 0 w)
    as (r & w' & evs & Hrun & Hw & Hlen & Hsl & _ & Hi & Hsu & _ & Hout & Hto).
  exists r, w', evs. split; [done|]. split; [done|].
  split; [lia|]. do 4 (split; [done|]). split.
  - intros url ->. unfold polling_outcome in Hout.
    destruct (polls evs) as [|last earlier]; [by destruct Hout|].
    destruct Hout as [_ Hlast].
    destruct (observed last) as [d|] eqn:Hd; [|by destruct Hlast].
    destruct (rd_status d) eqn:Hs; try (by destruct Hlast); [|done].
    unfold output_of in Hlast.
    destruct (rd_outputs d) as [[|url' outs]|] eqn:Ho; try done.
    injection Hlast as ->. by exists last, earlier, d, outs.
  - intros Hall. split; [|split; [|by apply Hto]].
    + unfold polling_outcome in Hout.
      destruct (polls evs) as [|last earlier]; [by destruct Hout|].
      apply Forall_cons in Hall as [Hl _]. destruct Hout as [_ Hlast].
      unfold nonterminal in Hl.
      destruct (observed last) as [d|]; [|by destruct Hlast].
      destruct (rd_status d), Hl; try done; by destruct Hlast.
    + unfold polling_outcome in Hout.
      destruct (polls evs) as [|last earlier]; [by destruct Hout|].
      apply Forall_cons in Hall as [Hl _]. destruct Hout as [_ Hlast].
      unfold nonterminal in Hl.
      destruct (observed last) as [d|]; [|by destruct Hlast].
      destruct (rd_status d), Hl; try done; by destruct Hlast.
Qed.

(** ** The phases of the worker *)

Section Phases.

Context {collation : Collation}.

Lemma refused_not_acknowledged (out : FetchOutcome WaveSpeedSubmitResponse)
    (id : string) :
  refused out → ¬ acknowledged out id.
Proof.
  intros Href (res & json & d & -> & Hok & Hjs & Hc & Hd & Hid & Hne).
  destruct Href as [[err [=]]|(res' & [= <-] & Hbad)].
  destruct Hbad as [Hbad|[Hbad|(json' & Hjs' & Hbad)]]; [congruence..|].
  assert (json' = json) as -> by congruence.
  unfold data_id in Hbad. rewrite Hd, Hid in Hbad.
  destruct Hbad as [?|[?|?]]; congruence.
Qed.

Lemma submitPair_run (apiKey : string) (submitted : list Job)
    (p : Person.t * Person.t) (w : World) :
  ∃ new w' evs,
    submitPair apiKey submitted p w = (Returned (submitted ++ new), w') ∧
    run w w' evs ∧
    request_images <$> submits evs = [pair_images p] ∧
    stored evs = [] ∧ inserts evs = [] ∧ polls evs = [] ∧
    read_errors evs = [] ∧
    (new = [] ∨
     ∃ id, new = [mkJob p id (canonicalName (Person.name p.1)
                                            (Person.name p.2))] ∧
           id ≠ "").
Proof.
  unfold submitPair, bind at 1.
  destruct (submitJob_run (Person.image p.1) (Person.image p.2) apiKey w)
    as (r & w' & evs & -> & Hw & Hs & Hst & Hi & Hp & Hre & Hr).
  destruct (truthy r) eqn:Ht.
  - apply truthy_Some in Ht as (id & -> & Hne). eexists _, w', evs.
    split; [reflexivity|]. split; [done|]. rewrite Hs.
    do 5 (split; [done|]). right. by exists id.
  - exists [], w', evs. rewrite app_nil_r.
    split; [reflexivity|]. split; [done|]. rewrite Hs.
    do 5 (split; [done|]). by left.
Qed.

(** The callbacks of step 4: one request for each missing pair, whatever
    the others got. *)
Lemma submitPairs_run (apiKey : string) (pairs : list (Person.t * Person.t))
    (acc : list Job) (w : World) :
  ∃ new w' evs,
    foldM (submitPair apiKey) pairs acc w = (Returned (acc ++ new), w') ∧
    run w w' evs ∧
    request_images <$> submits evs = rev (pair_images <$> pairs) ∧
    stored evs = [] ∧ inserts evs = [] ∧ polls evs = [] ∧
    read_errors evs = [] ∧
    sublist (pair <$> new) pairs ∧
    Forall (λ job, predictionId job ≠ "" ∧
                   canonName job =
                     canonicalName (Person.name (pair job).1)
                                   (Person.name (pair job).2)) new.
Proof.
  revert acc w. induction pairs as [|p pairs IH]; intros acc w.
  { exists [], w, []. cbn. rewrite app_nil_r.
    split; [done|]. split; [apply run_refl|]. by repeat (split; [done|]). }
  destruct (submitPair_run apiKey acc p w)
    as (new1 & w1 & evs1 & Hrun1 & Hw1 & Hs1 & Hst1 & Hi1 & Hp1 & Hre1 & Hn1).
  destruct (IH (acc ++ new1) w1)
    as (new2 & w2 & evs2 & Hrun2 & Hw2 & Hs2 & Hst2 & Hi2 & Hp2 & Hre2
        & Hsub & Hjobs).
  exists (new1 ++ new2), w2, (evs2 ++ evs1).
  cbn [foldM]. unfold bind at 1. rewrite Hrun1, Hrun2, app_assoc.
  split; [done|]. split; [by eapply run_trans|].
  rewrite submits_app, fmap_app, Hs1, Hs2, stored_app, inserts_app, polls_app,
    read_errors_app, Hst1, Hst2, Hi1, Hi2, Hp1, Hp2, Hre1, Hre2.
  do 5 (split; [done|]).
  destruct Hn1 as [->|(id & -> & Hne)]; cbn.
  - split; [by apply sublist_cons|done].
  - split; [by apply sublist_skip|]. by constructor.
Qed.

(** The order of arrival rearranges and does nothing else. *)
Lemma arrival_order_Permutation {A : Type} (ks : list nat) (l : list A) :
  arrival_order ks l ≡ₚ l.
Proof.
  revert l. induction ks as [|k ks IH]; intros l; cbn; [done|].
  destruct (l !! k) as [x|] eqn:Hk; [|done].
  rewrite IH. symmetry. by apply delete_Permutation.
Qed.

(** Every order of arrival is the order of some [ks]. *)
Lemma arrival_order_complete {A : Type} (l l' : list A) :
  l' ≡ₚ l → ∃ ks, arrival_order ks l = l'.
Proof.
  revert l. induction l' as [|x l' IH]; intros l Hperm.
  - apply Permutation_nil_l in Hperm as ->. by exists [].
  - assert (x ∈ l) as Hx by (rewrite <- Hperm; left).
    apply list_elem_of_lookup in Hx as [k Hk].
    destruct (IH (delete k l)) as (ks & Hks).
    { apply (Permutation_cons_inv (a := x)).
      rewrite Hperm. by apply delete_Permutation. }
    exists (k :: ks). cbn. by rewrite Hk, Hks.
Qed.

(** Step 4: the requests in array order, the jobs in the order of
    arrival. *)
Lemma submitAll_run (apiKey : string) (pairs : list (Person.t * Person.t))
    (w : World) :
  ∃ submitted w' evs,
    submitAll apiKey pairs w = (Returned submitted, w') ∧
    run w w' evs ∧
    request_images <$> submits evs = rev (pair_images <$> pairs) ∧
    stored evs = [] ∧ inserts evs = [] ∧ polls evs = [] ∧
    read_errors evs = [] ∧
    pair <$> submitted ⊆+ pairs ∧
    Forall (λ job, predictionId job ≠ "" ∧
                   canonName job =
                     canonicalName (Person.name (pair job).1)
                                   (Person.name (pair job).2)) submitted.
Proof.
  destruct (submitPairs_run apiKey pairs [] w)
    as (pushed & w' & evs & Hrun & Hw & Hs & Hst & Hi & Hp & Hre & Hsub
        & Hjobs).
  unfold submitAll, bind, arrive. rewrite Hrun. cbn [app].
  do 3 eexists. split; [reflexivity|]. do 6 (split; [done|]).
  pose proof (arrival_order_Permutation
                (on_arrival (oracle w') (trace w')) pushed) as Hperm.
  split.
  - rewrite Hperm. by apply sublist_submseteq.
  - by rewrite Hperm.
Qed.

(** The insert of step 5 for a job whose polling gave [outputUrl]. *)
Lemma pollAndSave_run (apiKey : string) (job : Job) (w : World) :
  ∃ outputUrl w1 evs1 r w' evs,
    pollResult (predictionId job) apiKey
               DEFAULT_MAX_ATTEMPTS DEFAULT_INTERVAL_MS w
      = (Returned outputUrl, w1) ∧
    run w w1 evs1 ∧ inserts evs1 = [] ∧
    settle (pollAndSave apiKey job) w = (Returned r, w') ∧
    run w w' evs ∧
    submits evs = [] ∧ read_errors evs = [] ∧
    (length (polls evs) ≤ Z.to_nat DEFAULT_MAX_ATTEMPTS)%nat ∧
    match outputUrl with
    | Some url =>
        if decide (url = "") then
          inserts evs = [] ∧
          r = rejected ("No output for " +:+ canonName job)
        else
          ∃ err,
            inserts evs = [(Generated.mk (canonName job) url, err)] ∧
            err = match on_insert (oracle w1) (trace w1)
                                  (Generated.mk (canonName job) url) with
                  | Some e => Some e
                  | None =>
                      if has_name (canonName job) (generated w1)
                      then Some unique_violation else None
                  end ∧
            r = match err with
                | None => fulfilled (canonName job)
                | Some e =>
                    if decide (pg_code e = "23505")
                    then fulfilled (canonName job)
                    else rejected (pg_message e)
                end
    | None =>
        inserts evs = [] ∧
        r = rejected ("No output for " +:+ canonName job)
    end.
Proof.
  destruct (pollResult_bounded_polling_aux (predictionId job) apiKey
              DEFAULT_MAX_ATTEMPTS DEFAULT_INTERVAL_MS w)
    as (out & w1 & evs1 & Hrun & Hw1 & Hlen & Hst1 & Hi1 & Hs1 & Hre1).
  exists out, w1, evs1. unfold settle, pollAndSave, bind at 1. rewrite Hrun.
  destruct out as [url|]; cbn [truthy negb].
  2:{ do 3 eexists. split; [done|]. split; [done|]. split; [done|].
      split; [reflexivity|]. by repeat (split; [done|]). }
  destruct (decide (url = "")) as [->|Hne].
  { cbn. do 3 eexists. split; [done|]. split; [done|]. split; [done|].
    split; [reflexivity|]. by repeat (split; [done|]). }
  apply String.eqb_neq in Hne as Hneb. rewrite Hneb. cbn [negb default].
  unfold bind, db_insert_generated.
  destruct (on_insert _ _ _) as [e|] eqn:Hins.
  - destruct (decide (pg_code e = "23505")) as [Hc|Hc].
    + apply String.eqb_eq in Hc as Hcb. rewrite Hcb. cbn.
      do 3 eexists. split; [done|]. split; [done|]. split; [done|].
      split; [reflexivity|].
      split; [eapply run_trans; [exact Hw1|solve_run]|].
      rewrite submits_app, read_errors_app, polls_app,
        inserts_app, Hs1, Hre1, Hi1. cbn.
      do 3 (split; [done|]). eexists. split; [done|]. split; [done|].
      by rewrite decide_True.
    + apply String.eqb_neq in Hc as Hcb. rewrite Hcb. cbn.
      do 3 eexists. split; [done|]. split; [done|]. split; [done|].
      split; [reflexivity|].
      split; [eapply run_trans; [exact Hw1|solve_run]|].
      rewrite submits_app, read_errors_app, polls_app,
        inserts_app, Hs1, Hre1, Hi1. cbn.
      do 3 (split; [done|]). eexists. split; [done|]. split; [done|].
      by rewrite decide_False.
  - cbn [Generated.name]. destruct (has_name _ _) eqn:Hhas; cbn.
    + do 3 eexists. split; [done|]. split; [done|]. split; [done|].
      split; [reflexivity|].
      split; [eapply run_trans; [exact Hw1|solve_run]|].
      rewrite submits_app, read_errors_app, polls_app,
        inserts_app, Hs1, Hre1, Hi1. cbn.
      do 3 (split; [done|]). eexists. split; [done|]. split; [done|]. done.
    + do 3 eexists. split; [done|]. split; [done|]. split; [done|].
      split; [reflexivity|].
      split; [eapply run_trans; [exact Hw1|];
              eapply run_step; [apply run_insert|done]|].
      rewrite submits_app, read_errors_app, polls_app,
        inserts_app, Hs1, Hre1, Hi1. cbn.
      do 3 (split; [done|]). eexists. split; [done|]. split; [done|]. done.
Qed.

End Phases.

(** ** The poll phase and the handler *)

Section Handler.

Context {collation : Collation}.

Lemma stored_inserts (evs : list Event) :
  stored evs = rev (fst <$> filter (λ i, i.2 = None) (inserts evs)).
Proof.
  induction evs as [|ev evs IH]; [done|].
  destruct ev as [| |row err| | | |]; try done.
  destruct err as [e|]; cbn [stored].
  - change (inserts (EvInsert row (Some e) :: evs))
      with ((row, Some e) :: inserts evs).
    by rewrite filter_cons_False.
  - change (inserts (EvInsert row None :: evs))
      with ((row, None) :: inserts evs).
    rewrite filter_cons_True by done. cbn. by rewrite IH.
Qed.

Lemma has_name_elem_of (n : string) (tbl : list Generated.t) :
  has_name n tbl = true ↔ n ∈ names_of tbl.
Proof.
  unfold has_name, names_of. rewrite existsb_exists, list_elem_of_fmap.
  split.
  - intros (g & Hg & Heq). apply String.eqb_eq in Heq.
    exists g. split; [done|]. by apply list_elem_of_In.
  - intros (g & -> & Hg). exists g. split; [by apply list_elem_of_In|].
    apply String.eqb_refl.
Qed.

Lemma pollAndSave_fulfilled (apiKey : string) (job : Job) (w w' : World)
    (r : Settled string) :
  settle (pollAndSave apiKey job) w = (Returned r, w') →
  sole_writer (oracle w) → is_fulfilled r →
  canonName job ∈ names_of (generated w').
Proof.
  intros Hrun Hsole Hful.
  destruct (pollAndSave_run apiKey job w)
    as (out & w1 & evs1 & r' & w'' & evs & _ & Hw1 & Hi1 & Hrun' & Hw & _ & _
        & _ & Hout).
  rewrite Hrun in Hrun'. injection Hrun' as <- <-.
  destruct out as [url|]; [|by destruct Hout as [_ ->]].
  destruct (decide (url = "")); [by destruct Hout as [_ ->]|].
  destruct Hout as (err & Hins & Herr & ->).
  rewrite (run_generated _ _ _ Hw), stored_inserts, Hins.
  unfold names_of. rewrite fmap_app, elem_of_app.
  destruct err as [e|].
  - left. destruct (on_insert _ _ _) as [e'|] eqn:Hfault.
    + injection Herr as ->. rewrite (run_oracle _ _ _ Hw1) in Hfault.
      apply Hsole in Hfault. by rewrite decide_False in Hful.
    + destruct (has_name _ _) eqn:Hhas; [|done].
      apply has_name_elem_of in Hhas.
      rewrite (run_generated _ _ _ Hw1), stored_inserts, Hi1 in Hhas.
      cbn in Hhas. by rewrite app_nil_r in Hhas.
  - right. rewrite filter_cons_True by done. cbn. by left.
Qed.

(** Step 5: every job settles, whatever the others did. *)
Lemma pollAll_run (apiKey : string) (jobs : list Job) (w : World) :
  ∃ results w' evs,
    mapM (λ job, settle (pollAndSave apiKey job)) jobs w
      = (Returned results, w') ∧
    run w w' evs ∧
    length results = length jobs ∧
    submits evs = [] ∧ read_errors evs = [] ∧
    Forall (λ i, Generated.name i.1 ∈ canonName <$> jobs) (inserts evs) ∧
    (sole_writer (oracle w) →
     Forall2 (λ job r, is_fulfilled r →
                canonName job ∈ names_of (generated w')) jobs results).
Proof.
  revert w. induction jobs as [|job jobs IH]; intros w.
  { exists [], w, []. split; [done|]. split; [apply run_refl|].
    repeat (split; [done|]). by constructor. }
  destruct (pollAndSave_run apiKey job w)
    as (out & w0 & evs0 & r & w1 & evs1 & _ & _ & _ & Hrun1 & Hw1 & Hs1 & Hre1
        & _ & Hout).
  destruct (IH w1) as (rs & w2 & evs2 & Hrun2 & Hw2 & Hlen & Hs2 & Hre2
                       & Hins2 & Hful2).
  exists (r :: rs), w2, (evs2 ++ evs1).
  cbn [mapM]. unfold bind at 1. rewrite Hrun1. unfold bind at 1.
  rewrite Hrun2. split; [done|]. split; [by eapply run_trans|].
  rewrite submits_app, read_errors_app, inserts_app, Hs1, Hs2, Hre1, Hre2.
  cbn [length]. split; [by rewrite Hlen|]. do 2 (split; [done|]). split.
  - apply Forall_app. split.
    + eapply Forall_impl; [exact Hins2|]. intros i Hi. cbn. by right.
    + destruct out as [url|]; [destruct (decide (url = ""))|].
      * destruct Hout as [-> _]. constructor.
      * destruct Hout as (err & -> & _). constructor; [|constructor].
        cbn. by left.
      * destruct Hout as [-> _]. constructor.
  - intros Hsole. constructor.
    + intros Hful.
      pose proof (pollAndSave_fulfilled _ _ _ _ _ Hrun1 Hsole Hful) as Hin.
      rewrite (run_generated _ _ _ Hw2). unfold names_of in *.
      rewrite fmap_app, elem_of_app. by left.
    + apply Hful2. by rewrite (run_oracle _ _ _ Hw1).
Qed.

Lemma filter_settled_length (results : list (Settled string)) :
  (length (filter is_fulfilled results) + length (filter is_rejected results)
   = length results)%nat.
Proof.
  induction results as [|[v|e] results IH]; [done|..].
  - rewrite (filter_cons_True is_fulfilled) by exact I.
    rewrite (filter_cons_False is_rejected) by (intros []). cbn. lia.
  - rewrite (filter_cons_False is_fulfilled) by (intros []).
    rewrite (filter_cons_True is_rejected) by exact I. cbn. lia.
Qed.

Lemma configured_intro (w : World) :
  truthy (WAVESPEED_API_KEY (env w)) = true →
  truthy (NEXT_PUBLIC_SUPABASE_URL (env w)) = true →
  truthy (SUPABASE_SERVICE_ROLE_KEY (env w)) = true →
  configured (env w).
Proof. by repeat split. Qed.

(** Every invocation returns a response, in one of the seven ways of
    [POST_outcome]. *)
Lemma POST_run (w : World) :
  ∃ resp w' evs,
    POST w = (Returned resp, w') ∧ run w w' evs ∧ POST_outcome w resp evs.
Proof.
  unfold POST, bind, getenv.
  destruct (truthy (WAVESPEED_API_KEY (env w))) eqn:Hkey; cbn [negb].
  2:{ exists (error_response "WAVESPEED_API_KEY not set"), w, [].
      split; [done|]. split; [apply run_refl|]. by constructor. }
  destruct (truthy (NEXT_PUBLIC_SUPABASE_URL (env w))) eqn:Hurl; cbn [negb orb].
  2:{ exists (error_response "Supabase env vars not set"), w, [].
      split; [done|]. split; [apply run_refl|]. constructor; auto. }
  destruct (truthy (SUPABASE_SERVICE_ROLE_KEY (env w))) eqn:Hrole; cbn [negb].
  2:{ exists (error_response "Supabase env vars not set"), w, [].
      split; [done|]. split; [apply run_refl|]. constructor; auto. }
  pose proof (configured_intro w Hkey Hurl Hrole) as Hconf.
  unfold db_select_people.
  destruct (on_select_people (oracle w) (trace w)) as [| |e];
    cbn [read sel_error sel_data].
  3:{ do 3 eexists. split; [done|]. split; [solve_run|]. by constructor. }
  2:{ do 3 eexists. split; [done|]. split; [solve_run|].
      apply post_not_enough_people.
      - done.
      - split; cbn; auto.
      - by left. }
  destruct (length (people w) <? 2)%nat eqn:Hlen.
  { apply Nat.ltb_lt in Hlen. do 3 eexists. split; [done|].
    split; [solve_run|].
    apply post_not_enough_people.
    - done.
    - split; cbn; auto.
    - by right. }
  apply Nat.ltb_ge in Hlen.
  unfold db_select_generated. cbn [oracle trace generated record].
  set (p := EvSelectPeople _).
  assert (∀ o,
    read_of (mkNameRow <$> names_of (generated w))
            (read (map (λ g, mkNameRow (Generated.name g)) (generated w)) o)
    ∨ ∃ e, o = ReadFails e) as Hread.
  { intros [| |e]; [left|left|right; eauto]; split; cbn; auto.
    left. f_equal. unfold names_of. by rewrite <- list_fmap_compose. }
  destruct (Hread (on_select_generated (oracle w) (p :: trace w)))
    as [Hg|[e He]].
  2:{ rewrite He. cbn. do 3 eexists. split; [done|]. split; [solve_run|].
      by constructor. }
  set (g := read _ _) in *. destruct Hg as [Hgerr Hgdata].
  rewrite Hgerr. fold (names_read g).
  destruct (length (missingPairs (people w) (names_read g)) =? 0)%nat
    eqn:Hmiss.
  { apply Nat.eqb_eq, length_zero_iff_nil in Hmiss.
    do 3 eexists. split; [done|]. split; [solve_run|].
    by apply post_all_generated. }
  apply Nat.eqb_neq in Hmiss.
  assert (missingPairs (people w) (names_read g) ≠ []) as Hne.
  { intros Heq. by rewrite Heq in Hmiss. }
  unfold console. set (w2 := record (EvLog _) _).
  assert (run w w2 [EvLog (LogGenerating
                             (Z.of_nat (length (missingPairs (people w)
                                                  (names_read g)))));
                    EvSelectGenerated g; p]) as Hw2 by solve_run.
  destruct (submitAll_run (default "" (WAVESPEED_API_KEY (env w)))
              (missingPairs (people w) (names_read g)) w2)
    as (submitted & w3 & evs_s & Hrun3 & Hw3 & Hs3 & Hst3 & Hi3 & Hp3 & Hre3
        & Hsub & Hjobs).
  rewrite Hrun3.
  destruct (pollAll_run (default "" (WAVESPEED_API_KEY (env w))) submitted w3)
    as (results & w4 & evs_p & Hrun4 & Hw4 & Hlen4 & Hs4 & Hre4 & Hi4 & Hful).
  rewrite Hrun4. cbn.
  do 3 eexists. split; [done|].
  split; [eapply run_trans; [eapply run_trans; [exact Hw2|exact Hw3]|exact Hw4]|].
  apply post_summary; try done.
  - eapply Forall_impl; [exact Hjobs|]. by intros job [_ ?].
  - intros Hsole. rewrite (run_generated _ _ _ Hw4) in Hful.
    rewrite (run_generated _ _ _ Hw3), Hst3, app_nil_r in Hful.
    apply Hful. by rewrite (run_oracle _ _ _ Hw3).
Qed.

End Handler.

(** ** Canonical labels *)

Lemma canonicalCompare_consistent : consistent_comparator canonicalCompare.
Proof.
  split; [|split].
  - intros a. unfold canonicalCompare.
    by rewrite (proj2 (String_as_OT.cmp_eq _ _) eq_refl).
  - intros a b. unfold canonicalCompare.
    rewrite (String.compare_antisym (decompose b)).
    destruct (String.compare (decompose a) (decompose b)); cbn; lia.
  - intros a b c. unfold canonicalCompare.
    destruct (String.compare (decompose a) (decompose b)) eqn:Hab;
      [| |lia].
    + apply String.compare_eq_iff in Hab. rewrite Hab. tauto.
    + destruct (String.compare (decompose b) (decompose c)) eqn:Hbc;
        [| |lia]; intros _ _.
      * apply String.compare_eq_iff in Hbc. rewrite <- Hbc, Hab. lia.
      * apply String_as_OT.cmp_lt in Hab, Hbc.
        pose proof (String_as_OT.lt_trans _ _ _ Hab Hbc) as Hac.
        apply String_as_OT.cmp_lt in Hac.
        unfold String_as_OT.cmp in Hac. rewrite Hac. lia.
Qed.

(** C1, at the names that break it.  [e_acute_nfc] and [e_acute_nfd] are
    the two canonically equivalent spellings of one letter; a comparison
    that does not tell them apart, as ECMA-262 requires of [localeCompare],
    makes [canonicalName] put its first argument on the left both ways
    round, and the two labels differ. *)
Theorem canonicalName_order_dependent {collation : Collation} :
  localeCompare e_acute_nfc e_acute_nfd = 0 →
  localeCompare e_acute_nfd e_acute_nfc = 0 →
  canonicalName e_acute_nfc e_acute_nfd
    = e_acute_nfc +:+ " x " +:+ e_acute_nfd ∧
  canonicalName e_acute_nfd e_acute_nfc
    = e_acute_nfd +:+ " x " +:+ e_acute_nfc ∧
  canonicalName e_acute_nfc e_acute_nfd ≠ canonicalName e_acute_nfd e_acute_nfc.
Proof.
  intros H1 H2. unfold canonicalName. rewrite H1, H2. cbn [Z.leb Z.compare].
  by repeat split.
Qed.

Lemma canonicalName_order_dependent_witness :
  canonicalName (collation := canonicalCompare) e_acute_nfc e_acute_nfd
    = e_acute_nfc +:+ " x " +:+ e_acute_nfd ∧
  canonicalName (collation := canonicalCompare) e_acute_nfd e_acute_nfc
    = e_acute_nfd +:+ " x " +:+ e_acute_nfc ∧
  canonicalName (collation := canonicalCompare) e_acute_nfc e_acute_nfd
    ≠ canonicalName (collation := canonicalCompare) e_acute_nfd e_acute_nfc.
Proof.
  apply (canonicalName_order_dependent (collation := canonicalCompare));
    reflexivity.
Defined.

Section Claims.

Context {collation : Collation}.

(** ** Generation client and submit phase *)

(** C7.  [submitJob] returns to its caller whatever the request does: it
    makes one request and returns the job identifier when the submission
    was acknowledged with one, and [null] when it was refused (the request
    threw, the HTTP status was not a success, the body did not parse, its
    code was not 200, or the identifier was missing or empty).  The submit
    phase makes one request for every missing pair, in array order,
    whatever the other requests got, and keeps jobs of missing pairs only,
    each at most once and with an identifier; the order in which it keeps
    them is the order in which the answers arrived, which may be any. *)
Theorem submitJob_never_throws (imageUrl1 imageUrl2 apiKey : string)
    (missing : list (Person.t * Person.t)) (w : World) :
  (∃ r w' evs,
     submitJob imageUrl1 imageUrl2 apiKey w = (Returned r, w') ∧
     run w w' evs ∧
     submits evs =
       [(imageUrl1, imageUrl2,
         on_submit (oracle w) (trace w) imageUrl1 imageUrl2 apiKey)] ∧
     (∀ id, r = Some id ↔
            acknowledged
              (on_submit (oracle w) (trace w) imageUrl1 imageUrl2 apiKey) id) ∧
     (refused (on_submit (oracle w) (trace w) imageUrl1 imageUrl2 apiKey) →
      r = None)) ∧
  (∃ submitted w' evs,
     submitAll apiKey missing w = (Returned submitted, w') ∧
     run w w' evs ∧
     request_images <$> submits evs = rev (pair_images <$> missing) ∧
     pair <$> submitted ⊆+ missing ∧
     Forall (λ job, predictionId job ≠ "") submitted).
Proof.
  split.
  - destruct (submitJob_run imageUrl1 imageUrl2 apiKey w)
      as (r & w' & evs & Hrun & Hw & Hs & _ & _ & _ & _ & Hr).
    exists r, w', evs. do 4 (split; [done|]).
    intros Href. destruct r as [id|]; [|done].
    destruct (refused_not_acknowledged _ id Href). by apply Hr.
  - destruct (submitAll_run apiKey missing w)
      as (new & w' & evs & Hrun & Hw & Hs & _ & _ & _ & _ & Hsub & Hjobs).
    exists new, w', evs. do 4 (split; [done|]).
    eapply Forall_impl; [exact Hjobs|]. by intros job [? _].
Qed.

(** ** Persist phase *)

(** C3.  A job whose polling gave no output URL makes no insert and is
    rejected.  A job whose polling gave the URL [url] makes exactly one
    insert, of the row with its label and [url]: when the store answers
    with an error of code 23505 the job is fulfilled with its label, like
    one whose insert succeeded, and the table is as it was; when the store
    answers with an error of another code the job is rejected with the
    message of the error.  Either way the jobs after it are run, from the
    world it left, every job gets its entry in the results, and the handler
    returns a response. *)
Theorem insert_conflict_is_success (apiKey : string) (job : Job)
    (jobs : list Job) (w : World) :
  ∃ outputUrl w0 r w1 evs rs w2,
    pollResult (predictionId job) apiKey
               DEFAULT_MAX_ATTEMPTS DEFAULT_INTERVAL_MS w
      = (Returned outputUrl, w0) ∧
    settle (pollAndSave apiKey job) w = (Returned r, w1) ∧
    run w w1 evs ∧
    (truthy outputUrl = false →
     inserts evs = [] ∧ r = rejected ("No output for " +:+ canonName job)) ∧
    (∀ url, outputUrl = Some url → url ≠ "" →
     ∃ err,
       inserts evs = [(Generated.mk (canonName job) url, err)] ∧
       match err with
       | None => r = fulfilled (canonName job)
       | Some e =>
           generated w1 = generated w ∧
           (pg_code e = "23505" → r = fulfilled (canonName job)) ∧
           (pg_code e ≠ "23505" → r = rejected (pg_message e))
       end) ∧
    mapM (λ job, settle (pollAndSave apiKey job)) jobs w1 = (Returned rs, w2) ∧
    mapM (λ job, settle (pollAndSave apiKey job)) (job :: jobs) w
      = (Returned (r :: rs), w2) ∧
    length (r :: rs) = length (job :: jobs) ∧
    ∃ resp w', POST w = (Returned resp, w').
Proof.
  destruct (pollAndSave_run apiKey job w)
    as (out & w0 & evs0 & r & w1 & evs & Hpoll & _ & _ & Hrun & Hw & _ & _ & _
        & Hout).
  destruct (pollAll_run apiKey jobs w1)
    as (rs & w2 & evs2 & Hrun2 & _ & Hlen & _).
  exists out, w0, r, w1, evs, rs, w2. do 3 (split; [done|]). split.
  { intros Hfalse. destruct out as [url|]; [|done].
    destruct (decide (url = "")) as [->|Hne]; [done|].
    cbn in Hfalse. apply negb_false_iff, String.eqb_eq in Hfalse. done. }
  split.
  { intros url [= ->] Hne. rewrite decide_False in Hout by done.
    destruct Hout as (err & Hins & _ & ->). exists err.
    split; [done|]. destruct err as [e|]; [|done]. split.
    - rewrite (run_generated _ _ _ Hw), stored_inserts, Hins.
      rewrite filter_cons_False by done. apply app_nil_r.
    - split; intros Hc; [by rewrite decide_True|by rewrite decide_False]. }
  split; [done|]. split.
  { cbn [mapM]. unfold bind at 1. rewrite Hrun. unfold bind at 1.
    by rewrite Hrun2. }
  split; [cbn; by rewrite Hlen|].
  destruct (POST_run w) as (resp & w' & _ & Hpost & _). by exists resp, w'.
Qed.

(** ** Summary *)

Lemma submits_summary (evs_poll evs_submit tail : list Event)
    (missing : list (Person.t * Person.t)) :
  submits evs_poll = [] → submits tail = [] →
  request_images <$> submits evs_submit = rev (pair_images <$> missing) →
  length (submits (evs_poll ++ evs_submit ++ tail)) = length missing.
Proof.
  intros Hp Ht Hs. rewrite !submits_app, Hp, Ht, app_nil_r. cbn.
  by rewrite <- (length_fmap request_images), Hs, length_rev, length_fmap.
Qed.

(** C10.  A response that carries [total] comes from the summarize step; it
    carries four counts, none negative, with
    [succeeded + failed = submitted] and [submitted <= total], where
    [total] is the number of missing pairs computed from the people and the
    names read, which is also the number of submission requests made. *)
Theorem summary_counts (w w' : World) (resp : NextResponse) (v : JsonValue) :
  POST w = (Returned resp, w') →
  field "total" resp = Some v →
  ∃ (total submitted succeeded failed : Z) g evs,
    field "total" resp = Some (JNumber total) ∧
    field "submitted" resp = Some (JNumber submitted) ∧
    field "succeeded" resp = Some (JNumber succeeded) ∧
    field "failed" resp = Some (JNumber failed) ∧
    succeeded + failed = submitted ∧ submitted <= total ∧
    0 <= succeeded ∧ 0 <= failed ∧ 0 <= submitted ∧ 0 <= total ∧
    trace w' = evs ++ trace w ∧ EvSelectGenerated g ∈ evs ∧
    total = Z.of_nat (length (missingPairs (people w) (names_read g))) ∧
    total = Z.of_nat (length (submits evs)).
Proof.
  intros Hpost Htotal.
  destruct (POST_run w) as (resp0 & w0 & evs & Hpost' & Hw & Hout).
  rewrite Hpost in Hpost'. injection Hpost' as <- <-.
  destruct Hout as [| | | | | |g submitted results evs_s evs_p _ _ _ _ Hs _ _
                              Hsub _ Hlen Hsp _ _ _]; try done.
  pose proof (filter_settled_length results) as Hsum.
  apply submseteq_length in Hsub. rewrite !length_fmap in Hsub.
  eexists _, _, _, _, g, _. do 4 (split; [reflexivity|]).
  split; [lia|]. split; [lia|]. do 4 (split; [lia|]).
  split; [apply (run_trace _ _ _ Hw)|]. split.
  { apply elem_of_app. right. apply elem_of_app. right.
    apply list_elem_of_In. cbn. auto. }
  split; [done|]. f_equal. symmetry. by apply submits_summary.
Qed.

Lemma not_configured (e : Env) :
  truthy (WAVESPEED_API_KEY e) = false ∨
  truthy (NEXT_PUBLIC_SUPABASE_URL e) = false ∨
  truthy (SUPABASE_SERVICE_ROLE_KEY e) = false →
  ¬ configured e.
Proof. intros H (H1 & H2 & H3). destruct H as [?|[?|?]]; congruence. Qed.

Lemma read_of_no_error {A : Type} (rows : list A) (r : SelectResult A) :
  read_of rows r → sel_error r = None.
Proof. by intros [? _]. Qed.

(** C8, amended.  Every invocation returns a response.  When the
    configuration is present and no read of the store reported an error the
    status is 200 and the body is, if the invocation submitted nothing, the
    single field [message] of one of the two early exits, and otherwise the
    five fields [message], [total], [submitted], [succeeded], [failed], with
    [total] the number of submissions made.  In every other case, and only
    then, the status is 500 and the body is the single field [error]. *)
Theorem POST_response_shape (w : World) :
  ∃ resp w' evs,
    POST w = (Returned resp, w') ∧ run w w' evs ∧
    ((configured (env w) ∧ read_errors evs = [] ∧ status resp = 200 ∧
      ((submits evs = [] ∧
        (body resp = [("message", JString "Not enough people yet")] ∨
         body resp =
           [("message", JString "All combinations already generated")])) ∨
       (submits evs ≠ [] ∧
        ∃ msg (submitted succeeded failed : Z),
          body resp =
            [("message", JString msg);
             ("total", JNumber (Z.of_nat (length (submits evs))));
             ("submitted", JNumber submitted);
             ("succeeded", JNumber succeeded);
             ("failed", JNumber failed)]))) ∨
     ((¬ configured (env w) ∨ read_errors evs ≠ []) ∧ status resp = 500 ∧
      submits evs = [] ∧ ∃ msg, body resp = [("error", JString msg)])).
Proof.
  destruct (POST_run w) as (resp & w' & evs & Hpost & Hw & Hout).
  exists resp, w', evs. do 2 (split; [done|]).
  destruct Hout as [Hk|Hk Hs|e Hc|p Hc Hp Hlen|e Hc Hlen|g Hc Hlen Hg Hm
                    |g submitted results evs_s evs_p Hc Hlen Hg Hm Hs Hi Hre
                       Hsub Hjobs Hres Hsp Hrep Hip Hful].
  - right. split; [left; apply not_configured; auto|]. cbn. eauto.
  - right. split; [left; apply not_configured; tauto|]. cbn. eauto.
  - right. split; [by right|]. cbn. eauto.
  - left. split; [done|]. cbn. rewrite (read_of_no_error _ _ Hp).
    do 2 (split; [done|]). left. auto.
  - right. split; [by right|]. cbn. eauto.
  - left. split; [done|]. cbn. rewrite (read_of_no_error _ _ Hg).
    do 2 (split; [done|]). left. auto.
  - left. split; [done|].
    assert (length (submits (evs_p ++ evs_s ++
              [EvLog (LogGenerating
                        (Z.of_nat (length (missingPairs (people w)
                                             (names_read g)))));
               EvSelectGenerated g;
               EvSelectPeople (mkSelectResult (Some (people w)) None)]))
            = length (missingPairs (people w) (names_read g))) as Hn
      by by apply submits_summary.
    split.
    { rewrite !read_errors_app, Hrep, Hre. cbn.
      by rewrite (read_of_no_error _ _ Hg). }
    split; [done|]. right. split.
    { intros Heq. rewrite Heq in Hn. cbn in Hn.
      symmetry in Hn. by apply length_zero_iff_nil in Hn. }
    rewrite Hn. cbn. eauto 10.
Qed.

(** ** Early exits *)

Lemma inserts_nil_stored (evs : list Event) : inserts evs = [] → stored evs = [].
Proof. intros H. by rewrite stored_inserts, H. Qed.

(** C6, amended.  With fewer than two people in the store an invocation
    submits nothing, inserts nothing and leaves the [generated] table as it
    was; when the configuration is present and the read of [people]
    reported no error it answers 200 with the message "Not enough people
    yet". *)
Theorem fewer_than_two_people (w : World) :
  (length (people w) < 2)%nat →
  ∃ resp w' evs,
    POST w = (Returned resp, w') ∧ run w w' evs ∧
    submits evs = [] ∧ inserts evs = [] ∧ generated w' = generated w ∧
    (configured (env w) → read_errors evs = [] →
     status resp = 200 ∧
     body resp = [("message", JString "Not enough people yet")]).
Proof.
  intros Hlt.
  destruct (POST_run w) as (resp & w' & evs & Hpost & Hw & Hout).
  exists resp, w', evs. do 2 (split; [done|]).
  assert (inserts evs = [] → generated w' = generated w) as Hgen.
  { intros Hi. rewrite (run_generated _ _ _ Hw), (inserts_nil_stored _ Hi).
    apply app_nil_r. }
  destruct Hout as [Hk|Hk Hs|e Hc|p Hc Hp Hlen|e Hc Hlen|g Hc Hlen Hg Hm
                    |g submitted results evs_s evs_p Hc Hlen]; try lia.
  - do 2 (split; [done|]). split; [by apply Hgen|].
    intros Hc. by destruct (not_configured (env w)); auto.
  - do 2 (split; [done|]). split; [by apply Hgen|].
    intros Hc. by destruct (not_configured (env w)); tauto.
  - do 2 (split; [done|]). split; [by apply Hgen|]. by intros _ Hre.
  - do 2 (split; [done|]). split; [by apply Hgen|]. by intros _ _.
Qed.

(** ** Idempotence *)

Lemma row_name_mkNameRow (names : list string) :
  map row_name (mkNameRow <$> names) = names.
Proof. induction names as [|x names IH]; [done|]. cbn. f_equal. exact IH. Qed.

Lemma names_read_rows (g : SelectResult NameRow) (names : list string)
    (n : string) :
  sel_data g = Some (mkNameRow <$> names) → n ∈ names_read g ↔ n ∈ names.
Proof.
  intros Hg. unfold names_read. rewrite Hg, elem_of_list_to_set. cbn.
  by rewrite row_name_mkNameRow.
Qed.

Lemma read_of_rows {A : Type} (rows : list A) (r : SelectResult A) :
  read_of rows r → sel_data r ≠ None → sel_data r = Some rows.
Proof. intros [_ [?|?]] ?; done. Qed.

Lemma no_rejected_all_fulfilled (results : list (Settled string)) :
  length (filter is_rejected results) = 0%nat → Forall is_fulfilled results.
Proof.
  induction results as [|[v|e] results IH]; intros Hlen; [done|..].
  - constructor; [done|]. apply IH.
    by rewrite (filter_cons_False is_rejected) in Hlen by (intros []).
  - by rewrite (filter_cons_True is_rejected) in Hlen by exact I.
Qed.

Lemma all_generated_nothing_missing (w : World) (existingNames : gset string) :
  all_generated w →
  (∀ n, n ∈ existingNames ↔ n ∈ names_of (generated w)) →
  missingPairs (people w) existingNames = [].
Proof.
  intros Hall Hnames. apply missingPairs_nil. intros ij Hij.
  apply Hnames. by apply Hall.
Qed.

(** After a run in which nothing failed, every pair is in the table. *)
Lemma complete_run_all_generated (w : World) :
  after_complete_run w → all_generated w.
Proof.
  intros (w0 & r0 & evs0 & Hpost & Htrace & Hreads & Hsole & Hstatus & Hfailed).
  destruct (POST_run w0) as (resp & w' & evs & Hpost' & Hw & Hout).
  rewrite Hpost in Hpost'. injection Hpost' as <- <-.
  rewrite (run_trace _ _ _ Hw) in Htrace. apply app_inv_tail in Htrace as <-.
  unfold all_generated.
  rewrite (run_people _ _ _ Hw), (run_generated _ _ _ Hw).
  destruct Hout as [Hk|Hk Hs|e Hc|p Hc Hp Hlen|e Hc Hlen|g Hc Hlen Hg Hm
                    |g submitted results evs_s evs_p Hc Hlen Hg Hm Hs Hi Hre
                       Hsub Hjobs Hres Hsp Hrep Hip Hful]; try done.
  - intros [i j] Hij. apply elem_of_indexPairs in Hij.
    destruct Hlen as [Hnone|Hlen]; [|lia].
    destruct (Hreads (EvSelectPeople p)); [by left|done].
  - intros ij Hij. cbn. rewrite app_nil_r.
    assert (sel_data g = Some (mkNameRow <$> names_of (generated w0))) as Hrows.
    { apply (read_of_rows _ _ Hg). apply (Hreads (EvSelectGenerated g)).
      by left. }
    apply (names_read_rows _ _ _ Hrows).
    by apply (proj1 (missingPairs_nil _ _) Hm).
  - assert (sel_data g = Some (mkNameRow <$> names_of (generated w0))) as Hrows.
    { apply (read_of_rows _ _ Hg). apply (Hreads (EvSelectGenerated g)).
      apply elem_of_app. right. apply elem_of_app. right.
      apply list_elem_of_In. cbn. auto. }
    rewrite !stored_app, (inserts_nil_stored _ Hi). cbn [stored app].
    destruct Hfailed as [Hnone|[Hzero Heq]]; [done|].
    cbn in Hzero, Heq. injection Hzero as Hzero. injection Heq as Heq.
    apply Nat2Z.inj in Heq.
    assert (pair <$> submitted ≡ₚ missingPairs (people w0) (names_read g))
      as Hall.
    { apply submseteq_length_Permutation; [done|]. rewrite length_fmap. lia. }
    assert (Forall (λ job, canonName job
                           ∈ names_of (generated w0 ++ stored evs_p))
                   submitted) as Hsaved.
    { eapply Forall2_Forall_l; [exact (Hful Hsole)|].
      eapply Forall_impl; [apply no_rejected_all_fulfilled; lia|].
      intros r Hr job Hjob. by apply Hjob. }
    intros ij Hij.
    destruct (decide (pairLabel (people w0) ij ∈ names_read g)) as [Hin|Hnin].
    + apply (names_read_rows _ _ _ Hrows) in Hin. unfold names_of in *.
      rewrite fmap_app, elem_of_app. by left.
    + pose proof (elem_of_missingPairs _ _ _ Hij Hnin) as Hmiss.
      rewrite <- Hall in Hmiss.
      apply list_elem_of_fmap in Hmiss as (job & Hpair & Hjob).
      rewrite Forall_forall in Hsaved, Hjobs.
      specialize (Hsaved job Hjob). specialize (Hjobs job Hjob).
      rewrite Hjobs, <- Hpair in Hsaved. exact Hsaved.
Qed.

Lemma Permutation_lookup_pair {A : Type} (l l' : list A) (i j : nat)
    (x y : A) :
  l ≡ₚ l' → i ≠ j → l !! i = Some x → l !! j = Some y →
  ∃ a b, a ≠ b ∧ l' !! a = Some x ∧ l' !! b = Some y.
Proof.
  intros [_ (f & Hinj & Hf)]%Permutation_inj Hij Hi Hj.
  exists (f i), (f j). rewrite <- !Hf. split; [|done].
  intros Heq. by apply Hij, Hinj.
Qed.

(** After a run in which nothing failed every pair is in the table also
    for a later invocation, as long as it reads the people in the same
    order, or their labels do not depend on the order. *)
Lemma later_run_all_generated (w : World) :
  later_than_complete_run w → all_generated w.
Proof.
  intros (w1 & Hafter & Hnames & Horder).
  apply complete_run_all_generated in Hafter.
  intros [i j] Hij.
  destruct Horder as [Hsame|[Hperm Hfree]].
  { apply Hnames. unfold pairLabel. rewrite Hsame. apply Hafter.
    by rewrite <- Hsame. }
  apply elem_of_indexPairs in Hij as [Hlt Hj].
  destruct (lookup_lt_is_Some_2 (people w) i) as [p Hp]; [lia|].
  destruct (lookup_lt_is_Some_2 (people w) j) as [q Hq]; [lia|].
  unfold pairLabel. cbn [fst snd].
  rewrite (list_lookup_total_correct _ _ _ Hp),
    (list_lookup_total_correct _ _ _ Hq).
  destruct (Permutation_lookup_pair _ _ i j p q Hperm) as (a & b & Hab & Ha & Hb);
    [lia|done|done|].
  apply Hnames.
  destruct (decide (a < b)%nat) as [Hlt'|Hge].
  - specialize (Hafter (a, b)). unfold pairLabel in Hafter. cbn [fst snd] in Hafter.
    rewrite (list_lookup_total_correct _ _ _ Ha),
      (list_lookup_total_correct _ _ _ Hb) in Hafter.
    apply Hafter, elem_of_indexPairs. split; [done|].
    by eapply lookup_lt_Some.
  - specialize (Hafter (b, a)). unfold pairLabel in Hafter. cbn [fst snd] in Hafter.
    rewrite (list_lookup_total_correct _ _ _ Ha),
      (list_lookup_total_correct _ _ _ Hb) in Hafter.
    rewrite (Hfree p q).
    + apply Hafter, elem_of_indexPairs. split; [lia|].
      by eapply lookup_lt_Some.
    + by eapply list_elem_of_lookup_2.
    + by eapply list_elem_of_lookup_2.
Qed.

(** C5, amended.  When every pair the loops visit has its label in the
    [generated] table, an invocation whose reads return rows computes no
    missing pair, submits nothing, inserts nothing and leaves the table as
    it was; when the configuration is present it answers 200 with a
    message.  That is so after a run in which nothing failed, every read
    returned rows and nobody else wrote to the table, provided the store
    returns the people in the order in which that run read them, or the
    label of every two of them is the same in both orders; the [select]
    has no [order], and without either an invocation may generate a pair a
    second time. *)
Theorem nothing_missing_nothing_done (w : World) :
  all_generated w ∨ later_than_complete_run w →
  ∃ resp w' evs,
    POST w = (Returned resp, w') ∧ run w w' evs ∧
    (reads_succeeded evs →
     missingPairs (people w) (list_to_set (names_of (generated w))) = [] ∧
     submits evs = [] ∧ inserts evs = [] ∧ generated w' = generated w ∧
     (configured (env w) →
      status resp = 200 ∧
      (body resp =
         [("message", JString "All combinations already generated")] ∨
       ((length (people w) < 2)%nat ∧
        body resp = [("message", JString "Not enough people yet")])))).
Proof.
  intros Hdone.
  assert (all_generated w) as Hall.
  { destruct Hdone as [?|?]; [done|by apply later_run_all_generated]. }
  clear Hdone.
  destruct (POST_run w) as (resp & w' & evs & Hpost & Hw & Hout).
  exists resp, w', evs. do 2 (split; [done|]). intros Hreads.
  split.
  { apply all_generated_nothing_missing; [done|].
    intros n. apply elem_of_list_to_set. }
  assert (inserts evs = [] → generated w' = generated w) as Hgen.
  { intros Hi. rewrite (run_generated _ _ _ Hw), (inserts_nil_stored _ Hi).
    apply app_nil_r. }
  destruct Hout as [Hk|Hk Hs|e Hc|p Hc Hp Hlen|e Hc Hlen|g Hc Hlen Hg Hm
                    |g submitted results evs_s evs_p Hc Hlen Hg Hm].
  - do 2 (split; [done|]). split; [by apply Hgen|].
    intros Hc. by destruct (not_configured (env w)); auto.
  - do 2 (split; [done|]). split; [by apply Hgen|].
    intros Hc. by destruct (not_configured (env w)); tauto.
  - destruct (Hreads (EvSelectPeople (mkSelectResult None (Some e))));
      [by left|done].
  - do 2 (split; [done|]). split; [by apply Hgen|]. intros _.
    split; [done|]. right. split; [|done].
    destruct Hlen as [Hnone|Hlen]; [|done].
    destruct (Hreads (EvSelectPeople p)); [by left|done].
  - destruct (Hreads (EvSelectGenerated (mkSelectResult None (Some e))));
      [by left|done].
  - do 2 (split; [done|]). split; [by apply Hgen|]. intros _.
    split; [done|]. by left.
  - destruct Hm. apply all_generated_nothing_missing; [done|].
    intros n. apply names_read_rows. apply (read_of_rows _ _ Hg).
    apply (Hreads (EvSelectGenerated g)).
    apply elem_of_app. right. apply elem_of_app. right.
    apply list_elem_of_In. cbn. auto.
Qed.

End Claims.

(** * Runs of the worker on the example worlds *)

(** A conflict on insert, run: the job is fulfilled and the invocation
    reports it as succeeded. *)
Example conflict_run :
  ∃ w', POST (collation := canonicalCompare) world_conflict
        = (Returned (summary_response 1 1 1 0), w') ∧
        generated w' = [] ∧
        inserts (trace w')
          = [(Generated.mk "Alice x Bob"
                "https://out/https://img/alice.png+https://img/bob.png",
              Some (mkPostgrestError "duplicate key" "23505"))].
Proof. eexists. vm_compute. by repeat split. Qed.

(** Another error on insert, run: the job is rejected, the invocation
    reports it as failed and still answers 200. *)
Example store_down_run :
  ∃ w', POST (collation := canonicalCompare) world_store_down
        = (Returned (summary_response 1 1 0 1), w') ∧
        generated w' = [].
Proof. eexists. vm_compute. by repeat split. Qed.

(** The claim C8 fails where the handler leaves early: with one person
    registered the invocation is not fatal and answers 200, and its body
    has none of [total], [submitted], [succeeded], [failed]. *)
Lemma POST_summary_without_counts :
  ∃ resp w',
    POST (collation := canonicalCompare) world_one = (Returned resp, w') ∧
    configured (env world_one) ∧ read_errors (trace w') = [] ∧
    status resp = 200 ∧
    field "total" resp = None ∧ field "submitted" resp = None ∧
    field "succeeded" resp = None ∧ field "failed" resp = None.
Proof. do 2 eexists. vm_compute. by repeat split. Qed.

Lemma fewer_than_two_people_witness :
  ∃ resp w' evs,
    POST (collation := canonicalCompare) world_one = (Returned resp, w') ∧
    run world_one w' evs ∧
    submits evs = [] ∧ inserts evs = [] ∧
    generated w' = generated world_one ∧
    (configured (env world_one) → read_errors evs = [] →
     status resp = 200 ∧
     body resp = [("message", JString "Not enough people yet")]).
Proof.
  apply (fewer_than_two_people (collation := canonicalCompare) world_one).
  cbn. lia.
Defined.

(** The claim C6 fails where the configuration is missing: one person in
    the store, no API key, and the answer is 500 with an error. *)
Lemma fewer_than_two_people_no_key :
  (length (people world_one_no_key) < 2)%nat ∧
  ∃ w',
    POST (collation := canonicalCompare) world_one_no_key
      = (Returned (error_response "WAVESPEED_API_KEY not set"), w') ∧
    status (error_response "WAVESPEED_API_KEY not set") = 500.
Proof. split; [cbn; lia|]. eexists. by vm_compute. Qed.

Lemma summary_counts_witness :
  ∃ (total submitted succeeded failed : Z) g evs,
    field "total" (summary_response 2 2 2 0) = Some (JNumber total) ∧
    field "submitted" (summary_response 2 2 2 0) = Some (JNumber submitted) ∧
    field "succeeded" (summary_response 2 2 2 0) = Some (JNumber succeeded) ∧
    field "failed" (summary_response 2 2 2 0) = Some (JNumber failed) ∧
    succeeded + failed = submitted ∧ submitted <= total ∧
    0 <= succeeded ∧ 0 <= failed ∧ 0 <= submitted ∧ 0 <= total ∧
    trace (POST (collation := canonicalCompare) world_three).2
      = evs ++ trace world_three ∧
    EvSelectGenerated g ∈ evs ∧
    total = Z.of_nat (length (missingPairs (collation := canonicalCompare)
                                (people world_three) (names_read g))) ∧
    total = Z.of_nat (length (submits evs)).
Proof.
  apply (summary_counts (collation := canonicalCompare) world_three
           (POST (collation := canonicalCompare) world_three).2
           (summary_response 2 2 2 0) (JNumber 2)).
  - vm_compute. reflexivity.
  - vm_compute. reflexivity.
Defined.

(** The claim C5 fails in three ways.  A second run of the worker with no
    new people does write a record when the first run left a pair behind:
    in [world_flaky] the job of the first run fails, and the second run
    submits the pair again and stores its image.  When every label is in
    the table but the API key is missing, as in [world_done_no_key], the
    invocation answers 500.  And after a run in which nothing failed a
    second run writes again when the store returns the same people in
    another order and the label of two of them depends on the order, as in
    [world_spellings]. *)
Lemma second_run_writes :
  (∃ r1 w1 r2 w2,
     POST (collation := canonicalCompare) world_flaky = (Returned r1, w1) ∧
     POST (collation := canonicalCompare) w1 = (Returned r2, w2) ∧
     people w1 = people world_flaky ∧
     field "failed" r1 = Some (JNumber 1) ∧
     generated w1 = [] ∧
     field "submitted" r2 = Some (JNumber 1) ∧
     generated w2 =
       [Generated.mk "Alice x Bob"
          "https://out/https://img/alice.png+https://img/bob.png"]) ∧
  (all_generated (collation := canonicalCompare) world_done_no_key ∧
   ∃ r w',
     POST (collation := canonicalCompare) world_done_no_key = (Returned r, w') ∧
     status r = 500) ∧
  (∃ w1 w2,
     POST (collation := canonicalCompare) world_spellings
       = (Returned (summary_response 1 1 1 0), w1) ∧
     people (world_spellings_swapped (generated w1))
       ≡ₚ people world_spellings ∧
     POST (collation := canonicalCompare)
          (world_spellings_swapped (generated w1))
       = (Returned (summary_response 1 1 1 0), w2) ∧
     length (generated w1) = 1%nat ∧ length (generated w2) = 2%nat).
Proof.
  split; [|split].
  - do 4 eexists. split; [vm_compute; reflexivity|].
    split; [vm_compute; reflexivity|]. vm_compute. by repeat split.
  - split.
    + intros ij Hij. apply list_elem_of_In in Hij.
      destruct Hij as [<-|[]]. apply list_elem_of_In. vm_compute. auto.
    + do 2 eexists. split; [vm_compute; reflexivity|]. reflexivity.
  - do 2 eexists. split; [vm_compute; reflexivity|].
    split; [apply perm_swap|].
    split; [vm_compute; reflexivity|]. vm_compute. by split.
Qed.

(** ** People who share a name *)

(** C9.  [canonicalName n n] is ["n x n"]; two people who share a name are
    paired like any two people; with a third person they make two
    different pairs with one label, both in the list of missing pairs; and
    in [world_twins] one invocation submits a job for each of the two and
    attempts two inserts under the one label, the second of which hits the
    unique constraint. *)
Theorem shared_names_share_labels :
  (∀ (collation : Collation) (n : string),
     canonicalName n n = n +:+ " x " +:+ n) ∧
  (∀ (collation : Collation) (people : list Person.t)
     (existingNames : gset string) (i j : nat) (pi pj : Person.t),
     (i < j)%nat → people !! i = Some pi → people !! j = Some pj →
     Person.name pi = Person.name pj →
     canonicalName (Person.name pi) (Person.name pj) ∉ existingNames →
     (pi, pj) ∈ missingPairs people existingNames) ∧
  (∀ (collation : Collation) (p1 p2 q : Person.t),
     Person.name p1 = Person.name p2 →
     missingPairs [p1; p2; q] ∅ = [(p1, p2); (p1, q); (p2, q)] ∧
     canonicalName (Person.name p1) (Person.name q)
       = canonicalName (Person.name p2) (Person.name q)) ∧
  (∃ w',
     POST (collation := canonicalCompare) world_twins
       = (Returned (summary_response 3 3 3 0), w') ∧
     rev (submits (trace w')).*1 =
       [(Person.image sam1, Person.image sam2);
        (Person.image sam1, Person.image alex);
        (Person.image sam2, Person.image alex)] ∧
     rev ((λ i, (Generated.name i.1, i.2)) <$> inserts (trace w')) =
       [("Sam x Sam", None); ("Alex x Sam", None);
        ("Alex x Sam", Some unique_violation)] ∧
     names_of (generated w') = ["Sam x Sam"; "Alex x Sam"]).
Proof.
  split; [intros; apply canonicalName_self|].
  split.
  { intros collation people existingNames i j pi pj Hij Hi Hj _ Hn.
    assert (personPair people (i, j) = (pi, pj)) as <-.
    { unfold personPair. cbn.
      by rewrite (list_lookup_total_correct _ _ _ Hi),
                 (list_lookup_total_correct _ _ _ Hj). }
    apply elem_of_missingPairs.
    - apply elem_of_indexPairs. apply lookup_lt_Some in Hj. lia.
    - unfold pairLabel. cbn.
      by rewrite (list_lookup_total_correct _ _ _ Hi),
                 (list_lookup_total_correct _ _ _ Hj). }
  split.
  { intros collation p1 p2 q Hname. split; [|by rewrite Hname].
    rewrite missingPairs_indexPairs.
    change (indexPairs (length [p1; p2; q])) with [(0, 1); (0, 2); (1, 2)]%nat.
    by rewrite !filter_cons_True by apply not_elem_of_empty. }
  eexists. split; [vm_compute; reflexivity|]. vm_compute. by repeat split.
Qed.

(** ** Further runs *)

(** A job that never reaches a terminal state is polled 30 times, 3000 ms
    apart, and times out. *)
Example poll_timeout :
  ∃ w',
    pollResult "job-1" "ws-key" DEFAULT_MAX_ATTEMPTS DEFAULT_INTERVAL_MS
               world_stuck = (Returned None, w') ∧
    length (polls (trace w')) = 30%nat ∧
    sleeps (trace w') = replicate 30 3000 ∧
    head (trace w') = Some (EvLog (LogPollTimeout "job-1" 30)).
Proof. eexists. vm_compute. by repeat split. Qed.

(** A budget below 1 makes no status check. *)
Example poll_no_budget :
  ∃ w',
    pollResult "job-1" "ws-key" (-5) 3000 world_stuck = (Returned None, w') ∧
    polls (trace w') = [].
Proof. eexists. vm_compute. by repeat split. Qed.

(** The invocation with a stuck job reports it as failed, answers 200 and
    leaves the table as it was. *)
Example stuck_run :
  ∃ w',
    POST (collation := canonicalCompare) world_stuck
      = (Returned (summary_response 1 1 0 1), w') ∧
    generated w' = generated world_stuck.
Proof. eexists. vm_compute. by repeat split. Qed.

(** Alice and Bob, nothing generated: one job, for the label
    "Alice x Bob", whose output is stored. *)
Example alice_bob_run :
  ∃ w',
    POST (collation := canonicalCompare)
         (mkWorld env_ok [alice; bob] [] services_ok [])
      = (Returned (summary_response 1 1 1 0), w') ∧
    (submits (trace w')).*1 = [(Person.image alice, Person.image bob)] ∧
    generated w' =
      [Generated.mk "Alice x Bob"
         "https://out/https://img/alice.png+https://img/bob.png"].
Proof. eexists. vm_compute. by repeat split. Qed.

(** The world a run of [world_three] leaves is one left by a complete run:
    a second run finds nothing to do. *)
Example after_complete_run_example :
  after_complete_run (collation := canonicalCompare)
    (POST (collation := canonicalCompare) world_three).2.
Proof.
  exists world_three, (summary_response 2 2 2 0),
    (trace (POST (collation := canonicalCompare) world_three).2).
  split; [vm_compute; reflexivity|].
  split; [by rewrite app_nil_r|].
  split.
  { unfold reads_succeeded. apply Forall_forall. vm_compute.
    by repeat constructor. }
  split; [by intros history row e|].
  vm_compute. split; [done|]. right. by split.
Qed.

Example second_run_idle :
  ∃ w',
    POST (collation := canonicalCompare)
         (POST (collation := canonicalCompare) world_three).2
      = (Returned (message_response "All combinations already generated"), w') ∧
    generated w' = generated (POST (collation := canonicalCompare) world_three).2.
Proof. eexists. vm_compute. by repeat split. Qed.

(** The same when the store returns the three people in another order. *)
Lemma nothing_missing_nothing_done_witness :
  ∃ resp w' evs,
    POST (collation := canonicalCompare)
         (world_three_reread
            (generated (POST (collation := canonicalCompare) world_three).2))
      = (Returned resp, w') ∧
    run (world_three_reread
           (generated (POST (collation := canonicalCompare) world_three).2))
        w' evs ∧
    (reads_succeeded evs →
     missingPairs (collation := canonicalCompare) [carol; alice; bob]
       (list_to_set
          (names_of
             (generated (POST (collation := canonicalCompare) world_three).2)))
       = [] ∧
     submits evs = [] ∧ inserts evs = [] ∧
     generated w'
       = generated (POST (collation := canonicalCompare) world_three).2 ∧
     (configured env_ok →
      status resp = 200 ∧
      (body resp =
         [("message", JString "All combinations already generated")] ∨
       ((length [carol; alice; bob] < 2)%nat ∧
        body resp = [("message", JString "Not enough people yet")])))).
Proof.
  apply (nothing_missing_nothing_done (collation := canonicalCompare)
           (world_three_reread
              (generated
                 (POST (collation := canonicalCompare) world_three).2))).
  right. exists (POST (collation := canonicalCompare) world_three).2.
  split; [apply after_complete_run_example|]. split; [done|].
  right. split.
  - vm_compute. apply (Permutation_cons_append [alice; bob] carol).
  - intros p q Hp Hq. apply list_elem_of_In in Hp, Hq.
    vm_compute in Hp, Hq.
    destruct Hp as [<-|[<-|[<-|[]]]], Hq as [<-|[<-|[<-|[]]]];
      vm_compute; reflexivity.
Defined.

(** The order of [submitted] is the order of arrival: when the answer for
    the second of three pairs comes last, its job is the last to be polled
    and saved; the requests and the counts are as in [world_twins]. *)
Example late_answer_run :
  ∃ submitted w1 w',
    submitAll (collation := canonicalCompare) "ws-key"
      [(sam1, sam2); (sam1, alex); (sam2, alex)] world_twins_late
      = (Returned submitted, w1) ∧
    pair <$> submitted = [(sam1, sam2); (sam2, alex); (sam1, alex)] ∧
    rev (submits (trace w1)).*1 =
      [(Person.image sam1, Person.image sam2);
       (Person.image sam1, Person.image alex);
       (Person.image sam2, Person.image alex)] ∧
    POST (collation := canonicalCompare) world_twins_late
      = (Returned (summary_response 3 3 3 0), w') ∧
    rev ((λ i, Generated.image i.1) <$> inserts (trace w')) =
      ["https://out/https://img/sam-1.png+https://img/sam-2.png";
       "https://out/https://img/sam-2.png+https://img/alex.png";
       "https://out/https://img/sam-1.png+https://img/alex.png"].
Proof. do 3 eexists. vm_compute. by repeat split. Qed.

(** What the order dependence of [canonicalName] does to the worker: the
    pair of [zoe_nfc] and [zoe_nfd] is generated, and when the store hands
    the two rows back in the other order the label is another string, the
    pair counts as missing and is generated a second time. *)
Example swapped_rows_regenerate :
  ∃ w1 w2,
    POST (collation := canonicalCompare) world_spellings
      = (Returned (summary_response 1 1 1 0), w1) ∧
    POST (collation := canonicalCompare)
         (world_spellings_swapped (generated w1))
      = (Returned (summary_response 1 1 1 0), w2) ∧
    names_of (generated w2) =
      [e_acute_nfc +:+ " x " +:+ e_acute_nfd;
       e_acute_nfd +:+ " x " +:+ e_acute_nfc].
Proof.
  do 2 eexists. split; [vm_compute; reflexivity|].
  split; [vm_compute; reflexivity|]. vm_compute. reflexivity.
Qed.

(** * Further properties of the worker *)

(** ** What the generation client logs *)

Lemma trace_run (w w' : World) (evs : list Event) :
  run w w' evs → trace w' = evs ++ trace w.
Proof. apply run_trace. Qed.

Lemma submitJob_events (imageUrl1 imageUrl2 apiKey : string)
    (w : World) :
  ∃ r w' evs,
    submitJob imageUrl1 imageUrl2 apiKey w = (Returned r, w') ∧
    trace w' = evs ++ trace w ∧
    sleeps evs = [] ∧ polls evs = [] ∧ inserts evs = [] ∧
    match r with
    | Some id => logs evs = []
    | None =>
        ∃ entry,
          logs evs = [entry] ∧
          describes entry
            (on_submit (oracle w) (trace w) imageUrl1 imageUrl2 apiKey)
    end.
Proof.
  unfold submitJob, try_catch, bind, fetch_submit.
  destruct (on_submit _ _ _ _ _) as [err|[ok st tx js]] eqn:Hout; cbn.
  { do 3 eexists. split; [reflexivity|]. split; [by apply trace_run; solve_run|].
    do 3 (split; [done|]). eexists. split; [done|]. by left. }
  destruct ok; cbn.
  2:{ do 3 eexists. split; [reflexivity|].
      split; [by apply trace_run; solve_run|].
      do 3 (split; [done|]). eexists. split; [done|]. by eexists. }
  unfold json_of. destruct js as [json|]; cbn.
  2:{ do 3 eexists. split; [reflexivity|].
      split; [by apply trace_run; solve_run|].
      do 3 (split; [done|]). eexists. split; [done|]. right. by eexists. }
  destruct (negb (sr_code json =? 200) || negb (truthy (data_id json)))
    eqn:Hbad; cbn.
  - do 3 eexists. split; [reflexivity|].
    split; [by apply trace_run; solve_run|].
    do 3 (split; [done|]). eexists. split; [done|]. eexists.
    do 3 (split; [done|]).
    apply orb_true_iff in Hbad as [Hbad|Hbad]; apply negb_true_iff in Hbad.
    + left. by apply Z.eqb_neq.
    + by right.
  - apply orb_false_iff in Hbad as [_ Hid]. apply negb_false_iff in Hid.
    apply truthy_Some in Hid as (id & Hid & _). rewrite Hid.
    do 3 eexists. split; [reflexivity|].
    split; [by apply trace_run; solve_run|]. by repeat split.
Qed.

(** X1.  [submitJob] logs nothing when it returns a job identifier, and
    exactly one entry when it returns [null]; that entry tells the cause:
    the HTTP status and the body text of a response that was not ok, the
    parsed body of a response without code 200 or without identifier, or
    the exception of a request that threw or of a body that did not
    parse. *)
Theorem submitJob_logs_failures (imageUrl1 imageUrl2 apiKey : string)
    (w : World) :
  ∃ r w' evs,
    submitJob imageUrl1 imageUrl2 apiKey w = (Returned r, w') ∧
    trace w' = evs ++ trace w ∧
    sleeps evs = [] ∧ polls evs = [] ∧ inserts evs = [] ∧
    match r with
    | Some id => logs evs = []
    | None =>
        ∃ entry,
          logs evs = [entry] ∧
          describes entry
            (on_submit (oracle w) (trace w) imageUrl1 imageUrl2 apiKey)
    end.
Proof. apply submitJob_events. Qed.

Lemma pollAttempt_head (predictionId apiKey : string) (intervalMs attempt : Z)
    (w : World) :
  ∃ step w' evs out,
    pollAttempt predictionId apiKey intervalMs attempt w = (Returned step, w') ∧
    trace w' = evs ++ trace w ∧ polls evs = [out] ∧
    match step with
    | Return _ =>
        ∀ maxAttempts,
          head evs =
            Some (polling_epilogue predictionId apiKey maxAttempts [out])
    | Continue => nonterminal out
    end.
Proof.
  unfold pollAttempt, try_catch, bind, fetch_result, sleep. cbn.
  destruct (on_poll _ _ _ _) as [err|[ok st tx js]] eqn:Hout; cbn.
  { do 4 eexists. split; [reflexivity|].
    split; [by apply trace_run; solve_run|]. by split. }
  destruct ok; cbn.
  2:{ do 4 eexists. split; [reflexivity|].
      split; [by apply trace_run; solve_run|]. by split. }
  unfold json_of. destruct js as [json|]; cbn.
  2:{ do 4 eexists. split; [reflexivity|].
      split; [by apply trace_run; solve_run|]. by split. }
  unfold data_status, first_output, data_error.
  destruct json as [code [[id st' outs e]|]]; cbn.
  2:{ do 4 eexists. split; [reflexivity|].
      split; [by apply trace_run; solve_run|]. by split. }
  destruct st'; cbn.
  - do 4 eexists. split; [reflexivity|].
    split; [by apply trace_run; solve_run|]. split; [done|].
    unfold nonterminal. cbn. by left.
  - do 4 eexists. split; [reflexivity|].
    split; [by apply trace_run; solve_run|]. split; [done|].
    unfold nonterminal. cbn. by right.
  - do 4 eexists. split; [reflexivity|].
    split; [by apply trace_run; solve_run|]. by split.
  - do 4 eexists. split; [reflexivity|].
    split; [by apply trace_run; solve_run|]. by split.
Qed.

Lemma polling_epilogue_snoc (predictionId apiKey : string) (maxAttempts : Z)
    (ps : list (FetchOutcome WaveSpeedResultResponse))
    (out : FetchOutcome WaveSpeedResultResponse) :
  nonterminal out →
  polling_epilogue predictionId apiKey maxAttempts (ps ++ [out])
  = polling_epilogue predictionId apiKey maxAttempts ps.
Proof.
  intros Hout. destruct ps as [|last ps]; [|done]. cbn.
  unfold nonterminal in Hout. destruct (observed out) as [d|]; [|done].
  by destruct (rd_status d), Hout.
Qed.

Lemma pollLoop_head (predictionId apiKey : string) (maxAttempts intervalMs : Z)
    (remaining : nat) (attempt : Z) (w : World) :
  ∃ r w' evs,
    pollLoop predictionId apiKey maxAttempts intervalMs remaining attempt w
      = (Returned r, w') ∧
    trace w' = evs ++ trace w ∧
    head evs =
      Some (polling_epilogue predictionId apiKey maxAttempts (polls evs)).
Proof.
  revert attempt w. induction remaining as [|n IH]; intros attempt w.
  { cbn. unfold bind, console, ret. do 3 eexists. split; [reflexivity|].
    split; [by apply trace_run; solve_run|]. done. }
  destruct (pollAttempt_head predictionId apiKey intervalMs attempt w)
    as (step & w1 & evs1 & out & Hrun & Ht1 & Hp & Hstep).
  cbn [pollLoop]. unfold bind at 1. rewrite Hrun.
  destruct step as [|r].
  - destruct (IH (attempt + 1) w1) as (r & w2 & evs2 & Hrun2 & Ht2 & Hhead).
    exists r, w2, (evs2 ++ evs1). split; [done|].
    split; [by rewrite Ht2, Ht1, app_assoc|].
    rewrite polls_app, Hp, polling_epilogue_snoc by done.
    destruct evs2; [done|]. exact Hhead.
  - exists r, w1, evs1. split; [done|]. split; [done|].
    rewrite Hp. apply Hstep.
Qed.

Lemma logs_app (e2 e1 : list Event) : logs (e2 ++ e1) = logs e2 ++ logs e1.
Proof. apply omap_app. Qed.

Lemma logs_entries (entries : list LogEntry) : logs (EvLog <$> entries) = entries.
Proof. induction entries as [|e entries IH]; [done|]. cbn. by f_equal. Qed.

Lemma polls_entries (entries : list LogEntry) : polls (EvLog <$> entries) = [].
Proof. by induction entries. Qed.

Lemma sleeps_entries (entries : list LogEntry) : sleeps (EvLog <$> entries) = [].
Proof. by induction entries. Qed.

(** ** Pauses and status checks *)

Lemma paced_quiet (ms : Z) (evs : list Event) :
  polls evs = [] → sleeps evs = [] → paced ms evs.
Proof.
  intros Hp Hs. split.
  - intros later id key out earlier ->. rewrite polls_app in Hp.
    by apply app_nil in Hp as [_ ?].
  - intros later ms' earlier ->. rewrite sleeps_app in Hs.
    by apply app_nil in Hs as [_ ?].
Qed.

Lemma paced_check (ms : Z) (predictionId apiKey : string)
    (out : FetchOutcome WaveSpeedResultResponse) :
  paced ms [EvPoll predictionId apiKey out; EvSleep ms].
Proof.
  split.
  - intros later id key out' earlier Heq.
    destruct later as [|? [|? [|? ?]]]; simplify_eq/=. by eexists.
  - intros later ms' earlier Heq.
    destruct later as [|? [|? [|? ?]]]; simplify_eq/=. split; [done|].
    by exists predictionId, apiKey, out, [].
Qed.

Lemma paced_app (ms : Z) (e2 e1 : list Event) :
  paced ms e2 → paced ms e1 → paced ms (e2 ++ e1).
Proof.
  intros [Hc2 Hs2] [Hc1 Hs1]. split.
  - intros later id key out earlier Heq.
    apply app_eq_inv in Heq as [(k & -> & Hk)|(k & -> & ->)].
    + destruct k as [|ev k]; cbn in Hk.
      * subst e1. destruct (Hc1 [] id key out earlier eq_refl) as [e' ->].
        by eexists.
      * injection Hk as <- ->.
        destruct (Hc2 later id key out k eq_refl) as [e' ->]. by eexists.
    + by apply (Hc1 k id key out earlier).
  - intros later ms' earlier Heq.
    apply app_eq_inv in Heq as [(k & -> & Hk)|(k & -> & ->)].
    + destruct k as [|ev k]; cbn in Hk.
      * subst e1. destruct (Hs1 [] ms' earlier eq_refl)
          as (_ & ? & ? & ? & later' & Hnil).
        by destruct later'.
      * injection Hk as <- ->. by apply (Hs2 later ms' k).
    + destruct (Hs1 k ms' earlier eq_refl)
        as (-> & id & key & out & later' & ->).
      split; [done|]. exists id, key, out, (e2 ++ later').
      by rewrite app_assoc.
Qed.

(** One turn of the loop: the pause, the status check, and what the check
    makes the loop log. *)
Lemma pollAttempt_events (predictionId apiKey : string)
    (intervalMs attempt : Z) (w : World) :
  ∃ step w' out,
    pollAttempt predictionId apiKey intervalMs attempt w = (Returned step, w') ∧
    trace w' = (EvLog <$> check_log predictionId attempt out)
               ++ [EvPoll predictionId apiKey out; EvSleep intervalMs]
               ++ trace w ∧
    match step with
    | Return _ => terminal out = true
    | Continue => terminal out = false
    end.
Proof.
  unfold pollAttempt, try_catch, bind, fetch_result, sleep. cbn.
  destruct (on_poll _ _ _ _) as [err|[ok st tx js]] eqn:Hout; cbn.
  { do 2 eexists. exists (Rejects err). by repeat split. }
  destruct ok; cbn.
  2:{ do 2 eexists. exists (Resolves (mkFetchResponse false st tx js)).
      by repeat split. }
  unfold json_of. destruct js as [json|]; cbn.
  2:{ do 2 eexists. exists (Resolves (mkFetchResponse true st tx None)).
      by repeat split. }
  unfold data_status, first_output, data_error.
  destruct json as [code [[id st' outs e]|]]; cbn.
  2:{ do 2 eexists.
      exists (Resolves (mkFetchResponse true st tx
                          (Some (mkResultResponse code None)))).
      by repeat split. }
  destruct st' eqn:Hst; cbn;
    (do 2 eexists;
     exists (Resolves (mkFetchResponse true st tx
               (Some (mkResultResponse code
                        (Some (mkResultData id st' outs e))))));
     subst st'; by repeat split).
Qed.

Lemma check_logs_snoc (predictionId : string) (first : Z)
    (ps : list (FetchOutcome WaveSpeedResultResponse))
    (out : FetchOutcome WaveSpeedResultResponse) :
  check_logs predictionId first (ps ++ [out])
  = check_logs predictionId (first + 1) ps ++ check_log predictionId first out.
Proof.
  induction ps as [|p ps IH]; cbn.
  - by rewrite Z.add_0_r, app_nil_r.
  - rewrite IH, length_app, <- app_assoc. cbn. do 2 f_equal. lia.
Qed.

Lemma timeout_log_snoc (predictionId : string) (maxAttempts : Z)
    (ps : list (FetchOutcome WaveSpeedResultResponse))
    (out : FetchOutcome WaveSpeedResultResponse) :
  terminal out = false →
  timeout_log predictionId maxAttempts (ps ++ [out])
  = timeout_log predictionId maxAttempts ps.
Proof. intros Hout. destruct ps; cbn; [by rewrite Hout|done]. Qed.

(** The loop: what it logs, and when it pauses. *)
Lemma pollLoop_events (predictionId apiKey : string)
    (maxAttempts intervalMs : Z) (remaining : nat) (attempt : Z) (w : World) :
  ∃ r w' evs,
    pollLoop predictionId apiKey maxAttempts intervalMs remaining attempt w
      = (Returned r, w') ∧
    trace w' = evs ++ trace w ∧
    logs evs = timeout_log predictionId maxAttempts (polls evs)
               ++ check_logs predictionId attempt (polls evs) ∧
    paced intervalMs evs.
Proof.
  revert attempt w. induction remaining as [|n IH]; intros attempt w.
  { cbn. unfold bind, console, ret. do 3 eexists. split; [reflexivity|].
    split; [by apply trace_run; solve_run|]. split; [done|].
    by apply paced_quiet. }
  destruct (pollAttempt_events predictionId apiKey intervalMs attempt w)
    as (step & w1 & out & Hrun & Ht1 & Hstep).
  cbn [pollLoop]. unfold bind at 1. rewrite Hrun.
  set (evs1 := (EvLog <$> check_log predictionId attempt out)
               ++ [EvPoll predictionId apiKey out; EvSleep intervalMs]) in *.
  assert (trace w1 = evs1 ++ trace w) as Ht1'.
  { unfold evs1. by rewrite <- app_assoc. }
  assert (polls evs1 = [out]) as Hp1.
  { unfold evs1. by rewrite polls_app, polls_entries. }
  assert (logs evs1 = check_log predictionId attempt out) as Hl1.
  { unfold evs1. by rewrite logs_app, logs_entries, app_nil_r. }
  assert (paced intervalMs evs1) as Hpaced1.
  { apply paced_app; [|apply paced_check].
    apply paced_quiet; [apply polls_entries|apply sleeps_entries]. }
  destruct step as [|r].
  - destruct (IH (attempt + 1) w1) as (r & w2 & evs2 & Hrun2 & Ht2 & Hl2 & Hp2).
    exists r, w2, (evs2 ++ evs1). split; [done|].
    split; [by rewrite Ht2, Ht1', app_assoc|].
    split; [|by apply paced_app].
    rewrite logs_app, polls_app, Hp1, Hl1, Hl2, check_logs_snoc,
      timeout_log_snoc by done.
    by rewrite <- app_assoc.
  - exists r, w1, evs1. split; [done|]. split; [done|]. split; [|done].
    rewrite Hl1, Hp1. cbn. by rewrite Hstep, Z.add_0_r, app_nil_r.
Qed.

(** X2.  What a call of [pollResult] logs is decided by the answers to its
    status checks: for each check, in order, the exception when the
    request threw or the body did not parse and the remote error when it
    saw [failed], and at the end the time-out when no check saw
    [completed] or [failed].  Its last event is the time-out entry, the
    entry with the remote error, or, after [completed], the status check
    itself: a check that saw [completed] adds no entry, also when there
    are no outputs and the result is [null], and the log then holds only
    what the checks before it logged. *)
Theorem pollResult_last_event (predictionId apiKey : string)
    (maxAttempts intervalMs : Z) (w : World) :
  ∃ r w' evs,
    pollResult predictionId apiKey maxAttempts intervalMs w = (Returned r, w') ∧
    trace w' = evs ++ trace w ∧
    logs evs = timeout_log predictionId maxAttempts (polls evs)
               ++ check_logs predictionId 0 (polls evs) ∧
    head evs =
      Some (polling_epilogue predictionId apiKey maxAttempts (polls evs)) ∧
    (∀ last earlier d,
       polls evs = last :: earlier → observed last = Some d →
       rd_status d = completed → output_of d = None →
       r = None ∧ head evs = Some (EvPoll predictionId apiKey last) ∧
       logs evs = check_logs predictionId 0 earlier) ∧
    (∀ last earlier d,
       polls evs = last :: earlier → observed last = Some d →
       rd_status d = failed →
       r = None ∧
       head evs =
         Some (EvLog (LogPredictionFailed predictionId (rd_error d))) ∧
       logs evs = LogPredictionFailed predictionId (rd_error d)
                  :: check_logs predictionId 0 earlier).
Proof.
  unfold pollResult.
  destruct (pollLoop_head predictionId apiKey maxAttempts intervalMs
              (Z.to_nat maxAttempts) 0 w) as (r & w' & evs & Hrun & Ht & Hhead).
  destruct (pollLoop_run predictionId apiKey maxAttempts intervalMs
              (Z.to_nat maxAttempts) 0 w)
    as (r' & w'' & evs' & Hrun' & Hw & _ & _ & _ & _ & _ & _ & Hout & _).
  rewrite Hrun in Hrun'. injection Hrun' as <- <-.
  rewrite (run_trace _ _ _ Hw) in Ht. apply app_inv_tail in Ht as ->.
  destruct (pollLoop_events predictionId apiKey maxAttempts intervalMs
              (Z.to_nat maxAttempts) 0 w)
    as (r' & w'' & evs' & Hrun' & Ht' & Hlogs & _).
  rewrite Hrun in Hrun'. injection Hrun' as <- <-.
  rewrite (run_trace _ _ _ Hw) in Ht'. apply app_inv_tail in Ht' as <-.
  exists r, w', evs. split; [done|]. split; [apply (run_trace _ _ _ Hw)|].
  do 2 (split; [done|]). split.
  - intros last earlier d Hp Hd Hs Ho. rewrite Hp in Hhead, Hout, Hlogs.
    cbn in Hhead, Hout. rewrite Hd, Hs in Hhead, Hout.
    destruct Hout as [_ ->]. split; [by rewrite Ho|]. split; [done|].
    rewrite Hlogs. cbn. unfold terminal. rewrite Hd, Hs. cbn.
    assert (check_log predictionId (0 + Z.of_nat (length earlier)) last = [])
      as ->; [|done].
    unfold check_log, observed in *. destruct last as [err|res]; [done|].
    destruct (res_ok res); [|done]. destruct (res_json res); [|done].
    rewrite Hd. by rewrite Hs.
  - intros last earlier d Hp Hd Hs. rewrite Hp in Hhead, Hout, Hlogs.
    cbn in Hhead, Hout. rewrite Hd, Hs in Hhead, Hout.
    destruct Hout as [_ ->]. do 2 (split; [done|]).
    rewrite Hlogs. cbn. unfold terminal. rewrite Hd, Hs. cbn.
    assert (check_log predictionId (0 + Z.of_nat (length earlier)) last
            = [LogPredictionFailed predictionId (rd_error d)]) as ->; [|done].
    unfold check_log, observed in *. destruct last as [err|res]; [done|].
    destruct (res_ok res); [|done]. destruct (res_json res); [|done].
    rewrite Hd. by rewrite Hs.
Qed.

(** ** The phases, event by event *)

Section MorePhases.

Context {collation : Collation}.

Lemma submitPairs_quiet (apiKey : string)
    (pairs : list (Person.t * Person.t)) (acc : list Job) (w : World) :
  ∃ submitted w' evs,
    foldM (submitPair apiKey) pairs acc w = (Returned submitted, w') ∧
    trace w' = evs ++ trace w ∧
    sleeps evs = [] ∧ polls evs = [] ∧ inserts evs = [].
Proof.
  revert acc w. induction pairs as [|p pairs IH]; intros acc w.
  { by exists acc, w, []. }
  cbn [foldM]. unfold bind at 1, submitPair, bind at 1.
  destruct (submitJob_events (Person.image p.1) (Person.image p.2)
              apiKey w) as (r & w1 & evs1 & -> & Ht1 & Hs1 & Hp1 & Hi1 & _).
  destruct (truthy r).
  - destruct (IH (acc ++ [mkJob p (default "" r)
                            (canonicalName (Person.name p.1)
                                           (Person.name p.2))]) w1)
      as (submitted & w2 & evs2 & Hrun & Ht2 & Hs2 & Hp2 & Hi2).
    exists submitted, w2, (evs2 ++ evs1). split; [done|].
    split; [by rewrite Ht2, Ht1, app_assoc|].
    by rewrite sleeps_app, polls_app, inserts_app, Hs1, Hs2, Hp1, Hp2, Hi1, Hi2.
  - destruct (IH acc w1)
      as (submitted & w2 & evs2 & Hrun & Ht2 & Hs2 & Hp2 & Hi2).
    exists submitted, w2, (evs2 ++ evs1). split; [done|].
    split; [by rewrite Ht2, Ht1, app_assoc|].
    by rewrite sleeps_app, polls_app, inserts_app, Hs1, Hs2, Hp1, Hp2, Hi1, Hi2.
Qed.

Lemma submitAll_quiet (apiKey : string) (pairs : list (Person.t * Person.t))
    (w : World) :
  ∃ submitted w' evs,
    submitAll apiKey pairs w = (Returned submitted, w') ∧
    trace w' = evs ++ trace w ∧
    sleeps evs = [] ∧ polls evs = [] ∧ inserts evs = [].
Proof.
  destruct (submitPairs_quiet apiKey pairs [] w)
    as (pushed & w' & evs & Hrun & Ht & Hs & Hp & Hi).
  unfold submitAll, bind, arrive. rewrite Hrun. by do 3 eexists.
Qed.

(** What one job of step 5 adds to the trace after its polling: nothing
    when there is no output, the insert when the store refuses it, the
    insert and the entry "saved" otherwise. *)
Lemma pollAndSave_shape (apiKey : string) (job : Job) (w : World) :
  ∃ outputUrl w1 evs1 r w' post,
    pollResult (predictionId job) apiKey
               DEFAULT_MAX_ATTEMPTS DEFAULT_INTERVAL_MS w
      = (Returned outputUrl, w1) ∧
    trace w1 = evs1 ++ trace w ∧
    (length (polls evs1) ≤ 30)%nat ∧
    sleeps evs1 = replicate (length (polls evs1)) 3000 ∧
    inserts evs1 = [] ∧
    settle (pollAndSave apiKey job) w = (Returned r, w') ∧
    trace w' = post ++ evs1 ++ trace w ∧
    ((truthy outputUrl = false ∧ post = [] ∧ is_rejected r) ∨
     (∃ url e,
        outputUrl = Some url ∧ url ≠ "" ∧ pg_code e ≠ "23505" ∧
        post = [EvInsert (Generated.mk (canonName job) url) (Some e)] ∧
        is_rejected r) ∨
     (∃ url err,
        outputUrl = Some url ∧ url ≠ "" ∧
        accepted (Generated.mk (canonName job) url, err) = true ∧
        post = [EvLog (LogSaved (canonName job));
                EvInsert (Generated.mk (canonName job) url) err] ∧
        is_fulfilled r)).
Proof.
  unfold pollResult at 1.
  destruct (pollLoop_run (predictionId job) apiKey DEFAULT_MAX_ATTEMPTS
              DEFAULT_INTERVAL_MS (Z.to_nat DEFAULT_MAX_ATTEMPTS) 0 w)
    as (out & w1 & evs1 & Hrun & Hw1 & Hlen & Hsl & _ & Hi1 & _).
  exists out, w1, evs1.
  unfold settle, pollAndSave, bind at 1, pollResult. rewrite Hrun.
  pose proof (run_trace _ _ _ Hw1) as Ht1.
  destruct out as [url|]; cbn [truthy negb].
  2:{ exists (rejected ("No output for " +:+ canonName job)), w1, [].
      do 5 (split; [done|]). split; [done|]. split; [done|]. by left. }
  destruct (decide (url = "")) as [->|Hne].
  { cbn. exists (rejected ("No output for " +:+ canonName job)), w1, [].
    do 5 (split; [done|]). split; [done|]. split; [done|]. by left. }
  apply String.eqb_neq in Hne as Hneb. rewrite Hneb. cbn [negb default].
  unfold bind, db_insert_generated.
  destruct (on_insert _ _ _) as [e|] eqn:Hins.
  - destruct (decide (pg_code e = "23505")) as [Hc|Hc].
    + apply String.eqb_eq in Hc as Hcb. rewrite Hcb. cbn.
      do 2 eexists.
      exists [EvLog (LogSaved (canonName job));
              EvInsert (Generated.mk (canonName job) url) (Some e)].
      do 5 (split; [done|]). split; [reflexivity|].
      split; [cbn; by rewrite Ht1|]. right. right. exists url, (Some e).
      by repeat split.
    + apply String.eqb_neq in Hc as Hcb. rewrite Hcb. cbn.
      do 2 eexists.
      exists [EvInsert (Generated.mk (canonName job) url) (Some e)].
      do 5 (split; [done|]). split; [reflexivity|].
      split; [cbn; by rewrite Ht1|]. right. left. by exists url, e.
  - cbn [Generated.name]. destruct (has_name _ _) eqn:Hhas; cbn.
    + do 2 eexists.
      exists [EvLog (LogSaved (canonName job));
              EvInsert (Generated.mk (canonName job) url)
                       (Some unique_violation)].
      do 5 (split; [done|]). split; [reflexivity|].
      split; [cbn; by rewrite Ht1|]. right. right.
      exists url, (Some unique_violation). by repeat split.
    + do 2 eexists.
      exists [EvLog (LogSaved (canonName job));
              EvInsert (Generated.mk (canonName job) url) None].
      do 5 (split; [done|]). split; [reflexivity|].
      split; [cbn; by rewrite Ht1|]. right. right. exists url, None.
      by repeat split.
Qed.

Lemma filter_accepted_cons (i : Generated.t * option PostgrestError)
    (l : list (Generated.t * option PostgrestError)) :
  length (filter accepted (i :: l)) =
  ((if accepted i then 1 else 0) + length (filter accepted l))%nat.
Proof.
  destruct (accepted i) eqn:Hi.
  - rewrite filter_cons_True; [done|]. rewrite Hi. exact I.
  - rewrite filter_cons_False; [done|]. rewrite Hi. intros [].
Qed.

Lemma filter_fulfilled_cons (r : Settled string) (l : list (Settled string)) :
  length (filter is_fulfilled (r :: l)) =
  ((if is_fulfilled r then 1 else 0) + length (filter is_fulfilled l))%nat.
Proof.
  destruct r as [v|e]; cbn [is_fulfilled].
  - by rewrite (filter_cons_True is_fulfilled) by exact I.
  - by rewrite (filter_cons_False is_fulfilled) by (intros []).
Qed.

(** The accounts of step 5 over all the jobs. *)
Lemma pollAll_accounts (apiKey : string) (jobs : list Job) (w : World) :
  ∃ results w' evs,
    mapM (λ job, settle (pollAndSave apiKey job)) jobs w
      = (Returned results, w') ∧
    trace w' = evs ++ trace w ∧
    (length (polls evs) ≤ 30 * length jobs)%nat ∧
    sleeps evs = replicate (length (polls evs)) 3000 ∧
    (length (inserts evs) ≤ length jobs)%nat ∧
    length (filter is_fulfilled results) = length (filter accepted (inserts evs)) ∧
    Forall (λ i, Generated.image i.1 ≠ "" ∧
                 Generated.name i.1 ∈ canonName <$> jobs) (inserts evs).
Proof.
  revert w. induction jobs as [|job jobs IH]; intros w.
  { exists [], w, []. by repeat split. }
  destruct (pollAndSave_shape apiKey job w)
    as (out & w0 & evs1 & r & w1 & post & _ & _ & Hlen1 & Hsl1 & Hi1 & Hrun1
        & Ht1 & Hpost).
  destruct (IH w1) as (rs & w2 & evs2 & Hrun2 & Ht2 & Hlen2 & Hsl2 & Hil2
                       & Hacc2 & Hrows2).
  exists (r :: rs), w2, (evs2 ++ post ++ evs1).
  cbn [mapM]. unfold bind at 1. rewrite Hrun1. unfold bind at 1.
  rewrite Hrun2. split; [done|].
  split; [by rewrite Ht2, Ht1, !app_assoc|].
  assert (polls post = [] ∧ sleeps post = [] ∧
          (length (inserts post) ≤ 1)%nat ∧
          (if is_fulfilled r then 1 else 0)%nat
            = length (filter accepted (inserts post)) ∧
          Forall (λ i, Generated.image i.1 ≠ "" ∧
                       Generated.name i.1 = canonName job) (inserts post))
    as (Hpp & Hsp & Hip & Hap & Hrp).
  { destruct Hpost as [(_ & -> & Hr)|[(url & e & _ & Hne & Hc & -> & Hr)
                                     |(url & err & _ & Hne & Hacc & -> & Hr)]].
    - destruct r; [done|]. do 2 (split; [done|]). split; [cbn; lia|].
      split; [done|]. constructor.
    - destruct r; [done|]. do 2 (split; [done|]). split; [cbn; lia|].
      split.
      + change (inserts [EvInsert (Generated.mk (canonName job) url) (Some e)])
          with [(Generated.mk (canonName job) url, Some e)].
        rewrite filter_accepted_cons. unfold accepted. cbn.
        apply String.eqb_neq in Hc. by rewrite Hc.
      + by repeat constructor.
    - destruct r; [|done]. do 2 (split; [done|]). split; [cbn; lia|].
      split.
      + change (inserts [EvLog (LogSaved (canonName job));
                         EvInsert (Generated.mk (canonName job) url) err])
          with [(Generated.mk (canonName job) url, err)].
        rewrite filter_accepted_cons. by rewrite Hacc.
      + by repeat constructor. }
  rewrite !polls_app, !sleeps_app, !inserts_app, Hpp, Hsp, Hi1, Hsl1, Hsl2.
  cbn [app]. rewrite app_nil_r, !length_app, filter_app, length_app.
  rewrite filter_fulfilled_cons, Hacc2, Hap. cbn [length].
  split; [lia|]. split; [by rewrite replicate_add|]. split; [lia|].
  split; [lia|].
  apply Forall_app. split.
  - eapply Forall_impl; [exact Hrows2|]. intros i [? ?]. split; [done|].
    cbn. by right.
  - eapply Forall_impl; [exact Hrp|]. intros i [? ->]. split; [done|].
    cbn. by left.
Qed.

(** Step 5 pauses before every status check and at no other time. *)
Lemma pollAll_paced (apiKey : string) (jobs : list Job) (w : World) :
  ∃ results w' evs,
    mapM (λ job, settle (pollAndSave apiKey job)) jobs w
      = (Returned results, w') ∧
    trace w' = evs ++ trace w ∧
    paced 3000 evs.
Proof.
  revert w. induction jobs as [|job jobs IH]; intros w.
  { exists [], w, []. do 2 (split; [done|]). by apply paced_quiet. }
  destruct (pollAndSave_shape apiKey job w)
    as (out & w0 & evs1 & r & w1 & post & Hpoll & Ht0 & _ & _ & _ & Hrun1
        & Ht1 & Hpost).
  destruct (pollLoop_events (predictionId job) apiKey DEFAULT_MAX_ATTEMPTS
              DEFAULT_INTERVAL_MS (Z.to_nat DEFAULT_MAX_ATTEMPTS) 0 w)
    as (out' & w0' & evs1' & Hpoll' & Ht0' & _ & Hpaced1).
  unfold pollResult in Hpoll. rewrite Hpoll in Hpoll'.
  injection Hpoll' as <- <-.
  rewrite Ht0 in Ht0'. apply app_inv_tail in Ht0' as <-.
  destruct (IH w1) as (rs & w2 & evs2 & Hrun2 & Ht2 & Hpaced2).
  exists (r :: rs), w2, (evs2 ++ post ++ evs1).
  cbn [mapM]. unfold bind at 1. rewrite Hrun1. unfold bind at 1.
  rewrite Hrun2. split; [done|].
  split; [by rewrite Ht2, Ht1, !app_assoc|].
  apply paced_app; [done|]. apply paced_app; [|exact Hpaced1].
  destruct Hpost as [(_ & -> & _)|[(url & e & _ & _ & _ & -> & _)
                                  |(url & err & _ & _ & _ & -> & _)]];
    by apply paced_quiet.
Qed.

End MorePhases.

Section MoreHandler.

Context {collation : Collation}.

(** An invocation either leaves before step 4, having done nothing but
    read, or runs the two phases one after the other. *)
Lemma POST_phases (w : World) :
  ∃ resp w' evs,
    POST w = (Returned resp, w') ∧ trace w' = evs ++ trace w ∧
    ((field "total" resp = None ∧ field "submitted" resp = None ∧
      field "succeeded" resp = None ∧
      sleeps evs = [] ∧ polls evs = [] ∧ inserts evs = [] ∧
      submits evs = [] ∧ logs evs = [] ∧ (length evs ≤ 2)%nat) ∨
     (∃ g w2 submitted w3 evs_s results evs_p,
        env w2 = env w ∧
        sel_error g = None ∧
        submitAll (default "" (WAVESPEED_API_KEY (env w)))
                  (missingPairs (people w) (names_read g)) w2
          = (Returned submitted, w3) ∧
        trace w3 = evs_s ++ trace w2 ∧
        mapM (λ job, settle (pollAndSave
                               (default "" (WAVESPEED_API_KEY (env w))) job))
             submitted w3
          = (Returned results, w') ∧
        trace w' = evs_p ++ trace w3 ∧
        people w2 = people w ∧ generated w2 = generated w ∧
        oracle w2 = oracle w ∧
        evs = evs_p ++ evs_s ++
              [EvLog (LogGenerating
                        (Z.of_nat (length (missingPairs (people w)
                                             (names_read g)))));
               EvSelectGenerated g;
               EvSelectPeople (mkSelectResult (Some (people w)) None)] ∧
        resp = summary_response
                 (length (missingPairs (people w) (names_read g)))
                 (length submitted)
                 (length (filter is_fulfilled results))
                 (length (filter is_rejected results)))).
Proof.
  unfold POST, bind, getenv.
  destruct (truthy (WAVESPEED_API_KEY (env w))); cbn [negb].
  2:{ exists (error_response "WAVESPEED_API_KEY not set"), w, [].
      split; [done|]. split; [done|]. left. cbn. by repeat split; try lia. }
  destruct (truthy (NEXT_PUBLIC_SUPABASE_URL (env w))); cbn [negb orb].
  2:{ exists (error_response "Supabase env vars not set"), w, [].
      split; [done|]. split; [done|]. left. cbn. by repeat split; try lia. }
  destruct (truthy (SUPABASE_SERVICE_ROLE_KEY (env w))); cbn [negb].
  2:{ exists (error_response "Supabase env vars not set"), w, [].
      split; [done|]. split; [done|]. left. cbn. by repeat split; try lia. }
  unfold db_select_people.
  destruct (on_select_people (oracle w) (trace w)) as [| |e];
    cbn [read sel_error sel_data].
  3:{ do 2 eexists. exists [EvSelectPeople (mkSelectResult None (Some e))].
      split; [done|]. split; [done|]. left. cbn. by repeat split; try lia. }
  2:{ do 2 eexists. exists [EvSelectPeople (mkSelectResult None None)].
      split; [done|]. split; [done|]. left. cbn. by repeat split; try lia. }
  destruct (length (people w) <? 2)%nat.
  { do 2 eexists.
    exists [EvSelectPeople (mkSelectResult (Some (people w)) None)].
    split; [done|]. split; [done|]. left. cbn. by repeat split; try lia. }
  unfold db_select_generated. cbn [oracle trace generated record].
  set (p := EvSelectPeople _).
  set (g := read _ _).
  destruct (sel_error g) as [e|] eqn:Hgerr.
  { do 2 eexists. exists [EvSelectGenerated g; p].
    split; [done|]. split; [done|]. left. cbn. by repeat split; try lia. }
  fold (names_read g).
  destruct (length (missingPairs (people w) (names_read g)) =? 0)%nat.
  { do 2 eexists. exists [EvSelectGenerated g; p].
    split; [done|]. split; [done|]. left. cbn. by repeat split; try lia. }
  unfold console. set (w2 := record (EvLog _) _).
  destruct (submitAll_quiet (default "" (WAVESPEED_API_KEY (env w)))
              (missingPairs (people w) (names_read g)) w2)
    as (submitted & w3 & evs_s & Hrun3 & Ht3 & _).
  rewrite Hrun3.
  destruct (pollAll_accounts (default "" (WAVESPEED_API_KEY (env w)))
              submitted w3)
    as (results & w4 & evs_p & Hrun4 & Ht4 & _).
  rewrite Hrun4. cbn.
  do 2 eexists.
  exists (evs_p ++ evs_s ++
          [EvLog (LogGenerating
                    (Z.of_nat (length (missingPairs (people w)
                                         (names_read g)))));
           EvSelectGenerated g; p]).
  split; [done|]. split.
  { rewrite Ht4, Ht3. cbn. by rewrite <- !app_assoc. }
  right. exists g, w2, submitted, w3, evs_s, results, evs_p.
  by repeat split.
Qed.

Lemma run_nil_eq (w w' : World) : run w w' [] → w' = w.
Proof.
  intros [He Hp Ho Ht Hg]. destruct w, w'. cbn in *.
  rewrite app_nil_r in Hg. by subst.
Qed.

(** X3.  Missing configuration is reported before anything is done: the
    world is left as it was, and a missing API key is the one reported
    also when the store variables are missing too.  More generally a
    response without counts (a 500, or one of the two early exits) comes
    from an invocation that made at most two reads and nothing else: no
    request to the generation service, no pause, no insert, no log entry,
    the [generated] table as it was. *)
Theorem POST_early_exit_reads_only (w : World) :
  ∃ resp w' evs,
    POST w = (Returned resp, w') ∧ trace w' = evs ++ trace w ∧
    (truthy (WAVESPEED_API_KEY (env w)) = false →
     resp = error_response "WAVESPEED_API_KEY not set") ∧
    (¬ configured (env w) → status resp = 500 ∧ w' = w) ∧
    (field "total" resp = None →
     submits evs = [] ∧ polls evs = [] ∧ sleeps evs = [] ∧
     inserts evs = [] ∧ logs evs = [] ∧ (length evs ≤ 2)%nat ∧
     generated w' = generated w).
Proof.
  destruct (POST_run w) as (resp & w' & evs & Hpost & Hw & Hout).
  destruct (POST_phases w) as (resp' & w'' & evs' & Hpost' & Ht & Hph).
  rewrite Hpost in Hpost'. injection Hpost' as <- <-.
  rewrite (run_trace _ _ _ Hw) in Ht. apply app_inv_tail in Ht as <-.
  exists resp, w', evs. split; [done|]. split; [apply (run_trace _ _ _ Hw)|].
  split; [|split].
  - intros Hk0.
    destruct Hout as [Hk|Hk Hs|e Hc|p Hc Hp Hlen|e Hc Hlen|g Hc Hlen Hg Hm
                      |g submitted results evs_s evs_p Hc]; try done;
      try congruence; destruct Hc as (? & _); congruence.
  - intros Hn.
    destruct Hout as [Hk|Hk Hs|e Hc|p Hc Hp Hlen|e Hc Hlen|g Hc Hlen Hg Hm
                      |g submitted results evs_s evs_p Hc]; try done.
    + split; [done|]. by apply run_nil_eq.
    + split; [done|]. by apply run_nil_eq.
  - intros Hnone.
    destruct Hph as [(_ & _ & _ & Hsl & Hp & Hi & Hs & Hl & Hlen)
                    |(g & w2 & submitted & w3 & evs_s & results & evs_p & _ & _
                      & _ & _ & _ & _ & _ & _ & _ & _ & ->)]; [|done].
    do 6 (split; [done|]).
    rewrite (run_generated _ _ _ Hw), (inserts_nil_stored _ Hi).
    apply app_nil_r.
Qed.

Lemma elem_of_missingPairs_inv (people : list Person.t)
    (existingNames : gset string) (p : Person.t * Person.t) :
  p ∈ missingPairs people existingNames →
  ∃ i j,
    (i < j)%nat ∧ people !! i = Some p.1 ∧ people !! j = Some p.2 ∧
    canonicalName (Person.name p.1) (Person.name p.2) ∉ existingNames.
Proof.
  rewrite missingPairs_indexPairs. intros Hp.
  apply list_elem_of_fmap in Hp as ([i j] & -> & Hij).
  apply list_elem_of_filter in Hij as [Hn Hij].
  apply elem_of_indexPairs in Hij as [Hlt Hj].
  exists i, j. split; [done|]. unfold personPair. cbn.
  split; [apply list_lookup_lookup_total_lt; lia|].
  split; [by apply list_lookup_lookup_total_lt|]. exact Hn.
Qed.

(** X4.  An invocation only appends to [generated] and does not touch
    [people]: the table afterwards is the table before followed by the
    rows of the inserts that succeeded.  Every row it tries to insert has
    an image URL that is not empty and, as name, the canonical label of two
    people at positions [a < b] of [people], a label that was not among the
    names the invocation read. *)
Theorem POST_writes_missing_labels (w : World) :
  ∃ resp w' evs,
    POST w = (Returned resp, w') ∧ trace w' = evs ++ trace w ∧
    people w' = people w ∧
    generated w' = generated w ++ stored evs ∧
    stored evs = rev (fst <$> filter (λ i, i.2 = None) (inserts evs)) ∧
    Forall (λ i,
              Generated.image i.1 ≠ "" ∧
              ∃ g a b pa pb,
                EvSelectGenerated g ∈ evs ∧ (a < b)%nat ∧
                people w !! a = Some pa ∧ people w !! b = Some pb ∧
                Generated.name i.1
                  = canonicalName (Person.name pa) (Person.name pb) ∧
                Generated.name i.1 ∉ names_read g)
           (inserts evs).
Proof.
  destruct (POST_run w) as (resp & w' & evs & Hpost & Hw & _).
  destruct (POST_phases w) as (resp' & w'' & evs' & Hpost' & Ht & Hph).
  rewrite Hpost in Hpost'. injection Hpost' as <- <-.
  rewrite (run_trace _ _ _ Hw) in Ht. apply app_inv_tail in Ht as <-.
  exists resp, w', evs. split; [done|]. split; [apply (run_trace _ _ _ Hw)|].
  split; [apply (run_people _ _ _ Hw)|].
  split; [apply (run_generated _ _ _ Hw)|].
  split; [apply stored_inserts|].
  destruct Hph as [(_ & _ & _ & _ & _ & -> & _)
                  |(g & w2 & submitted & w3 & evs_s & results & evs_p & _ & _
                    & Hsub & Ht3 & Hpoll & Ht4 & Hp2 & _ & _ & -> & _)];
    [constructor|].
  destruct (submitAll_run (default "" (WAVESPEED_API_KEY (env w)))
              (missingPairs (people w) (names_read g)) w2)
    as (new & w3' & evs_s' & Hsub' & Hw3 & _ & _ & Hi3 & _ & _ & Hsl & Hjobs).
  rewrite Hsub in Hsub'. injection Hsub' as -> <-.
  rewrite (run_trace _ _ _ Hw3) in Ht3. apply app_inv_tail in Ht3 as <-.
  destruct (pollAll_accounts (default "" (WAVESPEED_API_KEY (env w))) new w3)
    as (results' & w4 & evs_p' & Hpoll' & Ht4' & _ & _ & _ & _ & Hrows).
  rewrite Hpoll in Hpoll'. injection Hpoll' as <- <-.
  rewrite Ht4 in Ht4'. apply app_inv_tail in Ht4' as <-.
  rewrite !inserts_app, Hi3. cbn [app inserts omap]. rewrite app_nil_r.
  eapply Forall_impl; [exact Hrows|]. intros i [Himg Hname].
  split; [done|].
  apply list_elem_of_fmap in Hname as (job & Hname & Hjob).
  rewrite Forall_forall in Hjobs. destruct (Hjobs job Hjob) as [_ Hcanon].
  assert (pair job ∈ missingPairs (people w) (names_read g)) as Hmiss.
  { eapply elem_of_submseteq; [|exact Hsl]. by apply list_elem_of_fmap_2. }
  apply elem_of_missingPairs_inv in Hmiss as (a & b & Hab & Ha & Hb & Hn).
  exists g, a, b, (pair job).1, (pair job).2.
  split.
  { apply elem_of_app. right. apply elem_of_app. right.
    apply list_elem_of_In. cbn. auto. }
  rewrite Hname, Hcanon. by repeat split.
Qed.

Lemma stored_le_accepted (evs : list Event) :
  (length (stored evs) ≤ length (filter accepted (inserts evs)))%nat.
Proof.
  rewrite stored_inserts, length_rev, length_fmap.
  induction (inserts evs) as [|[row err] l IH]; [done|].
  rewrite filter_accepted_cons. destruct err as [e|].
  - rewrite filter_cons_False by done. lia.
  - rewrite filter_cons_True by done. cbn. lia.
Qed.

(** X5.  In the trace of an invocation every status check comes right
    after a pause of 3000 ms, and there is no pause but the one right
    before a status check.  The invocation makes at most 30 status checks
    for each job it reports as submitted, and none when it reports no
    counts. *)
Theorem POST_polling_budget (w : World) :
  ∃ resp w' evs,
    POST w = (Returned resp, w') ∧ trace w' = evs ++ trace w ∧
    paced 3000 evs ∧
    sleeps evs = replicate (length (polls evs)) 3000 ∧
    (field "submitted" resp = None → polls evs = []) ∧
    (∀ s, field "submitted" resp = Some (JNumber s) →
          Z.of_nat (length (polls evs)) <= 30 * s).
Proof.
  destruct (POST_phases w) as (resp & w' & evs & Hpost & Ht & Hph).
  exists resp, w', evs. do 2 (split; [done|]).
  destruct Hph as [(_ & Hnone & _ & Hs0 & Hp0 & _)
                  |(g & w2 & submitted & w3 & evs_s & results & evs_p & _ & _
                    & Hsub & Ht3 & Hpoll & Ht4 & _ & _ & _ & -> & ->)].
  { split; [by apply paced_quiet|]. rewrite Hs0, Hp0.
    split; [done|]. split; [done|]. intros s Hs. congruence. }
  destruct (submitAll_quiet (default "" (WAVESPEED_API_KEY (env w)))
              (missingPairs (people w) (names_read g)) w2)
    as (submitted' & w3' & evs_s' & Hsub' & Ht3' & Hsl3 & Hp3 & _).
  rewrite Hsub in Hsub'. injection Hsub' as <- <-.
  rewrite Ht3 in Ht3'. apply app_inv_tail in Ht3' as <-.
  destruct (pollAll_accounts (default "" (WAVESPEED_API_KEY (env w)))
              submitted w3)
    as (results' & w4 & evs_p' & Hpoll' & Ht4' & Hlen & Hsl & _).
  rewrite Hpoll in Hpoll'. injection Hpoll' as <- <-.
  rewrite Ht4 in Ht4'. apply app_inv_tail in Ht4' as <-.
  destruct (pollAll_paced (default "" (WAVESPEED_API_KEY (env w)))
              submitted w3)
    as (results' & w4 & evs_p' & Hpoll' & Ht4' & Hpaced).
  rewrite Hpoll in Hpoll'. injection Hpoll' as <- <-.
  rewrite Ht4 in Ht4'. apply app_inv_tail in Ht4' as <-.
  split.
  { apply paced_app; [done|]. apply paced_app; by apply paced_quiet. }
  rewrite !polls_app, !sleeps_app, Hsl3, Hp3. cbn [app polls sleeps omap].
  rewrite !app_nil_r. split; [done|]. split; [done|].
  intros s [= <-]. lia.
Qed.

(** X6.  The count [succeeded] is the number of insert attempts that were
    stored or were answered with the code 23505.  The number of rows the
    invocation added to [generated] is at most that, and the number of
    insert attempts is at most the count [submitted]. *)
Theorem POST_succeeded_accounting (w : World) (succeeded submitted : Z) :
  ∀ resp w',
    POST w = (Returned resp, w') →
    field "succeeded" resp = Some (JNumber succeeded) →
    field "submitted" resp = Some (JNumber submitted) →
    ∃ evs,
      trace w' = evs ++ trace w ∧
      succeeded = Z.of_nat (length (filter accepted (inserts evs))) ∧
      Z.of_nat (length (inserts evs)) <= submitted ∧
      Z.of_nat (length (generated w'))
        <= Z.of_nat (length (generated w)) + succeeded.
Proof.
  intros resp w' Hpost Hsucc Hsubm.
  destruct (POST_run w) as (resp0 & w0 & evs & Hpost0 & Hw & _).
  destruct (POST_phases w) as (resp' & w'' & evs' & Hpost' & Ht & Hph).
  rewrite Hpost in Hpost0, Hpost'.
  injection Hpost0 as <- <-. injection Hpost' as <- <-.
  rewrite (run_trace _ _ _ Hw) in Ht. apply app_inv_tail in Ht as <-.
  exists evs. split; [apply (run_trace _ _ _ Hw)|].
  pose proof (stored_le_accepted evs) as Hstored.
  pose proof (run_generated _ _ _ Hw) as Hgen.
  apply (f_equal length) in Hgen. rewrite length_app in Hgen.
  destruct Hph as [(_ & _ & Hnone & _)
                  |(g & w2 & jobs & w3 & evs_s & results & evs_p & _ & _
                    & Hsub & Ht3 & Hpoll & Ht4 & _ & _ & _ & Hevs & Hresp)];
    [congruence|].
  destruct (submitAll_quiet (default "" (WAVESPEED_API_KEY (env w)))
              (missingPairs (people w) (names_read g)) w2)
    as (jobs' & w3' & evs_s' & Hsub' & Ht3' & _ & _ & Hi3).
  rewrite Hsub in Hsub'. injection Hsub' as <- <-.
  rewrite Ht3 in Ht3'. apply app_inv_tail in Ht3' as <-.
  destruct (pollAll_accounts (default "" (WAVESPEED_API_KEY (env w))) jobs w3)
    as (results' & w4 & evs_p' & Hpoll' & Ht4' & _ & _ & Hil & Hacc & _).
  rewrite Hpoll in Hpoll'. injection Hpoll' as <- <-.
  rewrite Ht4 in Ht4'. apply app_inv_tail in Ht4' as <-.
  assert (inserts evs = inserts evs_p) as Hins.
  { rewrite Hevs, !inserts_app, Hi3. cbn. by rewrite app_nil_r. }
  rewrite Hins in *. rewrite Hresp in Hsucc, Hsubm. cbn in Hsucc, Hsubm.
  injection Hsucc as <-. injection Hsubm as <-. rewrite Hacc. lia.
Qed.

End MoreHandler.

(** ** More on pairs and labels *)

Section MorePairs.

Context {collation : Collation}.

Lemma filter_sublist_impl {A : Type} (P Q : A → Prop)
    `{!∀ x, Decision (P x)} `{!∀ x, Decision (Q x)} (l : list A) :
  (∀ x, P x → Q x) → sublist (filter P l) (filter Q l).
Proof.
  intros HPQ. induction l as [|x l IH]; [done|].
  rewrite !filter_cons. destruct (decide (P x)) as [HP|HP].
  - rewrite decide_True by auto. by apply sublist_skip.
  - destruct (decide (Q x)); [by apply sublist_cons|done].
Qed.

Lemma filter_all {A : Type} (P : A → Prop) `{!∀ x, Decision (P x)}
    (l : list A) :
  (∀ x, P x) → filter P l = l.
Proof.
  intros HP. induction l as [|x l IH]; [done|].
  by rewrite filter_cons_True, IH.
Qed.

(** X7.  The more names are done, the fewer pairs are missing: for the
    same people, the missing pairs against a larger set of names are a
    subsequence of the missing pairs against a smaller one, and against the
    empty set all [n * (n - 1) / 2] pairs are missing. *)
Theorem missingPairs_antitone (people : list Person.t)
    (existingNames existingNames' : gset string) :
  existingNames ⊆ existingNames' →
  sublist (missingPairs people existingNames')
          (missingPairs people existingNames) ∧
  sublist (missingPairs people existingNames) (missingPairs people ∅) ∧
  length (missingPairs people ∅)
    = (length people * (length people - 1) / 2)%nat.
Proof.
  intros Hsub. rewrite !missingPairs_indexPairs. split; [|split].
  - apply fmap_sublist. apply filter_sublist_impl. set_solver.
  - apply fmap_sublist. apply filter_sublist_impl. set_solver.
  - rewrite length_fmap.
    pose proof (pairsFrom_length 0 (length people)) as Hlen.
    rewrite <- indexPairs_pairsFrom in Hlen.
    replace (filter (λ ij, pairLabel people ij ∉ (∅ : gset string))
                    (indexPairs (length people)))
      with (indexPairs (length people)).
    + apply Nat.div_unique_exact; lia.
    + symmetry. apply filter_all. intros ij. apply not_elem_of_empty.
Qed.


Lemma string_app_assoc (s1 s2 s3 : string) :
  (s1 +:+ s2) +:+ s3 = s1 +:+ (s2 +:+ s3).
Proof.
  induction s1 as [|c s1 IH]; [done|].
  change (String c ((s1 +:+ s2) +:+ s3) = String c (s1 +:+ s2 +:+ s3)).
  by rewrite IH.
Qed.

(** X8.  Where the comparison is consistent on two names and does not
    call them equal unless they are the same string, their label does not
    depend on the order of the arguments, and it has on the left the name
    that the comparison puts first. *)
Theorem canonicalName_symmetric_when_distinguished (a b : string) :
  (localeCompare a b < 0 ↔ 0 < localeCompare b a) →
  (localeCompare b a < 0 ↔ 0 < localeCompare a b) →
  (localeCompare a b = 0 → a = b) →
  canonicalName a b = canonicalName b a ∧
  (localeCompare a b <= 0 → canonicalName a b = a +:+ " x " +:+ b) ∧
  (0 < localeCompare a b → canonicalName a b = b +:+ " x " +:+ a).
Proof.
  intros Hab Hba Heq. split; [by apply canonicalName_comm|].
  destruct (canonicalName_cases a b) as [[Hle ->]|[Hlt ->]];
    split; intros; try done; lia.
Qed.

(** X9.  Labels do not tell pairs apart when a name contains " x ": the
    pair of "a x b" with "c" and the pair of "a" with "b x c" get the same
    label whenever the comparison puts the first name of each pair first. *)
Theorem canonicalName_collision (a b c : string) :
  localeCompare (a +:+ " x " +:+ b) c <= 0 →
  localeCompare a (b +:+ " x " +:+ c) <= 0 →
  canonicalName (a +:+ " x " +:+ b) c = canonicalName a (b +:+ " x " +:+ c).
Proof.
  intros H1 H2. unfold canonicalName.
  apply Z.leb_le in H1, H2. rewrite H1, H2.
  by rewrite !string_app_assoc.
Qed.

End MorePairs.

Lemma canonicalName_symmetric_when_distinguished_witness :
  canonicalName (collation := canonicalCompare) "Bob" "Alice"
    = canonicalName (collation := canonicalCompare) "Alice" "Bob" ∧
  (canonicalCompare "Bob" "Alice" <= 0 →
   canonicalName (collation := canonicalCompare) "Bob" "Alice"
     = "Bob" +:+ " x " +:+ "Alice") ∧
  (0 < canonicalCompare "Bob" "Alice" →
   canonicalName (collation := canonicalCompare) "Bob" "Alice"
     = "Alice" +:+ " x " +:+ "Bob").
Proof.
  apply (canonicalName_symmetric_when_distinguished
           (collation := canonicalCompare) "Bob" "Alice");
    vm_compute; intuition congruence.
Defined.

Lemma canonicalName_collision_witness :
  canonicalName (collation := canonicalCompare) ("Ann" +:+ " x " +:+ "Bea") "Cy"
  = canonicalName (collation := canonicalCompare) "Ann" ("Bea" +:+ " x " +:+ "Cy").
Proof.
  apply (canonicalName_collision (collation := canonicalCompare)
           "Ann" "Bea" "Cy"); vm_compute; discriminate.
Defined.

Lemma missingPairs_antitone_witness :
  sublist (missingPairs (collation := canonicalCompare) [alice; bob; carol]
             {["Alice x Bob"; "Bob x Carol"]})
          (missingPairs (collation := canonicalCompare) [alice; bob; carol]
             {["Alice x Bob"]}) ∧
  sublist (missingPairs (collation := canonicalCompare) [alice; bob; carol]
             {["Alice x Bob"]})
          (missingPairs (collation := canonicalCompare) [alice; bob; carol] ∅) ∧
  length (missingPairs (collation := canonicalCompare) [alice; bob; carol] ∅)
    = (length [alice; bob; carol] * (length [alice; bob; carol] - 1) / 2)%nat.
Proof.
  apply (missingPairs_antitone (collation := canonicalCompare)).
  set_solver.
Defined.

(** * Properties of the lobby *)

Section LobbyProperties.

Context {trimmer : Trim}.

(** Every submission of the form goes one of the six ways. *)
Lemma submitForm_outcome (nickname : string) (imageFile : option File)
    (gameId : string) (pg : Page) :
  ∃ evs sent reg,
    submit_outcome nickname imageFile gameId pg evs sent reg ∧
    history (submitForm nickname imageFile gameId pg).2 = evs ++ history pg ∧
    backend (submitForm nickname imageFile gameId pg).2 = backend pg ∧
    sending (submitForm nickname imageFile gameId pg).2 = sent ∧
    participant (submitForm nickname imageFile gameId pg).2
      = match reg with Some p => Some p | None => participant pg end.
Proof.
  unfold submitForm, onFormSubmit, ui_bind, emit, setSending, ask, peek, alert,
    emit, registerCompleted, notifyParent, setParticipant, ui_bind.
  cbn.
  destruct (String.eqb (trim nickname) "") eqn:Hnick.
  { apply String.eqb_eq in Hnick. do 3 eexists.
    split; [by apply submit_blank_nickname|]. by cbn. }
  apply String.eqb_neq in Hnick.
  destruct imageFile as [file|].
  2:{ do 3 eexists. split; [by apply submit_no_photo|]. by cbn. }
  cbn. fold (upload_name_of pg file).
  destruct (on_upload _ _ _ _) as [path|message] eqn:Hup.
  2:{ do 3 eexists. split; [by apply submit_upload_failed|]. by cbn. }
  cbn.
  destruct (on_insert_person _ _ _ _) as [e|] eqn:Hperson.
  - destruct (String.eqb (pg_code e) "23505") eqn:Hcode; cbn.
    + apply String.eqb_eq in Hcode.
      destruct (on_insert_participant _ _ _ _) as [e'|p] eqn:Hpart; cbn.
      * do 3 eexists.
        split; [by apply (submit_participant_failed _ _ _ _ file path (Some e))|].
        by cbn.
      * do 3 eexists.
        split; [by apply (submit_registered _ _ _ _ file path (Some e))|].
        by cbn.
    + apply String.eqb_neq in Hcode. do 3 eexists.
      split; [by apply submit_person_failed|]. by cbn.
  - destruct (on_insert_participant _ _ _ _) as [e'|p] eqn:Hpart; cbn.
    + do 3 eexists.
      split; [by apply (submit_participant_failed _ _ _ _ file path None)|].
      by cbn.
    + do 3 eexists.
      split; [by apply (submit_registered _ _ _ _ file path None)|].
      by cbn.
Qed.

(** X10.  A form with a blank nickname or without a photo is refused on
    the spot: the only things that happen are [preventDefault] and one
    alert, nothing is uploaded or saved, the worker is not triggered, the
    form is enabled again.  The nickname is checked first. *)
Theorem submitForm_rejects_incomplete (nickname : string)
    (imageFile : option File) (gameId : string) (pg : Page) :
  trim nickname = "" ∨ imageFile = None →
  ∃ msg,
    history (submitForm nickname imageFile gameId pg).2
      = [UiAlert msg; UiPreventDefault] ++ history pg ∧
    sending (submitForm nickname imageFile gameId pg).2 = false ∧
    participant (submitForm nickname imageFile gameId pg).2 = participant pg ∧
    (trim nickname = "" → msg = "Please enter a nickname") ∧
    (trim nickname ≠ "" → msg = "Please upload a photo of yourself").
Proof.
  intros Hbad.
  destruct (submitForm_outcome nickname imageFile gameId pg)
    as (evs & sent & reg & Hout & Hh & _ & Hs & Hp).
  rewrite Hh, Hs, Hp.
  destruct Hout as [Hn|Hn Hf|file m Hn Hf|file path e Hn Hf|file path err e Hn Hf
                    |file path err p ok Hn Hf];
    try (destruct Hbad; congruence).
  - exists "Please enter a nickname". by repeat split.
  - exists "Please upload a photo of yourself". by repeat split.
Qed.

(** X11.  A submission ends in one of two ways and never in a mix of them.
    Either the participant is registered: the worker is triggered once, the
    page is told once, nothing is alerted, and [Lobby] shows the welcome
    with the nickname of the participant (the flag [sending] stays set).
    Or exactly one alert is shown: the worker is not triggered, nobody is
    registered, the participant of the page is as before and the form is
    enabled again. *)
Theorem submitForm_registers_or_alerts (nickname : string)
    (imageFile : option File) (gameId : string) (pg : Page) :
  ∃ evs,
    history (submitForm nickname imageFile gameId pg).2 = evs ++ history pg ∧
    ((∃ p resolved,
        registrations evs = [p] ∧ triggers evs = [resolved] ∧
        alerts evs = [] ∧
        participant (submitForm nickname imageFile gameId pg).2 = Some p ∧
        render (submitForm nickname imageFile gameId pg).2
          = Welcome (Participant.nickname p) ∧
        sending (submitForm nickname imageFile gameId pg).2 = true) ∨
     (∃ msg,
        alerts evs = [msg] ∧ registrations evs = [] ∧ triggers evs = [] ∧
        participant (submitForm nickname imageFile gameId pg).2
          = participant pg ∧
        sending (submitForm nickname imageFile gameId pg).2 = false)).
Proof.
  destruct (submitForm_outcome nickname imageFile gameId pg)
    as (evs & sent & reg & Hout & Hh & _ & Hs & Hp).
  exists evs. split; [done|]. unfold render. rewrite Hs, Hp.
  destruct Hout; [right|right|right|right|right|left];
    try (eexists; by repeat split).
  do 2 eexists. by repeat split.
Qed.

(** X12.  A registration has one history.  When the page is told of a
    participant, the form had a nickname that is not blank and a photo, and
    what happened is, in this order: the photo was uploaded under the name
    "<time>-<token>.<extension>", a person with the trimmed nickname and
    the public URL of the uploaded path was inserted (successfully, or into
    a unique violation), a participant with the trimmed nickname and the
    game was inserted and returned by the store, the worker was triggered,
    whether that request resolved or not, and the page was told of the
    participant the store returned. *)
Theorem submitForm_registration_history (nickname : string)
    (imageFile : option File) (gameId : string) (pg : Page)
    (evs : list UiEvent) (p : Participant.t) :
  history (submitForm nickname imageFile gameId pg).2 = evs ++ history pg →
  UiRegistered p ∈ evs →
  ∃ file path err resolved,
    trim nickname ≠ "" ∧ imageFile = Some file ∧ tolerated err ∧
    evs =
      [UiRegistered p;
       UiTrigger resolved;
       UiInsertParticipant (trim nickname) gameId (inr p);
       UiInsertPerson (trim nickname) (public_url (backend pg) path) err;
       UiUpload
         (pretty (date_now (backend pg) (UiPreventDefault :: history pg))
          +:+ "-" +:+
          random_token (backend pg) (UiPreventDefault :: history pg)
          +:+ "." +:+ extension (file_name file))
         file (Uploaded path);
       UiPreventDefault].
Proof.
  intros Hh Hreg.
  destruct (submitForm_outcome nickname imageFile gameId pg)
    as (evs' & sent & reg & Hout & Hh' & _).
  rewrite Hh in Hh'. apply app_inv_tail in Hh' as <-.
  destruct Hout as [Hn|Hn Hf|file m Hn Hf|file path e Hn Hf|file path err e Hn Hf
                    |file path err p' ok Hn Hf Herr];
    try (apply list_elem_of_In in Hreg; cbn in Hreg;
         by intuition discriminate).
  assert (p' = p) as ->.
  { apply list_elem_of_In in Hreg. cbn in Hreg.
    destruct Hreg as [[= ->]|Hreg]; [done|]. by intuition discriminate. }
  by exists file, path, err, ok.
Qed.

(** X13.  Nothing is saved out of order.  A submission uploads at most one
    file, inserts at most one person and at most one participant.  A person
    is inserted only after the upload succeeded, with the trimmed nickname,
    which is not empty, and the public URL of the uploaded path; a
    participant is inserted only after the insert of the person succeeded
    or met a unique violation, with the same trimmed nickname and the game
    of the lobby. *)
Theorem submitForm_saves_in_order (nickname : string)
    (imageFile : option File) (gameId : string) (pg : Page) :
  ∃ evs,
    history (submitForm nickname imageFile gameId pg).2 = evs ++ history pg ∧
    (length (uploads evs) ≤ 1)%nat ∧
    (length (person_inserts evs) ≤ 1)%nat ∧
    (length (participant_inserts evs) ≤ 1)%nat ∧
    (∀ name image err,
       (name, image, err) ∈ person_inserts evs →
       name = trim nickname ∧ name ≠ "" ∧
       ∃ file path,
         imageFile = Some file ∧
         uploads evs = [(upload_name_of pg file, file, Uploaded path)] ∧
         image = public_url (backend pg) path) ∧
    (∀ nick game res,
       (nick, game, res) ∈ participant_inserts evs →
       nick = trim nickname ∧ game = gameId ∧
       ∃ image err,
         person_inserts evs = [(nick, image, err)] ∧ tolerated err).
Proof.
  destruct (submitForm_outcome nickname imageFile gameId pg)
    as (evs & sent & reg & Hout & Hh & _).
  exists evs. split; [done|].
  destruct Hout as [Hn|Hn Hf|file m Hn Hf|file path e Hn Hf|file path err e Hn Hf
                    |file path err p ok Hn Hf Herr]; cbn;
    (split; [lia|]); (split; [lia|]); (split; [lia|]); split;
    intros a b c Hin; apply list_elem_of_In in Hin; cbn in Hin;
    try (by intuition discriminate);
    destruct Hin as [[= <- <- <-]|[]]; do 2 (split; [done|]); eauto.
Qed.

(** X14.  Saving the person tolerates a known name and nothing else: when
    the insert of the person is answered with the code 23505 the
    participant is inserted all the same, and when it is answered with any
    other error no participant is inserted, the alert is "Failed to save
    profile: " followed by the message of the error, and the form is
    enabled again. *)
Theorem submitForm_tolerates_known_person (nickname : string)
    (imageFile : option File) (gameId : string) (pg : Page)
    (evs : list UiEvent) (name image : string) (e : PostgrestError) :
  history (submitForm nickname imageFile gameId pg).2 = evs ++ history pg →
  (name, image, Some e) ∈ person_inserts evs →
  (pg_code e = "23505" →
   ∃ res, participant_inserts evs = [(trim nickname, gameId, res)]) ∧
  (pg_code e ≠ "23505" →
   participant_inserts evs = [] ∧ registrations evs = [] ∧
   alerts evs = ["Failed to save profile: " +:+ pg_message e] ∧
   sending (submitForm nickname imageFile gameId pg).2 = false).
Proof.
  intros Hh Hin.
  destruct (submitForm_outcome nickname imageFile gameId pg)
    as (evs' & sent & reg & Hout & Hh' & _ & Hs & _).
  rewrite Hh in Hh'. apply app_inv_tail in Hh' as <-. rewrite Hs.
  apply list_elem_of_In in Hin.
  destruct Hout as [Hn|Hn Hf|file m Hn Hf|file path e' Hn Hf Hc
                    |file path err e' Hn Hf Herr
                    |file path err p ok Hn Hf Herr]; cbn in Hin;
    try (by intuition discriminate);
    destruct Hin as [Heq|[]]; simplify_eq/=.
  - split; [done|]. by intros _.
  - split; [by eexists|done].
  - split; [by eexists|done].
Qed.

End LobbyProperties.

(** ** The effect of [Lobby] and the name of the upload *)

Lemma truthy_nonempty (v : option string) :
  truthy v = true → ∃ s, v = Some s ∧ s ≠ "".
Proof.
  destruct v as [s|]; [|done]. cbn. intros Hs. exists s. split; [done|].
  intros ->. done.
Qed.

Lemma not_truthy_nonempty (s : string) : truthy (Some s) = false → s = "".
Proof. cbn. intros Hs. by apply negb_false_iff, String.eqb_eq in Hs. Qed.

(** X15.  Mounting the lobby only looks the participant up.  It never
    uploads, inserts or triggers anything and leaves [sending] alone; it
    checks the session once and signs in anonymously exactly when there is
    no session.  The user id it goes on with is that of the session, or
    else that of the sign-in: when that id is missing or empty it does not
    query the participants, and otherwise it queries them once, for the
    game of the lobby and that user.  The page is told of a participant,
    and shows the welcome, exactly when the query returned one; an error
    of the query is alerted with its message, and a failed sign-in is never
    alerted. *)
Theorem mountLobby_restores_participant (gameId : string) (pg : Page) :
  ∃ evs,
    history (mountLobby gameId pg).2 = evs ++ history pg ∧
    backend (mountLobby gameId pg).2 = backend pg ∧
    sending (mountLobby gameId pg).2 = sending pg ∧
    uploads evs = [] ∧ person_inserts evs = [] ∧
    participant_inserts evs = [] ∧ triggers evs = [] ∧
    (sign_ins evs = [] ↔ on_get_session (backend pg) (history pg) ≠ None) ∧
    (length (participant_queries evs) ≤ 1)%nat ∧
    (∀ game user res,
       (game, user, res) ∈ participant_queries evs →
       game = gameId ∧ user ≠ "" ∧
       user_obtained (backend pg) (history pg) = Some user ∧
       match res with
       | inl e =>
           alerts evs = [pg_message e] ∧ registrations evs = [] ∧
           participant (mountLobby gameId pg).2 = participant pg
       | inr None =>
           alerts evs = [] ∧ registrations evs = [] ∧
           participant (mountLobby gameId pg).2 = participant pg
       | inr (Some p) =>
           alerts evs = [] ∧ registrations evs = [p] ∧
           participant (mountLobby gameId pg).2 = Some p
       end) ∧
    (participant_queries evs = [] →
     alerts evs = [] ∧ registrations evs = [] ∧
     participant (mountLobby gameId pg).2 = participant pg) ∧
    session_checks evs = [on_get_session (backend pg) (history pg)] ∧
    (truthy (user_obtained (backend pg) (history pg)) = false →
     participant_queries evs = []) ∧
    (∀ user,
       user_obtained (backend pg) (history pg) = Some user → user ≠ "" →
       ∃ res, participant_queries evs = [(gameId, user, res)]).
Proof.
  unfold user_obtained, mountLobby, fetchParticipant, notifyParent, alert,
    emit, ask, setParticipant, ui_bind, ui_ret, ui_record.
  destruct pg as [part snd b h]. cbn -[truthy].
  destruct (on_get_session b h) as [id|] eqn:Hsession; cbn -[truthy].
  - destruct (truthy (Some id)) eqn:Hid; cbn -[truthy].
    + destruct (truthy_nonempty _ Hid) as (s & [= <-] & Hs).
      destruct (on_query_participant b (UiGetSession (Some id) :: h) gameId id)
        as [e|[p|]] eqn:Hq; cbn -[truthy].
      * exists [UiAlert (pg_message e);
                UiQueryParticipant gameId id (inl e); UiGetSession (Some id)].
        cbn -[truthy]. do 7 (split; [done|]). split; [by split|].
        split; [lia|]. split.
        { intros g u r Hin. apply list_elem_of_In in Hin.
          destruct Hin as [[= <- <- <-]|[]]. done. }
        do 2 (split; [done|]). split; [by intros [=]|].
        intros user [= <-] _. by eexists.
      * exists [UiRegistered p;
                UiQueryParticipant gameId id (inr (Some p));
                UiGetSession (Some id)].
        cbn -[truthy]. do 7 (split; [done|]). split; [by split|].
        split; [lia|]. split.
        { intros g u r Hin. apply list_elem_of_In in Hin.
          destruct Hin as [[= <- <- <-]|[]]. done. }
        do 2 (split; [done|]). split; [by intros [=]|].
        intros user [= <-] _. by eexists.
      * exists [UiQueryParticipant gameId id (inr None);
                UiGetSession (Some id)].
        cbn -[truthy]. do 7 (split; [done|]). split; [by split|].
        split; [lia|]. split.
        { intros g u r Hin. apply list_elem_of_In in Hin.
          destruct Hin as [[= <- <- <-]|[]]. done. }
        do 2 (split; [done|]). split; [by intros [=]|].
        intros user [= <-] _. by eexists.
    + exists [UiGetSession (Some id)].
      cbn -[truthy]. do 7 (split; [done|]). split; [by split|].
      split; [lia|]. split.
      { intros g u r Hin. apply list_elem_of_In in Hin. destruct Hin. }
      do 2 (split; [done|]). split; [done|].
      intros user [= <-] Hne. by apply not_truthy_nonempty in Hid.
  - destruct (on_sign_in b (UiGetSession None :: h)) as [uid serr] eqn:Hsign.
    destruct serr as [err|]; cbn -[truthy];
      (destruct (truthy uid) eqn:Hid; cbn -[truthy];
       [destruct (truthy_nonempty _ Hid) as (s & -> & Hs); cbn -[truthy];
        match goal with
        | |- context [on_query_participant b ?hh gameId s] =>
            destruct (on_query_participant b hh gameId s)
              as [e|[p|]] eqn:Hq; cbn -[truthy]
        end|]).
    all: match goal with
         | |- ∃ evs, ?l = _ ∧ _ =>
             match l with
             | ?e1 :: ?e2 :: ?e3 :: ?e4 :: ?e5 :: ?t =>
                 exists [e1; e2; e3; e4; e5]
             | ?e1 :: ?e2 :: ?e3 :: ?e4 :: ?t => exists [e1; e2; e3; e4]
             | ?e1 :: ?e2 :: ?e3 :: ?t => exists [e1; e2; e3]
             | ?e1 :: ?e2 :: ?t => exists [e1; e2]
             end
         end.
    all: cbn -[truthy]; do 7 (split; [done|]);
      (split; [split; [discriminate|congruence]|]); (split; [lia|]);
      (split;
       [intros g u r Hin; apply list_elem_of_In in Hin;
        cbn in Hin; try (by destruct Hin);
        destruct Hin as [[= <- <- <-]|[]]; done|]);
      do 2 (split; [done|]);
      (split; [first [done|by rewrite Hid]|]);
      intros user Hu Hne; simplify_eq; first [by eexists|idtac].
    all: by apply not_truthy_nonempty in Hid.
Qed.

Lemma split_on_cons (sep : Ascii.ascii) (s : string) :
  ∃ seg segs, split_on sep s = seg :: segs.
Proof.
  induction s as [|c s (seg & segs & IH)]; cbn; [by eauto|].
  destruct (Ascii.eqb c sep); [by eauto|]. rewrite IH. by eauto.
Qed.

Lemma split_on_app (sep : Ascii.ascii) (pre post : string) :
  split_on sep (pre +:+ String sep post)
  = split_on sep pre ++ split_on sep post.
Proof.
  induction pre as [|c pre IH].
  - change (split_on sep (String sep post) = [""] ++ split_on sep post).
    cbn. by rewrite Ascii.eqb_refl.
  - change (String c pre +:+ String sep post)
      with (String c (pre +:+ String sep post)).
    cbn. destruct (Ascii.eqb c sep); rewrite IH; [done|].
    by destruct (split_on_cons sep pre) as (seg & segs & ->).
Qed.

Lemma split_on_no_dot (s : string) : no_dot s → split_on dot s = [s].
Proof.
  induction s as [|c s IH]; [done|]. intros [Hc Hs]. cbn.
  destruct (Ascii.eqb_spec c dot); [done|]. by rewrite IH.
Qed.

Lemma split_on_segments (s : string) : Forall no_dot (split_on dot s).
Proof.
  induction s as [|c s IH]; cbn.
  - by repeat constructor.
  - destruct (Ascii.eqb_spec c dot) as [->|Hc].
    + by constructor.
    + destruct (split_on dot s) as [|seg segs]; [by repeat constructor|].
      inversion_clear IH. by repeat constructor.
Qed.

(** X16.  The extension of the uploaded file is what follows the last dot
    of the name of the photo: a name without a dot is its own extension,
    the extension of [pre.ext] is [ext] when [ext] has no dot, whatever
    dots [pre] has, and an extension never contains a dot.  The segment is
    always there, so the fallback ['jpg'] of the source is never taken. *)
Theorem extension_after_last_dot :
  (∀ name, no_dot name → extension name = name) ∧
  (∀ pre ext, no_dot ext → extension (pre +:+ "." +:+ ext) = ext) ∧
  (∀ name, no_dot (extension name)) ∧
  (∀ name, last (split_on dot name) = Some (extension name)).
Proof.
  unfold extension. repeat split.
  - intros name Hn. by rewrite split_on_no_dot.
  - intros pre ext He.
    change (pre +:+ "." +:+ ext) with (pre +:+ String dot ext).
    by rewrite split_on_app, (split_on_no_dot ext), last_snoc.
  - intros name. pose proof (split_on_segments name) as Hall.
    destruct (last (split_on dot name)) as [seg|] eqn:Hl; cbn.
    + apply last_Some_elem_of in Hl.
      by eapply Forall_forall in Hall.
    + by repeat split.
  - intros name. destruct (split_on_cons dot name) as (seg & segs & ->).
    destruct (last (seg :: segs)) eqn:Hl; [done|].
    by apply last_None in Hl.
Qed.

(** ** Instances *)

Lemma POST_succeeded_accounting_witness :
  ∃ evs,
    trace (POST (collation := canonicalCompare) world_three).2
      = evs ++ trace world_three ∧
    2 = Z.of_nat (length (filter accepted (inserts evs))) ∧
    Z.of_nat (length (inserts evs)) <= 2 ∧
    Z.of_nat (length (generated
                        (POST (collation := canonicalCompare) world_three).2))
      <= Z.of_nat (length (generated world_three)) + 2.
Proof.
  apply (POST_succeeded_accounting (collation := canonicalCompare)
           world_three 2 2 (summary_response 2 2 2 0)
           (POST (collation := canonicalCompare) world_three).2).
  - vm_compute. reflexivity.
  - vm_compute. reflexivity.
  - vm_compute. reflexivity.
Defined.

Lemma submitForm_rejects_incomplete_witness :
  ∃ msg,
    history (submitForm (trimmer := ascii_trim) "   " (Some photo) "game-1"
               (page_new backend_ok)).2
      = [UiAlert msg; UiPreventDefault] ++ history (page_new backend_ok) ∧
    sending (submitForm (trimmer := ascii_trim) "   " (Some photo) "game-1"
               (page_new backend_ok)).2 = false ∧
    participant (submitForm (trimmer := ascii_trim) "   " (Some photo)
                   "game-1" (page_new backend_ok)).2
      = participant (page_new backend_ok) ∧
    (ascii_trim "   " = "" → msg = "Please enter a nickname") ∧
    (ascii_trim "   " ≠ "" → msg = "Please upload a photo of yourself").
Proof.
  apply (submitForm_rejects_incomplete (trimmer := ascii_trim)
           "   " (Some photo) "game-1" (page_new backend_ok)).
  left. vm_compute. reflexivity.
Defined.

Lemma submitForm_registration_history_witness :
  ∃ file path err resolved,
    ascii_trim " Dana " ≠ "" ∧ Some photo = Some file ∧ tolerated err ∧
    dana_registers =
      [UiRegistered dana;
       UiTrigger resolved;
       UiInsertParticipant (ascii_trim " Dana ") "game-1" (inr dana);
       UiInsertPerson (ascii_trim " Dana ")
         (public_url (backend (page_new backend_ok)) path) err;
       UiUpload
         (pretty (date_now (backend (page_new backend_ok))
                    (UiPreventDefault :: history (page_new backend_ok)))
          +:+ "-" +:+
          random_token (backend (page_new backend_ok))
            (UiPreventDefault :: history (page_new backend_ok))
          +:+ "." +:+ extension (file_name file))
         file (Uploaded path);
       UiPreventDefault].
Proof.
  apply (submitForm_registration_history (trimmer := ascii_trim)
           " Dana " (Some photo) "game-1" (page_new backend_ok)
           dana_registers dana).
  - vm_compute. reflexivity.
  - vm_compute. constructor.
Defined.

Lemma submitForm_tolerates_known_person_witness :
  (pg_code (mkPostgrestError "duplicate key" "23505") = "23505" →
   ∃ res,
     participant_inserts dana_registers_again
       = [(ascii_trim " Dana ", "game-1", res)]) ∧
  (pg_code (mkPostgrestError "duplicate key" "23505") ≠ "23505" →
   participant_inserts dana_registers_again = [] ∧
   registrations dana_registers_again = [] ∧
   alerts dana_registers_again
     = ["Failed to save profile: "
        +:+ pg_message (mkPostgrestError "duplicate key" "23505")] ∧
   sending (submitForm (trimmer := ascii_trim) " Dana " (Some photo) "game-1"
              (page_new backend_known_person)).2 = false).
Proof.
  apply (submitForm_tolerates_known_person (trimmer := ascii_trim)
           " Dana " (Some photo) "game-1" (page_new backend_known_person)
           dana_registers_again "Dana"
           "https://storage/people-photos/1700000000000-k3x9q.png"
           (mkPostgrestError "duplicate key" "23505")).
  - vm_compute. reflexivity.
  - vm_compute. constructor.
Defined.

(** A job that completed without outputs: one pause, one status check, no
    URL and no log entry; the invocation counts the pair as failed. *)
Lemma poll_completed_without_outputs :
  ∃ w',
    pollResult "job-1" "key" DEFAULT_MAX_ATTEMPTS DEFAULT_INTERVAL_MS
      world_hollow = (Returned None, w') ∧
    trace w'
      = [EvPoll "job-1" "key" (poll_sees "job-1" completed (Some []));
         EvSleep 3000] ∧
    logs (trace w') = [] ∧
    (POST (collation := canonicalCompare) world_hollow).1
      = Returned (summary_response 1 1 0 1).
Proof. eexists. vm_compute. by repeat split. Qed.
